(** * mycsv: the CSV writer and the export pipeline

    A shallow embedding of [csv_writer.go] (the [Writer] that encodes one
    record of [sql.RawBytes] as a MySQL compatible CSV line) and of the
    parts of [mycsv.go] that configure the writer and stream rows to it.

    The repository keeps two revisions of the writer.  The current one
    stores the symbols as Go strings and compares [string(f)] with them;
    it is embedded in module [Csv].  The older one stores them as runes;
    it is embedded in module [CsvRune].

    The Go standard library pieces the writer is built on ([bufio.Writer],
    [io.Writer], [unicode/utf8]) are modelled in [Bufio], [IoWriter] and
    [Utf8], following the library sources.

    [readRows] and [writeCSV] are embedded in [Pipeline] as two goroutines
    that meet on unbuffered channels.  Of the older [mycsv.go] the file
    also embeds [NullRawBytes.Scan] and [NullRawBytes.Value], and of the
    password prompt the read loops of the two variants of [readPassword]
    ([PasswordUnix], [PasswordWin]), run on the results of the successive
    reads. *)

From Stdlib Require Import String Ascii.
From Stdlib Require Import ZArith List Bool Lia Arith.
Import ListNotations.

Set Implicit Arguments.

(** ** Go base types *)

(** A Go [byte] is an integer in [0, 256); a [rune] is an [int32]. *)
Definition byte := Z.
Definition rune := Z.

(** A Go [string] is a sequence of bytes. *)
Definition gostring := list byte.

(** A Go [error]: [nil] is [None], otherwise the error's message. *)
Definition error := option String.string.

Definition is_byte (b : byte) : Prop := (0 <= b < 256)%Z.

(** The bytes of a string literal. *)
Definition bytes_of (s : String.string) : gostring :=
  map (fun a => Z.of_N (Ascii.N_of_ascii a)) (String.list_ascii_of_string s).

(** [a == b] on Go strings. *)
Fixpoint bytes_eqb (a b : gostring) : bool :=
  match a, b with
  | [], [] => true
  | x :: a', y :: b' => Z.eqb x y && bytes_eqb a' b'
  | _, _ => false
  end.

Definition is_nil (e : error) : bool :=
  match e with None => true | Some _ => false end.

(** ** unicode/utf8 *)

Module Utf8.

Local Open Scope Z_scope.

Definition RuneError : rune := 0xFFFD.
Definition RuneSelf : Z := 0x80.
Definition MaxRune : rune := 0x10FFFF.
Definition UTFMax : nat := 4%nat.

Definition surrogateMin : Z := 0xD800.
Definition surrogateMax : Z := 0xDFFF.

Definition tx : Z := 0x80.
Definition t2 : Z := 0xC0.
Definition t3 : Z := 0xE0.
Definition t4 : Z := 0xF0.
Definition t5 : Z := 0xF8.

Definition maskx : Z := 0x3F.
Definition mask2 : Z := 0x1F.
Definition mask3 : Z := 0x0F.
Definition mask4 : Z := 0x07.

Definition rune1Max : Z := 127.
Definition rune2Max : Z := 2047.
Definition rune3Max : Z := 65535.

(** The conversion [byte(x)] of an integer. *)
Definition to_byte (x : Z) : byte := (x mod 256)%Z.

Definition encode3 (r : rune) : list byte :=
  [ Z.lor t3 (to_byte (Z.shiftr r 12));
    Z.lor tx (Z.land (to_byte (Z.shiftr r 6)) maskx);
    Z.lor tx (Z.land (to_byte r) maskx) ].

(** [EncodeRune]: the bytes written into [p]; the returned count is their
    number.  [uint32(r)] is [r mod 2^32]. *)
Definition EncodeRune (r : rune) : list byte :=
  let i := (r mod 2 ^ 32)%Z in
  if (i <=? rune1Max)%Z then [to_byte r]
  else if (i <=? rune2Max)%Z then
    [ Z.lor t2 (to_byte (Z.shiftr r 6));
      Z.lor tx (Z.land (to_byte r) maskx) ]
  else if (MaxRune <? i)%Z || ((surrogateMin <=? i)%Z && (i <=? surrogateMax)%Z)
  then encode3 RuneError
  else if (i <=? rune3Max)%Z then encode3 r
  else
    [ Z.lor t4 (to_byte (Z.shiftr r 18));
      Z.lor tx (Z.land (to_byte (Z.shiftr r 12)) maskx);
      Z.lor tx (Z.land (to_byte (Z.shiftr r 6)) maskx);
      Z.lor tx (Z.land (to_byte r) maskx) ].

(** [RuneStart(b)]: [b&0xC0 != 0x80]. *)
Definition RuneStart (b : byte) : bool :=
  negb (Z.land b 0xC0 =? 0x80)%Z.

Definition is_cont (c : byte) : bool :=
  negb ((c <? tx)%Z || (t2 <=? c)%Z).

(** [DecodeRuneInString]: the rune at the front of [s] and its width. *)
Definition DecodeRuneInString (s : gostring) : rune * Z :=
  match s with
  | [] => (RuneError, 0%Z)
  | c0 :: s1 =>
    if (c0 <? tx)%Z then (c0, 1%Z)
    else if (c0 <? t2)%Z then (RuneError, 1%Z)
    else
      match s1 with
      | [] => (RuneError, 1%Z)
      | c1 :: s2 =>
        if negb (is_cont c1) then (RuneError, 1%Z)
        else if (c0 <? t3)%Z then
          let r := Z.lor (Z.shiftl (Z.land c0 mask2) 6) (Z.land c1 maskx) in
          if (r <=? rune1Max)%Z then (RuneError, 1%Z) else (r, 2%Z)
        else
          match s2 with
          | [] => (RuneError, 1%Z)
          | c2 :: s3 =>
            if negb (is_cont c2) then (RuneError, 1%Z)
            else if (c0 <? t4)%Z then
              let r := Z.lor (Z.lor (Z.shiftl (Z.land c0 mask3) 12)
                                    (Z.shiftl (Z.land c1 maskx) 6))
                             (Z.land c2 maskx) in
              if (r <=? rune2Max)%Z then (RuneError, 1%Z)
              else if (surrogateMin <=? r)%Z && (r <=? surrogateMax)%Z
                   then (RuneError, 1%Z)
              else (r, 3%Z)
            else
              match s3 with
              | [] => (RuneError, 1%Z)
              | c3 :: _ =>
                if negb (is_cont c3) then (RuneError, 1%Z)
                else if (c0 <? t5)%Z then
                  let r := Z.lor (Z.lor (Z.lor (Z.shiftl (Z.land c0 mask4) 18)
                                               (Z.shiftl (Z.land c1 maskx) 12))
                                        (Z.shiftl (Z.land c2 maskx) 6))
                                 (Z.land c3 maskx) in
                  if (r <=? rune3Max)%Z || (MaxRune <? r)%Z
                  then (RuneError, 1%Z) else (r, 4%Z)
                else (RuneError, 1%Z)
              end
          end
      end
  end.

(** The backwards scan of [DecodeLastRuneInString]:
    [for start--; start >= lim; start-- { if RuneStart(s[start]) { break } }].
    [lim] is at most [UTFMax] below the end, so [UTFMax] rounds cover it. *)
Fixpoint scanBack (rounds : nat) (s : gostring) (start lim : Z) : Z :=
  match rounds with
  | O => start
  | S k =>
    if (start <? lim)%Z then start
    else if RuneStart (nth (Z.to_nat start) s 0%Z) then start
    else scanBack k s (start - 1)%Z lim
  end.

(** [DecodeLastRuneInString]: the last rune of [s] and its width. *)
Definition DecodeLastRuneInString (s : gostring) : rune * Z :=
  let end_ := Z.of_nat (length s) in
  if (end_ =? 0)%Z then (RuneError, 0%Z)
  else
    let start := (end_ - 1)%Z in
    let r := nth (Z.to_nat start) s 0%Z in
    if (r <? RuneSelf)%Z then (r, 1%Z)
    else
      let lim := Z.max 0 (end_ - Z.of_nat UTFMax) in
      let start := scanBack UTFMax s (start - 1)%Z lim in
      let start := Z.max 0 start in
      let '(r, size) := DecodeRuneInString (skipn (Z.to_nat start) s) in
      if negb (start + size =? end_)%Z then (RuneError, 1%Z)
      else (r, size).

End Utf8.

(** [string(f)] for a byte [f]: the UTF-8 encoding of the code point [f],
    one byte below [0x80] and two bytes from [0x80] on. *)
Definition string_of_byte (f : byte) : gostring :=
  if (f <? Utf8.RuneSelf)%Z then [f]
  else [ Z.lor Utf8.t2 (Z.shiftr f 6); Z.lor Utf8.tx (Z.land f Utf8.maskx) ].

Definition ErrShortWrite : String.string := "short write"%string.

(** ** io.Writer *)

(** [Write(p)] returns the number of bytes taken from [p] and an error; the
    interface requires [0 <= n <= len(p)]. *)
Class IoWriter (W : Type) : Type := {
  io_Write : W -> list byte -> W * (nat * error);
  io_Write_count : forall w p, fst (snd (io_Write w p)) <= length p
}.

(** [bytes.Buffer]: every write appends all of [p]. *)
Definition BytesBuffer := list byte.

#[export, refine] Instance bytesBuffer : IoWriter BytesBuffer :=
  {| io_Write := fun b p => (b ++ p, (length p, None)) |}.
Proof. intros; simpl; lia. Defined.

(** The [errorWriter] of the test file: every write fails. *)
Definition errorWriter := unit.

#[export, refine] Instance errorWriter_IoWriter : IoWriter errorWriter :=
  {| io_Write := fun _ _ => (tt, (0, Some "Test"%string)) |}.
Proof. intros; simpl; lia. Defined.

(** A writer that keeps, next to the writer it forwards to, the list of
    the slices it was called with. *)
Definition CallLog (W : Type) : Type := (W * list (list byte))%type.

#[export, refine] Instance CallLog_IoWriter {W : Type} {IOW : IoWriter W}
  : IoWriter (CallLog W) :=
  {| io_Write := fun wl p =>
       let '(w', r) := io_Write (fst wl) p in ((w', snd wl ++ [p]), r) |}.
Proof.
  intros [w l] p; simpl.
  pose proof (io_Write_count w p) as H.
  destruct (io_Write w p) as [w' [n e]]; exact H.
Defined.

(** ** State passing *)

(** Code that threads a [*bufio.Writer] through a sequence of calls. *)
Definition St (S A : Type) : Type := S -> A * S.

Definition ret {S A : Type} (a : A) : St S A := fun s => (a, s).

Definition bind {S A B : Type} (c : St S A) (k : A -> St S B) : St S B :=
  fun s => let '(a, s') := c s in k a s'.

Declare Scope st_scope.
Delimit Scope st_scope with st.
Notation "x <- c ;; k" := (bind c (fun x => k))
  (at level 61, c at next level, right associativity) : st_scope.
Notation "c ;; k" := (bind c (fun _ => k))
  (at level 61, right associativity) : st_scope.

(** ** bufio.Writer *)

Module Bufio.
Section Sink.

Context {W : Type} {IOW : IoWriter W}.

(** [buf] holds the pending bytes [b.buf[0:b.n]]; [size] is [len(b.buf)];
    [wr] is the underlying writer; [err] the first write error. *)
Record Writer : Type := mkWriter {
  err : error;
  buf : list byte;
  size : nat;
  wr : W
}.

Definition defaultBufSize : nat := 4096.

Definition NewWriter (w : W) : Writer :=
  {| err := None; buf := []; size := defaultBufSize; wr := w |}.

Definition Available (b : Writer) : nat := size b - length (buf b).

Definition Buffered (b : Writer) : nat := length (buf b).

(** [copy(b.buf[b.n:], s)]: as many bytes of [s] as there is room for. *)
Definition copy_in (s : list byte) (b : Writer) : nat * Writer :=
  let n := Nat.min (Available b) (length s) in
  (n, {| err := err b; buf := buf b ++ firstn n s; size := size b; wr := wr b |}).

(** [Flush]: hands the pending bytes to the underlying writer.  A short
    write without error becomes [io.ErrShortWrite]; on failure the bytes
    that were not taken stay pending and the error is recorded. *)
Definition Flush (b : Writer) : error * Writer :=
  match err b with
  | Some e => (Some e, b)
  | None =>
    match buf b with
    | [] => (None, b)
    | _ :: _ =>
      let '(wr', (n, e)) := io_Write (wr b) (buf b) in
      let e := if (n <? length (buf b)) && is_nil e
               then Some ErrShortWrite else e in
      match e with
      | Some x =>
        (Some x, {| err := Some x; buf := skipn n (buf b);
                    size := size b; wr := wr' |})
      | None =>
        (None, {| err := None; buf := []; size := size b; wr := wr' |})
      end
    end
  end.

(** The loop of [WriteString]:
    [for len(s) > b.Available() && b.err == nil { copy; s = s[n:]; b.Flush() }].
    It returns what is left of [s] and the count [nn]. *)
Fixpoint WriteString_loop (rounds : nat) (s : list byte) (nn : nat)
         (b : Writer) : (list byte * nat) * Writer :=
  match rounds with
  | O => ((s, nn), b)
  | S k =>
    if (Available b <? length s) && is_nil (err b) then
      let '(n, b1) := copy_in s b in
      let '(_, b2) := Flush b1 in
      WriteString_loop k (skipn n s) (nn + n) b2
    else ((s, nn), b)
  end.

(** Every round but the first consumes a byte of [s], so [len(s) + 1]
    rounds are enough (lemma [WriteString_loop_exit]). *)
Definition WriteString (s : list byte) : St Writer (nat * error) :=
  fun b =>
    let '((s', nn), b') := WriteString_loop (S (length s)) s 0 b in
    match err b' with
    | Some e => ((nn, Some e), b')
    | None =>
      let '(n, b'') := copy_in s' b' in ((nn + n, None), b'')
    end.

Definition WriteByte (c : byte) : St Writer error :=
  fun b =>
    match err b with
    | Some e => (Some e, b)
    | None =>
      if Available b <=? 0 then
        let '(fe, b1) := Flush b in
        match fe with
        | Some _ => (err b1, b1)
        | None =>
          (None, {| err := err b1; buf := buf b1 ++ [c];
                    size := size b1; wr := wr b1 |})
        end
      else
        (None, {| err := err b; buf := buf b ++ [c];
                  size := size b; wr := wr b |})
    end.

Definition WriteRune (r : rune) : St Writer (nat * error) :=
  fun b =>
    if (r <? Utf8.RuneSelf)%Z then
      let '(e, b') := WriteByte (Utf8.to_byte r) b in
      match e with
      | Some x => ((0, Some x), b')
      | None => ((1, None), b')
      end
    else
      match err b with
      | Some e => ((0, Some e), b)
      | None =>
        let enc := Utf8.EncodeRune r in
        if Available b <? Utf8.UTFMax then
          let '(_, b1) := Flush b in
          match err b1 with
          | Some e => ((0, Some e), b1)
          | None =>
            if Available b1 <? Utf8.UTFMax then WriteString enc b1
            else
              ((length enc, None),
               {| err := err b1; buf := buf b1 ++ enc;
                  size := size b1; wr := wr b1 |})
          end
        else
          ((length enc, None),
           {| err := err b; buf := buf b ++ enc;
              size := size b; wr := wr b |})
      end.

(** [Write(nil)], the only call of [Write] in the program: [len(p)] is 0,
    which never exceeds [Available()], so nothing is copied or flushed and
    the recorded error is returned. *)
Definition Write_nil : St Writer (nat * error) :=
  fun b => ((0, err b), b).

End Sink.
Arguments Writer W : clear implicits.
End Bufio.

(** ** Characters the program names *)

Definition TAB : byte := 9%Z.
Definition LF : byte := 10%Z.
Definition CR : byte := 13%Z.
Definition dquote : byte := 34%Z.
Definition comma : byte := 44%Z.
Definition digit_0 : byte := 48%Z.
Definition letter_N : byte := 78%Z.
Definition backslash : byte := 92%Z.
Definition letter_n : byte := 110%Z.
Definition letter_r : byte := 114%Z.
Definition letter_t : byte := 116%Z.

(** How control leaves a piece of a function body: it falls through to the
    next statement, or the function executes [return] (in [Write] always
    under [err != nil], with the named result [buf] still 0). *)
Inductive flow : Type :=
| Next
| Return (e : String.string).

(** ** csv_writer.go, current revision (string symbols) *)

Module Csv.
Section Sink.

Context {W : Type} {IOW : IoWriter W}.
Local Open Scope st_scope.

(** [sql.RawBytes] is a [[]byte]; the [nil] slice is [None]. *)
Definition RawBytes : Type := option (list byte).

Record Writer : Type := mkWriter {
  Delimiter : gostring;
  Quote : gostring;
  Escape : gostring;
  Terminator : gostring;
  w : Bufio.Writer W
}.

Definition with_w (cw : Writer) (b : Bufio.Writer W) : Writer :=
  {| Delimiter := Delimiter cw; Quote := Quote cw; Escape := Escape cw;
     Terminator := Terminator cw; w := b |}.

Definition NewWriter (dest : W) : Writer :=
  {| Delimiter := [comma]; Quote := [dquote]; Escape := [backslash];
     Terminator := [LF]; w := Bufio.NewWriter dest |}.

(** [_, err = w.w.WriteString(s)] and [_, err = w.w.WriteRune(r)]. *)
Definition writeString (s : gostring) : St (Bufio.Writer W) error :=
  r <- Bufio.WriteString s ;; ret (snd r).

Definition writeRune (r : rune) : St (Bufio.Writer W) error :=
  r <- Bufio.WriteRune r ;; ret (snd r).

(** The [switch string(f)] of the byte loop; the result is [err]. *)
Definition writeFieldByte (cw : Writer) (f : byte)
  : St (Bufio.Writer W) error :=
  let s := string_of_byte f in
  if bytes_eqb s (Delimiter cw) then
    if bytes_eqb (Quote cw) [] then
      writeString (Escape cw) ;; writeString (Delimiter cw)
    else
      writeString (Delimiter cw)
  else if bytes_eqb s (Quote cw) then
    writeString (Escape cw) ;; writeString (Quote cw)
  else if bytes_eqb s (Escape cw) then
    writeString (Escape cw) ;; writeString (Escape cw)
  else if bytes_eqb s [0%Z] then
    writeString (Escape cw) ;; writeRune digit_0
  else if bytes_eqb s [LF] then
    writeString (Escape cw) ;; Bufio.WriteByte f
  else
    Bufio.WriteByte f.

(** [for _, f := range field { switch ...; if err != nil { return } }]. *)
Fixpoint writeFieldBytes (cw : Writer) (field : list byte)
  : St (Bufio.Writer W) flow :=
  match field with
  | [] => ret Next
  | f :: rest =>
    err <- writeFieldByte cw f ;;
    match err with
    | Some x => ret (Return x)
    | None => writeFieldBytes cw rest
    end
  end.

(** The quote symbol is written unless [w.Quote] is the empty string. *)
Definition writeQuote (cw : Writer) : St (Bufio.Writer W) error :=
  if bytes_eqb (Quote cw) [] then ret None else writeString (Quote cw).

(** The body of [for n, field := range record]. *)
Definition writeField (cw : Writer) (n : nat) (field : RawBytes)
  : St (Bufio.Writer W) flow :=
  e <- (if 0 <? n then writeString (Delimiter cw) else ret None) ;;
  match e with
  | Some x => ret (Return x)
  | None =>
    match field with
    | None =>
      writeString (Escape cw) ;; writeString [letter_N] ;; ret Next
    | Some bytes =>
      e <- writeQuote cw ;;
      match e with
      | Some x => ret (Return x)
      | None =>
        fl <- writeFieldBytes cw bytes ;;
        match fl with
        | Return x => ret (Return x)
        | Next =>
          e <- writeQuote cw ;;
          match e with
          | Some x => ret (Return x)
          | None => ret Next
          end
        end
      end
    end
  end.

Fixpoint writeFields (cw : Writer) (n : nat) (record : list RawBytes)
  : St (Bufio.Writer W) flow :=
  match record with
  | [] => ret Next
  | field :: rest =>
    fl <- writeField cw n field ;;
    match fl with
    | Return x => ret (Return x)
    | Next => writeFields cw (S n) rest
    end
  end.

(** [Write] on the buffered writer the [Writer] points to. *)
Definition Write_on (cw : Writer) (record : list RawBytes)
  : St (Bufio.Writer W) (nat * error) :=
  fl <- writeFields cw 0 record ;;
  match fl with
  | Return x => ret (0, Some x)
  | Next =>
    err <- writeString (Terminator cw) ;;
    buf <- (fun b => (Bufio.Buffered b, b)) ;;
    ret (buf, err)
  end.

Definition Write (cw : Writer) (record : list RawBytes)
  : (nat * error) * Writer :=
  let '(r, b) := Write_on cw record (w cw) in (r, with_w cw b).

Definition Flush (cw : Writer) : Writer :=
  with_w cw (snd (Bufio.Flush (w cw))).

Definition Error (cw : Writer) : error * Writer :=
  let '(r, b) := Bufio.Write_nil (w cw) in (snd r, with_w cw b).

Fixpoint WriteAll (cw : Writer) (records : list (list RawBytes))
  : error * Writer :=
  match records with
  | [] => let '(e, b) := Bufio.Flush (w cw) in (e, with_w cw b)
  | record :: rest =>
    let '((_, err), cw') := Write cw record in
    match err with
    | Some x => (Some x, cw')
    | None => WriteAll cw' rest
    end
  end.

End Sink.
Arguments Writer W : clear implicits.
End Csv.

(** ** csv_writer.go, older revision (rune symbols) *)

Module CsvRune.
Section Sink.

Context {W : Type} {IOW : IoWriter W}.
Local Open Scope st_scope.

(** [NullRawBytes] of the matching revision of mycsv.go. *)
Record NullRawBytes : Type := mkNullRawBytes {
  RawBytes : list byte;
  Valid : bool
}.

Record Writer : Type := mkWriter {
  Delimiter : rune;
  Quote : rune;
  Escape : rune;
  Terminator : gostring;
  w : Bufio.Writer W
}.

Definition with_w (cw : Writer) (b : Bufio.Writer W) : Writer :=
  {| Delimiter := Delimiter cw; Quote := Quote cw; Escape := Escape cw;
     Terminator := Terminator cw; w := b |}.

Definition NewWriter (dest : W) : Writer :=
  {| Delimiter := comma; Quote := dquote; Escape := backslash;
     Terminator := [LF]; w := Bufio.NewWriter dest |}.

Definition writeString (s : gostring) : St (Bufio.Writer W) error :=
  r <- Bufio.WriteString s ;; ret (snd r).

Definition writeRune (r : rune) : St (Bufio.Writer W) error :=
  r <- Bufio.WriteRune r ;; ret (snd r).

(** The [switch rune(byte)] of the byte loop. *)
Definition writeFieldByte (cw : Writer) (f : byte)
  : St (Bufio.Writer W) error :=
  if (f =? Delimiter cw)%Z then
    if (Quote cw <? 0)%Z then
      writeRune (Escape cw) ;; writeRune (Delimiter cw)
    else
      writeRune (Delimiter cw)
  else if (f =? Quote cw)%Z then
    writeRune (Escape cw) ;; writeRune (Quote cw)
  else if (f =? Escape cw)%Z then
    writeRune (Escape cw) ;; writeRune (Escape cw)
  else if (f =? 0)%Z then
    writeRune (Escape cw) ;; writeRune digit_0
  else
    Bufio.WriteByte f.

Fixpoint writeFieldBytes (cw : Writer) (field : list byte)
  : St (Bufio.Writer W) flow :=
  match field with
  | [] => ret Next
  | f :: rest =>
    err <- writeFieldByte cw f ;;
    match err with
    | Some x => ret (Return x)
    | None => writeFieldBytes cw rest
    end
  end.

(** [if w.Quote > 0 { _, err = w.w.WriteRune(w.Quote) }]. *)
Definition writeQuote (cw : Writer) : St (Bufio.Writer W) error :=
  if (0 <? Quote cw)%Z then writeRune (Quote cw) else ret None.

Definition writeField (cw : Writer) (n : nat) (field : NullRawBytes)
  : St (Bufio.Writer W) flow :=
  e <- (if 0 <? n then writeRune (Delimiter cw) else ret None) ;;
  match e with
  | Some x => ret (Return x)
  | None =>
    if negb (Valid field) then
      writeString [backslash; letter_N] ;; ret Next
    else
      e <- writeQuote cw ;;
      match e with
      | Some x => ret (Return x)
      | None =>
        fl <- writeFieldBytes cw (RawBytes field) ;;
        match fl with
        | Return x => ret (Return x)
        | Next =>
          e <- writeQuote cw ;;
          match e with
          | Some x => ret (Return x)
          | None => ret Next
          end
        end
      end
  end.

Fixpoint writeFields (cw : Writer) (n : nat) (record : list NullRawBytes)
  : St (Bufio.Writer W) flow :=
  match record with
  | [] => ret Next
  | field :: rest =>
    fl <- writeField cw n field ;;
    match fl with
    | Return x => ret (Return x)
    | Next => writeFields cw (S n) rest
    end
  end.

Definition Write_on (cw : Writer) (record : list NullRawBytes)
  : St (Bufio.Writer W) (nat * error) :=
  fl <- writeFields cw 0 record ;;
  match fl with
  | Return x => ret (0, Some x)
  | Next =>
    err <- writeString (Terminator cw) ;;
    buf <- (fun b => (Bufio.Buffered b, b)) ;;
    ret (buf, err)
  end.

Definition Write (cw : Writer) (record : list NullRawBytes)
  : (nat * error) * Writer :=
  let '(r, b) := Write_on cw record (w cw) in (r, with_w cw b).

Definition Flush (cw : Writer) : Writer :=
  with_w cw (snd (Bufio.Flush (w cw))).

End Sink.
Arguments Writer W : clear implicits.
End CsvRune.

(** ** mycsv.go: configuring the writer *)

Module Main.

(** What a stretch of [main] ends in: [os.Exit(status)] after printing
    [message] on standard error, or it goes on with a value. *)
Inductive outcome (A : Type) : Type :=
| Exit (status : Z) (message : String.string)
| Continue (a : A).
Arguments Exit {A} status message.
Arguments Continue {A} a.

(** Amount of CSV write data to buffer between flushes (25MB). *)
Definition flushBufferSize : Z := 26214400%Z.

Section Sink.

Context {W : Type} {IOW : IoWriter W}.

(** Current revision: the writer is created and set up in [main].  The flag values
    are stored as they are; only the two-character texts backslash-t,
    backslash-n and backslash-r-backslash-n are translated. *)
Definition configureWriter
           (csvDelimiter csvQuote csvEscape csvTerminator : gostring)
           (writerDest : W) : outcome (Csv.Writer W) :=
  let CSVWriter := Csv.NewWriter writerDest in
  Continue
    {| Csv.Delimiter :=
         if bytes_eqb csvDelimiter [backslash; letter_t] then [TAB]
         else csvDelimiter;
       Csv.Quote := csvQuote;
       Csv.Escape := csvEscape;
       Csv.Terminator :=
         if bytes_eqb csvTerminator
                      [backslash; letter_r; backslash; letter_n]
         then [CR; LF]
         else if bytes_eqb csvTerminator [backslash; letter_n] then [LF]
         else csvTerminator;
       Csv.w := Csv.w CSVWriter |}.

(** Older revision: each symbol is the last rune of its flag value, and
    the program exits when [utf8.DecodeLastRuneInString] reports width 0. *)
Definition configureWriterRune
           (csvDelimiter csvQuote csvEscape csvTerminator : gostring)
           (writerDest : W) : outcome (CsvRune.Writer W) :=
  let CSVWriter := CsvRune.NewWriter writerDest in
  let '(delimiter, i) := Utf8.DecodeLastRuneInString csvDelimiter in
  if (i =? 0)%Z then
    Exit 1 "You must supply a valid delimiter character"
  else
    let '(quote, i) := Utf8.DecodeLastRuneInString csvQuote in
    if (i =? 0)%Z then
      Exit 1 "You must supply a valid quote character"
    else
      let '(escape, i) := Utf8.DecodeLastRuneInString csvEscape in
      if (i =? 0)%Z then
        Exit 1 "You must supply a valid escape character"
      else
        Continue
          {| CsvRune.Delimiter := delimiter;
             CsvRune.Quote := quote;
             CsvRune.Escape := escape;
             CsvRune.Terminator := csvTerminator;
             CsvRune.w := CsvRune.w CSVWriter |}.

(** The body of the loop of [writeCSV], from [w.Write(data)] to just
    before [goChan <- true].  [checkErr] panics on an error: [inl]. *)
Definition writeCSV_body (cw : Csv.Writer W) (data : list Csv.RawBytes)
  : String.string + Csv.Writer W :=
  let '((size, err), cw1) := Csv.Write cw data in
  match err with
  | Some x => inl x
  | None =>
    if (flushBufferSize <? Z.of_nat size)%Z then
      let cw2 := Csv.Flush cw1 in
      let '(err, cw3) := Csv.Error cw2 in
      match err with
      | Some x => inl x
      | None => inr cw3
      end
    else inr cw1
  end.

(** The end of [writeCSV]: [w.Flush(); err := w.Error(); checkErr(err)]. *)
Definition writeCSV_final (cw : Csv.Writer W)
  : String.string + Csv.Writer W :=
  let cw1 := Csv.Flush cw in
  let '(err, cw2) := Csv.Error cw1 in
  match err with
  | Some x => inl x
  | None => inr cw2
  end.

End Sink.
End Main.

(** ** mycsv.go: readRows and writeCSV as two goroutines

    [readRows] runs in its own goroutine, [writeCSV] in the main one; they
    meet on the unbuffered channels [dataChan], [goChan] and [quitChan].  A
    send on an unbuffered channel completes together with the matching
    receive, so each rendezvous is one joint step.  Every other step belongs
    to one goroutine, and a schedule chooses who moves next.  The schedule
    also says when the cursor fails: [readRows] then panics in [checkErr],
    as [writeCSV] does on a write error, and an unrecovered panic ends the
    program, so nothing moves after it. *)

Module Pipeline.
Section Sink.

Context {W : Type} {IOW : IoWriter W}.

(** The slice a value sent on [dataChan] refers to: [headers], or [vals],
    the storage every [rows.Next()]/[rows.Scan] overwrites. *)
Inductive ref : Type := RefHeaders | RefVals.

(** Where [readRows] stands. *)
Inductive producer_pc : Type :=
| PSend (r : ref)   (* dataChan <- headers, dataChan <- vals *)
| PWait             (* <-goChan *)
| PNext             (* for rows.Next() { rows.Scan(scanVals...) *)
| PClose            (* close(dataChan) *)
| PQuit             (* quitChan <- true *)
| PDone
| PPanic (msg : String.string).  (* checkErr(err) after rows.Scan, rows.Err() *)

(** Where [writeCSV], and after it [main], stands. *)
Inductive consumer_pc : Type :=
| CRecv                       (* for data := range dataChan *)
| CWrite (data : ref)         (* w.Write(data) ... checkErr(err) *)
| CAdvance                    (* goChan <- true *)
| CFinal                      (* w.Flush(); w.Error() after the loop *)
| CWaitQuit                   (* main: <-quitChan *)
| CDone
| CPanic (msg : String.string).

Record state : Type := mkState {
  ppc : producer_pc;
  cpc : consumer_pc;
  headers : list Csv.RawBytes;
  vals : list Csv.RawBytes;
  todo : list (list Csv.RawBytes);   (* rows the cursor has yet to deliver *)
  closed : bool;                     (* dataChan is closed *)
  cw : Csv.Writer W;
  rowsWritten : nat
}.

Definition deref (r : ref) (s : state) : list Csv.RawBytes :=
  match r with
  | RefHeaders => headers s
  | RefVals => vals s
  end.

Definition set_pcs (p : producer_pc) (c : consumer_pc) (s : state) : state :=
  mkState p c (headers s) (vals s) (todo s) (closed s) (cw s) (rowsWritten s).

(** The state after [db.Query], [rows.Columns()] and the allocation of
    [headers] and [vals], with [writeCSV] about to receive. *)
Definition init (cols : list gostring) (rows : list (list Csv.RawBytes))
           (csvHeader : bool) (w : Csv.Writer W) : state :=
  {| ppc := if csvHeader then PSend RefHeaders else PNext;
     cpc := CRecv;
     headers := map Some cols;
     vals := repeat None (length cols);
     todo := rows;
     closed := false;
     cw := w;
     rowsWritten := 0 |}.

Inductive action : Type :=
| ActProducer   (* readRows takes a step of its own *)
| ActConsumer   (* writeCSV takes a step of its own *)
| ActData       (* rendezvous on dataChan *)
| ActGo         (* rendezvous on goChan *)
| ActQuit       (* rendezvous on quitChan *)
| ActFetchError (msg : String.string).
                (* the cursor fails: rows.Scan returns an error, or
                   rows.Next() returns false and rows.Err() an error *)

Inductive event : Type :=
| EvFetch                              (* rows.Next() and rows.Scan *)
| EvEOF                                (* rows.Next() returned false *)
| EvClose
| EvSend                               (* a row handed over on dataChan *)
| EvWrite (data : list Csv.RawBytes)   (* what w.Write read from the slice *)
| EvAdvance                            (* the signal on goChan *)
| EvRangeEnd
| EvFinal
| EvQuit
| EvPanic (msg : String.string)
| EvFetchError (msg : String.string).  (* readRows panics in checkErr *)

Definition step (a : action) (s : state) : option (event * state) :=
  match a, ppc s, cpc s with
  | _, PPanic _, _ => None
  | _, _, CPanic _ => None
  | ActFetchError msg, PNext, _ =>
    Some (EvFetchError msg, set_pcs (PPanic msg) (cpc s) s)
  | ActProducer, PNext, _ =>
    match todo s with
    | row :: rest =>
      Some (EvFetch,
            mkState (PSend RefVals) (cpc s) (headers s) row rest
                    (closed s) (cw s) (rowsWritten s))
    | [] => Some (EvEOF, set_pcs PClose (cpc s) s)
    end
  | ActProducer, PClose, _ =>
    Some (EvClose,
          mkState PQuit (cpc s) (headers s) (vals s) (todo s)
                  true (cw s) (rowsWritten s))
  | ActData, PSend r, CRecv =>
    if closed s then None
    else Some (EvSend, set_pcs PWait (CWrite r) s)
  | ActConsumer, _, CWrite r =>
    let data := deref r s in
    match Main.writeCSV_body (cw s) data with
    | inl msg => Some (EvPanic msg, set_pcs (ppc s) (CPanic msg) s)
    | inr cw' =>
      Some (EvWrite data,
            mkState (ppc s) CAdvance (headers s) (vals s) (todo s)
                    (closed s) cw' (S (rowsWritten s)))
    end
  | ActGo, PWait, CAdvance => Some (EvAdvance, set_pcs PNext CRecv s)
  | ActConsumer, _, CRecv =>
    if closed s then Some (EvRangeEnd, set_pcs (ppc s) CFinal s) else None
  | ActConsumer, _, CFinal =>
    match Main.writeCSV_final (cw s) with
    | inl msg => Some (EvPanic msg, set_pcs (ppc s) (CPanic msg) s)
    | inr cw' =>
      Some (EvFinal,
            mkState (ppc s) CWaitQuit (headers s) (vals s) (todo s)
                    (closed s) cw' (rowsWritten s))
    end
  | ActQuit, PQuit, CWaitQuit => Some (EvQuit, set_pcs PDone CDone s)
  | _, _, _ => None
  end.

(** Runs a schedule, appending the events to the trace so far. *)
Fixpoint exec (sched : list action) (tr : list event) (s : state)
  : option (list event * state) :=
  match sched with
  | [] => Some (tr, s)
  | a :: rest =>
    match step a s with
    | None => None
    | Some (e, s') => exec rest (tr ++ [e]) s'
    end
  end.

Definition is_fetch (e : event) : bool :=
  match e with EvFetch => true | _ => false end.
Definition is_send (e : event) : bool :=
  match e with EvSend => true | _ => false end.
Definition is_advance (e : event) : bool :=
  match e with EvAdvance => true | _ => false end.

Definition fetches (tr : list event) : nat := length (filter is_fetch tr).
Definition sends (tr : list event) : nat := length (filter is_send tr).
Definition advances (tr : list event) : nat := length (filter is_advance tr).

(** The records [w.Write] was given, in order. *)
Definition writes (tr : list event) : list (list Csv.RawBytes) :=
  flat_map (fun e => match e with EvWrite d => [d] | _ => [] end) tr.

(** The rows the export consists of: the header line, if asked for, and
    the rows of the result set. *)
Definition stream_rows (cols : list gostring)
           (rows : list (list Csv.RawBytes)) (csvHeader : bool)
  : list (list Csv.RawBytes) :=
  (if csvHeader then [map Some cols] else []) ++ rows.

End Sink.
End Pipeline.

(** ** What [Write] hands to the buffered writer

    The bytes each piece of [Csv.Write] passes to [bufio.Writer], one
    definition per piece with the same case analysis.  Lemma
    [Write_emits] shows that on a sink that takes every write these are
    the bytes that reach the sink. *)

Module Emitted.
Section Config.

Context {W : Type}.
Variable cw : Csv.Writer W.

Definition ofByte (f : byte) : list byte :=
  let s := string_of_byte f in
  if bytes_eqb s (Csv.Delimiter cw) then
    if bytes_eqb (Csv.Quote cw) [] then Csv.Escape cw ++ Csv.Delimiter cw
    else Csv.Delimiter cw
  else if bytes_eqb s (Csv.Quote cw) then Csv.Escape cw ++ Csv.Quote cw
  else if bytes_eqb s (Csv.Escape cw) then Csv.Escape cw ++ Csv.Escape cw
  else if bytes_eqb s [0%Z] then Csv.Escape cw ++ [digit_0]
  else if bytes_eqb s [LF] then Csv.Escape cw ++ [f]
  else [f].

Definition ofBytes (field : list byte) : list byte :=
  flat_map ofByte field.

Definition ofField (field : Csv.RawBytes) : list byte :=
  match field with
  | None => Csv.Escape cw ++ [letter_N]
  | Some bytes => Csv.Quote cw ++ ofBytes bytes ++ Csv.Quote cw
  end.

(** The separator written in front of the field at index [n]. *)
Definition separator (n : nat) : list byte :=
  if 0 <? n then Csv.Delimiter cw else [].

Fixpoint ofFields (n : nat) (record : list Csv.RawBytes) : list byte :=
  match record with
  | [] => []
  | field :: rest => separator n ++ ofField field ++ ofFields (S n) rest
  end.

Definition ofRecord (record : list Csv.RawBytes) : list byte :=
  ofFields 0 record ++ Csv.Terminator cw.

End Config.
End Emitted.

(** ** Observing a [bufio.Writer] over a [bytes.Buffer] *)

(** Everything written so far: what reached the buffer, then what is
    still pending. *)
Definition written (b : Bufio.Writer BytesBuffer) : list byte :=
  Bufio.wr b ++ Bufio.buf b.

(** A buffered writer as [bufio.NewWriter] makes and the operations keep
    it, with no error recorded. *)
Definition sound {W : Type} (b : Bufio.Writer W) : Prop :=
  Bufio.err b = None /\ 0 < Bufio.size b /\
  length (Bufio.buf b) <= Bufio.size b.

(** [c] run on a sound writer over a [bytes.Buffer] returns [a], adds
    exactly [out] to what was written and leaves the writer sound. *)
Definition emits {A : Type} (c : St (Bufio.Writer BytesBuffer) A)
           (a : A) (out : list byte) : Prop :=
  forall b, sound b ->
    exists b', c b = (a, b') /\ sound b' /\
               written b' = written b ++ out /\
               Bufio.size b' = Bufio.size b.

(** [c] run on a writer of any sink with no error recorded and room for
    [out] returns [a] and appends [out] to the pending bytes; the sink is
    not touched. *)
Definition appends {W A : Type} (c : St (Bufio.Writer W) A)
           (a : A) (out : list byte) : Prop :=
  forall b, Bufio.err b = None ->
    length (Bufio.buf b) + length out <= Bufio.size b ->
    c b = (a, Bufio.mkWriter None (Bufio.buf b ++ out)
                             (Bufio.size b) (Bufio.wr b)).

(** [c] leaves a writer with a recorded error as it is. *)
Definition frozen {W A : Type} (c : St (Bufio.Writer W) A) : Prop :=
  forall b x, Bufio.err b = Some x -> snd (c b) = b.

(** The error [c] returns is the error recorded in the writer. *)
Definition reports {W : Type} (c : St (Bufio.Writer W) error) : Prop :=
  forall b, fst (c b) = Bufio.err (snd (c b)).

(** An error [c] returns is recorded in the writer. *)
Definition signals {W : Type} (c : St (Bufio.Writer W) error) : Prop :=
  forall b x, fst (c b) = Some x -> Bufio.err (snd (c b)) = Some x.

(** When [c] makes the function return, the error it returns with is
    recorded in the writer. *)
Definition returns_recorded {W : Type} (c : St (Bufio.Writer W) flow) : Prop :=
  forall b x, fst (c b) = Return x -> Bufio.err (snd (c b)) = Some x.

(** ** The line the specification describes for plain fields *)

(** Follows the specification's words: the parts joined by [sep]. *)
Fixpoint spec_join (sep : list byte) (parts : list (list byte)) : list byte :=
  match parts with
  | [] => []
  | [p] => p
  | p :: rest => p ++ sep ++ spec_join sep rest
  end.

(** Follows the specification's words: quote + field + quote for each
    field, joined by the delimiter, ending in the terminator. *)
Definition spec_plain_line (delimiter quote terminator : list byte)
           (fields : list (list byte)) : list byte :=
  spec_join delimiter (map (fun f => quote ++ f ++ quote) fields)
  ++ terminator.

(** Follows the specification's words: inside a field the quote and the
    escape byte are emitted again after the escape symbol, and NUL is
    emitted as ASCII 0. *)
Definition spec_replacement (quote escape b : byte) : list byte :=
  if (b =? quote)%Z || (b =? escape)%Z then [b] else [digit_0].

(** A byte that is none of the delimiter, the quote, the escape, NUL and
    line feed. *)
Definition plain_byte (delimiter quote escape f : byte) : Prop :=
  f <> delimiter /\ f <> quote /\ f <> escape /\ f <> 0%Z /\ f <> LF.

(** A byte [f] of a field that the byte loop writes as it is in the
    configuration of [cw]: [string(f)] is none of the delimiter, the quote
    and the escape symbol, nor NUL or line feed. *)
Definition plain_in {W : Type} (cw : Csv.Writer W) (f : byte) : Prop :=
  string_of_byte f <> Csv.Delimiter cw /\
  string_of_byte f <> Csv.Quote cw /\
  string_of_byte f <> Csv.Escape cw /\
  string_of_byte f <> [0%Z] /\
  string_of_byte f <> [LF].

(** ** The test harness *)

(** [NewWriter(&bytes.Buffer{})] with the four symbols set. *)
Definition fresh (delimiter quote escape terminator : gostring)
  : Csv.Writer BytesBuffer :=
  Csv.mkWriter delimiter quote escape terminator (Bufio.NewWriter []).

(** [f.Write(record); f.Flush()], then the error [Write] returned and the
    contents of the buffer. *)
Definition write_flush (cw : Csv.Writer BytesBuffer)
           (record : list Csv.RawBytes) : error * list byte :=
  let '((_, err), cw') := Csv.Write cw record in
  (err, Bufio.wr (Csv.w (Csv.Flush cw'))).

(** [Write] on [cw] returns the number of pending bytes and no error, and
    adds exactly [out] to what was written. *)
Definition Write_adds (cw : Csv.Writer BytesBuffer)
           (record : list Csv.RawBytes) (out : list byte) : Prop :=
  exists b',
    Csv.Write cw record = ((Bufio.Buffered b', None), Csv.with_w cw b') /\
    sound b' /\
    written b' = written (Csv.w cw) ++ out.

(** The same for the older revision of the writer. *)
Definition write_flush_rune (cw : CsvRune.Writer BytesBuffer)
           (record : list CsvRune.NullRawBytes) : error * list byte :=
  let '((_, err), cw') := CsvRune.Write cw record in
  (err, Bufio.wr (CsvRune.w (CsvRune.Flush cw'))).

(** ** The schedule that lets a row through at a time *)

(** Hand the row over, write it, acknowledge it. *)
Definition row_round : list Pipeline.action :=
  [Pipeline.ActData; Pipeline.ActConsumer; Pipeline.ActGo].

(** Fetch a row and let it through, [n] times. *)
Fixpoint data_rounds (n : nat) : list Pipeline.action :=
  match n with
  | O => []
  | S k => Pipeline.ActProducer :: row_round ++ data_rounds k
  end.

(** The end of the result set, [close(dataChan)], the end of the loop over
    the channel, the final flush, and the rendezvous on [quitChan]. *)
Definition closing_round : list Pipeline.action :=
  [Pipeline.ActProducer; Pipeline.ActProducer; Pipeline.ActConsumer;
   Pipeline.ActConsumer; Pipeline.ActQuit].

Definition full_schedule (csvHeader : bool) (nrows : nat)
  : list Pipeline.action :=
  (if csvHeader then row_round else []) ++ data_rounds nrows ++ closing_round.

(** The events of the data rows under that schedule. *)
Definition data_events (rows : list (list Csv.RawBytes))
  : list Pipeline.event :=
  flat_map (fun row => [Pipeline.EvFetch; Pipeline.EvSend;
                        Pipeline.EvWrite row; Pipeline.EvAdvance]) rows.

(** ** What every reachable state of the pipeline satisfies *)

Section PipelineInvariant.

Context {W : Type} {IOW : IoWriter W}.
Variables (cols : list gostring) (rows : list (list Csv.RawBytes))
          (csvHeader : bool).

Definition header_count : nat := if csvHeader then 1 else 0.

(** How the counts of events so far relate, given where the two
    goroutines stand.  Pairs of places that never occur together are
    [False]. *)
Definition pc_inv (tr : list Pipeline.event) (s : Pipeline.state (W:=W))
  : Prop :=
  let nF := Pipeline.fetches tr in
  let nS := Pipeline.sends tr in
  let nA := Pipeline.advances tr in
  let nW := length (Pipeline.writes tr) in
  let stream := Pipeline.stream_rows cols rows csvHeader in
  match Pipeline.ppc s, Pipeline.cpc s with
  | Pipeline.PSend r, Pipeline.CRecv =>
    nA = nS /\ nW = nS /\ header_count + nF = S nS /\
    nth_error stream nS = Some (Pipeline.deref r s) /\
    Pipeline.closed s = false
  | Pipeline.PWait, Pipeline.CWrite r =>
    nS = S nA /\ nW = nA /\ header_count + nF = nS /\
    nth_error stream nA = Some (Pipeline.deref r s) /\
    Pipeline.closed s = false
  | Pipeline.PWait, Pipeline.CAdvance =>
    nS = S nA /\ nW = nS /\ header_count + nF = nS /\
    Pipeline.closed s = false
  | Pipeline.PNext, Pipeline.CRecv =>
    nA = nS /\ nW = nS /\ header_count + nF = nS /\
    Pipeline.closed s = false
  | Pipeline.PClose, Pipeline.CRecv =>
    nA = nS /\ nW = nS /\ header_count + nF = nS /\
    nF = length rows /\ Pipeline.closed s = false
  | Pipeline.PQuit, Pipeline.CRecv
  | Pipeline.PQuit, Pipeline.CFinal
  | Pipeline.PQuit, Pipeline.CWaitQuit
  | Pipeline.PDone, Pipeline.CDone =>
    nA = nS /\ nW = nS /\ nS = length stream /\
    Pipeline.closed s = true
  | Pipeline.PWait, Pipeline.CPanic _ => nS = S nA
  | Pipeline.PQuit, Pipeline.CPanic _ => nA = nS
  | Pipeline.PPanic _, Pipeline.CRecv =>
    nA = nS /\ nW = nS /\ header_count + nF = nS /\
    Pipeline.closed s = false
  | _, _ => False
  end.

Definition inv (tr : list Pipeline.event) (s : Pipeline.state (W:=W))
  : Prop :=
  Pipeline.headers s = map Some cols /\
  Pipeline.todo s = skipn (Pipeline.fetches tr) rows /\
  Pipeline.fetches tr <= length rows /\
  Pipeline.writes tr =
  firstn (length (Pipeline.writes tr))
         (Pipeline.stream_rows cols rows csvHeader) /\
  pc_inv tr s.

End PipelineInvariant.

(** ** csv_writer_test.go *)

(** A field between double quotes, as the expected outputs spell it. *)
Definition quoted (s : list byte) : list byte := [dquote] ++ s ++ [dquote].

(** [writeTests]: the inputs and the outputs expected of [WriteAll] on a
    default writer. *)
Definition writeTests : list (list (list Csv.RawBytes) * list byte) :=
  [ ([[Some (bytes_of "abc")]], quoted (bytes_of "abc") ++ [LF]);
    ([[Some (quoted (bytes_of "abc"))]],
     quoted ([backslash; dquote] ++ bytes_of "abc" ++ [backslash; dquote])
     ++ [LF]);
    ([[Some (bytes_of "a" ++ [dquote] ++ bytes_of "b")]],
     quoted (bytes_of "a" ++ [backslash; dquote] ++ bytes_of "b") ++ [LF]);
    ([[Some (quoted (bytes_of "a" ++ [dquote] ++ bytes_of "b"))]],
     quoted ([backslash; dquote] ++ bytes_of "a" ++ [backslash; dquote]
             ++ bytes_of "b" ++ [backslash; dquote]) ++ [LF]);
    ([[Some (bytes_of " abc")]], quoted (bytes_of " abc") ++ [LF]);
    ([[Some (bytes_of "abc,def")]], quoted (bytes_of "abc,def") ++ [LF]);
    ([[Some (bytes_of "abc"); Some (bytes_of "def")]],
     quoted (bytes_of "abc") ++ [comma] ++ quoted (bytes_of "def") ++ [LF]);
    ([[Some (bytes_of "abc")]; [Some (bytes_of "def")]],
     quoted (bytes_of "abc") ++ [LF] ++ quoted (bytes_of "def") ++ [LF]);
    ([[Some (bytes_of "abc" ++ [LF] ++ bytes_of "def")]],
     quoted (bytes_of "abc" ++ [backslash; LF] ++ bytes_of "def") ++ [LF]);
    ([[Some (bytes_of "abc" ++ [CR] ++ bytes_of "def")]],
     quoted (bytes_of "abc" ++ [CR] ++ bytes_of "def") ++ [LF]);
    ([[Some []]], quoted [] ++ [LF]);
    ([[Some []; Some []]], quoted [] ++ [comma] ++ quoted [] ++ [LF]);
    ([[Some []; Some []; Some []]],
     quoted [] ++ [comma] ++ quoted [] ++ [comma] ++ quoted [] ++ [LF]);
    ([[Some []; Some []; Some (bytes_of "a")]],
     quoted [] ++ [comma] ++ quoted [] ++ [comma] ++ quoted (bytes_of "a")
     ++ [LF]);
    ([[Some []; Some (bytes_of "a"); Some []]],
     quoted [] ++ [comma] ++ quoted (bytes_of "a") ++ [comma] ++ quoted []
     ++ [LF]);
    ([[Some []; Some (bytes_of "a"); Some (bytes_of "a")]],
     quoted [] ++ [comma] ++ quoted (bytes_of "a") ++ [comma]
     ++ quoted (bytes_of "a") ++ [LF]);
    ([[Some (bytes_of "a"); Some []; Some []]],
     quoted (bytes_of "a") ++ [comma] ++ quoted [] ++ [comma] ++ quoted []
     ++ [LF]);
    ([[Some (bytes_of "a"); Some []; Some (bytes_of "a")]],
     quoted (bytes_of "a") ++ [comma] ++ quoted [] ++ [comma]
     ++ quoted (bytes_of "a") ++ [LF]);
    ([[Some (bytes_of "a"); Some (bytes_of "a"); Some []]],
     quoted (bytes_of "a") ++ [comma] ++ quoted (bytes_of "a") ++ [comma]
     ++ quoted [] ++ [LF]);
    ([[Some (bytes_of "a"); Some (bytes_of "a"); Some (bytes_of "a")]],
     quoted (bytes_of "a") ++ [comma] ++ quoted (bytes_of "a") ++ [comma]
     ++ quoted (bytes_of "a") ++ [LF]);
    ([[Some ([backslash] ++ bytes_of ".")]],
     quoted ([backslash; backslash] ++ bytes_of ".") ++ [LF]) ].

(** The body of the loop of [TestWrite]: no error and the expected output. *)
Definition TestWrite_case (tt : list (list Csv.RawBytes) * list byte) : bool :=
  let '(err, f) := Csv.WriteAll (Csv.NewWriter ([] : BytesBuffer)) (fst tt) in
  is_nil err && bytes_eqb (Bufio.wr (Csv.w f)) (snd tt).

(** [f.Write(abc); f.Flush(); err := f.Error()] of [TestError]. *)
Definition TestError_run {W : Type} {IOW : IoWriter W} (dest : W) : error :=
  let f := Csv.NewWriter dest in
  let '(_, f) := Csv.Write f [Some (bytes_of "abc")] in
  let f := Csv.Flush f in
  fst (Csv.Error f).

(** ** The bound on the pending bytes *)

(** The buffer has room for at least one byte and the pending bytes fit
    into it, as in every [bufio.Writer] that [bufio.NewWriter] made. *)
Definition bounded {W : Type} (b : Bufio.Writer W) : Prop :=
  0 < Bufio.size b /\ length (Bufio.buf b) <= Bufio.size b.

(** [c] keeps the pending bytes within the buffer and does not resize it. *)
Definition keeps_bound {W A : Type} (c : St (Bufio.Writer W) A) : Prop :=
  forall b, bounded b ->
    bounded (snd (c b)) /\ Bufio.size (snd (c b)) = Bufio.size b.

(** ** How far a run of the pipeline is from its end *)

(** The steps [readRows] still has to take part in from where it stands,
    not counting the rows the cursor has yet to deliver. *)
Definition producer_rank (p : Pipeline.producer_pc) : nat :=
  match p with
  | Pipeline.PSend _ => 6
  | Pipeline.PWait => 3
  | Pipeline.PNext => 3
  | Pipeline.PClose => 2
  | Pipeline.PQuit => 1
  | Pipeline.PDone => 0
  | Pipeline.PPanic _ => 0
  end.

Definition consumer_rank (c : Pipeline.consumer_pc) : nat :=
  match c with
  | Pipeline.CWrite _ => 4
  | Pipeline.CAdvance => 3
  | Pipeline.CRecv => 2
  | Pipeline.CFinal => 1
  | Pipeline.CWaitQuit => 0
  | Pipeline.CDone => 0
  | Pipeline.CPanic _ => 0
  end.

(** Four steps for every row still to fetch (fetch, hand over, write,
    acknowledge), and the ranks of the two goroutines. *)
Definition steps_left {W : Type} (s : Pipeline.state (W:=W)) : nat :=
  4 * length (Pipeline.todo s)
  + producer_rank (Pipeline.ppc s) + consumer_rank (Pipeline.cpc s).

(** ** The sink of a run over a [bytes.Buffer] *)

(** The writer of the state is the initial one but for the buffered
    writer, which is sound and has been given the lines of the records
    written so far; [writeCSV] has not panicked, and once it has returned
    nothing is pending. *)
Definition sink_inv (w0 : Csv.Writer BytesBuffer) (tr : list Pipeline.event)
           (s : Pipeline.state (W:=BytesBuffer)) : Prop :=
  sound (Csv.w (Pipeline.cw s)) /\
  Pipeline.cw s = Csv.with_w w0 (Csv.w (Pipeline.cw s)) /\
  written (Csv.w (Pipeline.cw s)) =
  written (Csv.w w0) ++ flat_map (Emitted.ofRecord w0) (Pipeline.writes tr) /\
  match Pipeline.cpc s with
  | Pipeline.CPanic _ => False
  | Pipeline.CWaitQuit | Pipeline.CDone =>
    Bufio.buf (Csv.w (Pipeline.cw s)) = []
  | _ => True
  end.

(** ** mycsv.go, older revision: scanning a column into a NullRawBytes *)

Module Driver.

(** [driver.Value]: nil or a value of one of the types a driver hands
    over.  A float64 is kept as its bits, a time.Time as its instant. *)
Inductive Value : Type :=
| Nil
| Int64 (i : Z)
| Float64 (bits : Z)
| Bool (b : bool)
| Bytes (v : list byte)
| String (s : gostring)
| Time (t : Z).

End Driver.

Module NullRawBytes.

(** [func (nb *NullRawBytes) Scan(value interface{}) error]: the error
    returned and the receiver afterwards.  [[]byte(string(0x0))] is the
    one byte 0; a value that is not a [[]byte] leaves [nb.RawBytes] as it
    was. *)
Definition Scan (nb : CsvRune.NullRawBytes) (value : Driver.Value)
  : error * CsvRune.NullRawBytes :=
  match value with
  | Driver.Nil => (None, CsvRune.mkNullRawBytes [0%Z] false)
  | Driver.Bytes v => (None, CsvRune.mkNullRawBytes v true)
  | _ => (None, CsvRune.mkNullRawBytes (CsvRune.RawBytes nb) true)
  end.

(** [func (nb NullRawBytes) Value() (driver.Value, error)]. *)
Definition Value (nb : CsvRune.NullRawBytes) : Driver.Value * error :=
  if negb (CsvRune.Valid nb) then (Driver.Nil, None)
  else (Driver.Bytes (CsvRune.RawBytes nb), None).

(** The column value a field of the current revision stands for: the nil
    slice is a NULL, any other slice the bytes of the column. *)
Definition column (field : Csv.RawBytes) : Driver.Value :=
  match field with
  | None => Driver.Nil
  | Some bytes => Driver.Bytes bytes
  end.

(** What [rows.Scan] leaves in a fresh [NullRawBytes] for that column. *)
Definition scanned (field : Csv.RawBytes) : CsvRune.NullRawBytes :=
  snd (Scan (CsvRune.mkNullRawBytes [] false) (column field)).

End NullRawBytes.

(** ** What the older revision of [Write] hands to the buffered writer *)

(** The bytes [WriteRune] writes for [r]. *)
Definition runeBytes (r : rune) : list byte :=
  if (r <? Utf8.RuneSelf)%Z then [Utf8.to_byte r] else Utf8.EncodeRune r.

Module EmittedRune.
Section Config.

Context {W : Type}.
Variable cw : CsvRune.Writer W.

Definition ofByte (f : byte) : list byte :=
  if (f =? CsvRune.Delimiter cw)%Z then
    if (CsvRune.Quote cw <? 0)%Z
    then runeBytes (CsvRune.Escape cw) ++ runeBytes (CsvRune.Delimiter cw)
    else runeBytes (CsvRune.Delimiter cw)
  else if (f =? CsvRune.Quote cw)%Z
  then runeBytes (CsvRune.Escape cw) ++ runeBytes (CsvRune.Quote cw)
  else if (f =? CsvRune.Escape cw)%Z
  then runeBytes (CsvRune.Escape cw) ++ runeBytes (CsvRune.Escape cw)
  else if (f =? 0)%Z
  then runeBytes (CsvRune.Escape cw) ++ runeBytes digit_0
  else [f].

Definition ofBytes (field : list byte) : list byte :=
  flat_map ofByte field.

Definition quote : list byte :=
  if (0 <? CsvRune.Quote cw)%Z then runeBytes (CsvRune.Quote cw) else [].

Definition ofField (field : CsvRune.NullRawBytes) : list byte :=
  if negb (CsvRune.Valid field) then [backslash; letter_N]
  else quote ++ ofBytes (CsvRune.RawBytes field) ++ quote.

Definition separator (n : nat) : list byte :=
  if 0 <? n then runeBytes (CsvRune.Delimiter cw) else [].

Fixpoint ofFields (n : nat) (record : list CsvRune.NullRawBytes)
  : list byte :=
  match record with
  | [] => []
  | field :: rest => separator n ++ ofField field ++ ofFields (S n) rest
  end.

Definition ofRecord (record : list CsvRune.NullRawBytes) : list byte :=
  ofFields 0 record ++ CsvRune.Terminator cw.

End Config.
End EmittedRune.

(** ** The two revisions of the writer side by side *)

(** A writer of the older revision with the symbols [d], [q] and [e] and
    the terminator and the buffered writer of [cw]. *)
Definition older_writer {W : Type} (cw : Csv.Writer W) (d q e : rune)
  : CsvRune.Writer W :=
  CsvRune.mkWriter d q e (Csv.Terminator cw) (Csv.w cw).

(** ** readPassword: reading a password from standard input

    Both variants read into [var buf [16]byte] until a read comes back
    short.  What the reads return is the environment's part: a run is
    given the results of the successive calls. *)

Module Stdin.

(** One [Read(buf[:])]: [n] bytes placed at the front of [buf] and a nil
    error, or an error. *)
Inductive read_result : Type :=
| ReadN (chunk : list byte)
| ReadErr (e : String.string).

(** How [readPassword] ends: it returns [ret, nil], it returns [nil, err],
    it panics, or it waits for a read that never returns. *)
Inductive outcome : Type :=
| Returned (ret : list byte)
| Failed (e : String.string)
| Panicked (msg : String.string)
| Blocked.

Definition EOF : String.string := "EOF"%string.

(** [len(buf)]. *)
Definition bufLen : nat := 16.

(** The reads by which a line waiting in the input is handed out to a
    caller that asks for [bufLen] bytes at a time. *)
Fixpoint line_reads_upto (rounds : nat) (line : list byte)
  : list read_result :=
  match rounds with
  | O => []
  | S k =>
    match line with
    | [] => []
    | _ :: _ =>
      ReadN (firstn bufLen line) :: line_reads_upto k (skipn bufLen line)
    end
  end.

Definition line_reads (line : list byte) : list read_result :=
  line_reads_upto (length line) line.

End Stdin.

(** password_unix.go: the [for] loop of [readPassword], entered after the
    two ioctl calls have succeeded, with [ret] as it stands. *)
Module PasswordUnix.

Fixpoint readPassword_loop (reads : list Stdin.read_result)
         (ret : list byte) : Stdin.outcome :=
  match reads with
  | [] => Stdin.Blocked
  | Stdin.ReadErr e :: _ => Stdin.Failed e
  | Stdin.ReadN chunk :: rest =>
    let n := length chunk in
    if n =? 0 then
      if length ret =? 0 then Stdin.Failed Stdin.EOF else Stdin.Returned ret
    else
      let n := if (nth (n - 1) chunk 0 =? LF)%Z then n - 1 else n in
      let ret := ret ++ firstn n chunk in
      if n <? Stdin.bufLen then Stdin.Returned ret
      else readPassword_loop rest ret
  end.

Definition readPassword (reads : list Stdin.read_result) : Stdin.outcome :=
  readPassword_loop reads [].

End PasswordUnix.

(** The Windows variant: a read error goes to [checkErr], which panics;
    after a line feed is dropped, [buf[n-1]] is read again for the
    carriage return, which is out of range when [n] has become 0. *)
Module PasswordWin.

Definition index_out_of_range : String.string :=
  "index out of range"%string.

Fixpoint readPassword_loop (reads : list Stdin.read_result)
         (ret : list byte) : Stdin.outcome :=
  match reads with
  | [] => Stdin.Blocked
  | Stdin.ReadErr e :: _ => Stdin.Panicked e
  | Stdin.ReadN chunk :: rest =>
    let n := length chunk in
    if n =? 0 then
      if length ret =? 0 then Stdin.Failed Stdin.EOF else Stdin.Returned ret
    else
      let n := if (nth (n - 1) chunk 0 =? LF)%Z then n - 1 else n in
      if n =? 0 then Stdin.Panicked index_out_of_range
      else
        let n := if (nth (n - 1) chunk 0 =? CR)%Z then n - 1 else n in
        let ret := ret ++ firstn n chunk in
        if n <? Stdin.bufLen then Stdin.Returned ret
        else readPassword_loop rest ret
  end.

Definition readPassword (reads : list Stdin.read_result) : Stdin.outcome :=
  readPassword_loop reads [].

End PasswordWin.

(** * Facts *)

(** ** Go strings *)

Lemma bytes_eqb_eq (a b : gostring) : bytes_eqb a b = true <-> a = b.
Proof.
  revert b; induction a as [|x a IH]; intros [|y b]; simpl;
    try (split; [discriminate | discriminate]); try tauto.
  rewrite andb_true_iff, Z.eqb_eq, IH.
  split; [intros [-> ->]; reflexivity | intros H; inversion H; auto].
Qed.

Lemma bytes_eqb_refl (a : gostring) : bytes_eqb a a = true.
Proof. apply bytes_eqb_eq; reflexivity. Qed.

Lemma bytes_eqb_neq (a b : gostring) : a <> b -> bytes_eqb a b = false.
Proof.
  intros H; destruct (bytes_eqb a b) eqn:E; [|reflexivity].
  apply bytes_eqb_eq in E; contradiction.
Qed.

(** [string(f)] is the one-byte string [[c]] exactly when [f] is [c] and
    below [0x80]. *)
Lemma string_of_byte_single (f c : byte) :
  string_of_byte f = [c] <-> (f = c /\ (f < 128)%Z).
Proof.
  unfold string_of_byte, Utf8.RuneSelf.
  destruct (Z.ltb_spec f 128); split.
  - intros H'; inversion H'; subst; split; [reflexivity | lia].
  - intros [-> _]; reflexivity.
  - discriminate.
  - intros [_ ?]; lia.
Qed.

Lemma string_of_byte_not_nil (f : byte) : string_of_byte f <> [].
Proof. unfold string_of_byte; destruct (f <? Utf8.RuneSelf)%Z; discriminate. Qed.

(** ** bufio.Writer over any sink *)

Section BufioFacts.

Context {W : Type} {IOW : IoWriter W}.
Implicit Types b : Bufio.Writer W.

(** Once an error is recorded, [Flush] does nothing and returns it. *)
Lemma Flush_frozen b x :
  Bufio.err b = Some x -> Bufio.Flush b = (Some x, b).
Proof. intros H; unfold Bufio.Flush; rewrite H; reflexivity. Qed.

(** What [Flush] does on a writer with pending bytes and no error. *)
Lemma Flush_pending b wr' n e :
  Bufio.err b = None -> Bufio.buf b <> [] ->
  io_Write (Bufio.wr b) (Bufio.buf b) = (wr', (n, e)) ->
  Bufio.Flush b =
  match (if (n <? length (Bufio.buf b)) && is_nil e
         then Some ErrShortWrite else e) with
  | Some x =>
    (Some x, Bufio.mkWriter (Some x) (skipn n (Bufio.buf b))
                            (Bufio.size b) wr')
  | None => (None, Bufio.mkWriter None [] (Bufio.size b) wr')
  end.
Proof.
  intros He Hb Hw; unfold Bufio.Flush; rewrite He.
  destruct (Bufio.buf b) as [|z l] eqn:E; [contradiction|].
  rewrite Hw; reflexivity.
Qed.

(** The three ways [Flush] can go. *)
Lemma Flush_cases b :
  (exists x, Bufio.err b = Some x /\ Bufio.Flush b = (Some x, b)) \/
  (Bufio.err b = None /\ Bufio.buf b = [] /\ Bufio.Flush b = (None, b)) \/
  (Bufio.err b = None /\ Bufio.buf b <> [] /\
   exists wr' n e,
     io_Write (Bufio.wr b) (Bufio.buf b) = (wr', (n, e)) /\
     ((exists x,
         (e = Some x \/
          (e = None /\ n < length (Bufio.buf b) /\ x = ErrShortWrite)) /\
         Bufio.Flush b =
         (Some x, Bufio.mkWriter (Some x) (skipn n (Bufio.buf b))
                                 (Bufio.size b) wr')) \/
      (e = None /\ length (Bufio.buf b) <= n /\
       Bufio.Flush b =
       (None, Bufio.mkWriter None [] (Bufio.size b) wr')))).
Proof.
  destruct (Bufio.err b) as [x|] eqn:He.
  - left; exists x; split; [reflexivity | apply Flush_frozen; exact He].
  - right.
    destruct (Bufio.buf b) as [|z l] eqn:Hb.
    + left; repeat split.
      unfold Bufio.Flush; rewrite He, Hb; reflexivity.
    + right; split; [reflexivity|]; split; [discriminate|].
      destruct (io_Write (Bufio.wr b) (z :: l)) as [wr' [n e]] eqn:Hw.
      exists wr', n, e; split; [reflexivity|].
      assert (Hne : Bufio.buf b <> []) by (rewrite Hb; discriminate).
      rewrite <- Hb in Hw.
      rewrite (Flush_pending b He Hne Hw), Hb.
      destruct (n <? length (z :: l)) eqn:Hlt; cbn [andb].
      * apply Nat.ltb_lt in Hlt.
        destruct e as [x|]; cbn [is_nil].
        -- left; exists x; split; [left; reflexivity | reflexivity].
        -- left; exists ErrShortWrite; split; [right; auto | reflexivity].
      * apply Nat.ltb_ge in Hlt.
        destruct e as [x|].
        -- left; exists x; split; [left; reflexivity | reflexivity].
        -- right; auto.
Qed.

(** The error [Flush] returns is the one it leaves recorded. *)
Lemma Flush_error b :
  fst (Bufio.Flush b) = Bufio.err (snd (Bufio.Flush b)).
Proof.
  destruct (Flush_cases b)
    as [[x [He H]] | [[He [Hb H]] | [He [Hb [wr' [n [e [Hw
         [[x [_ H]] | [_ [_ H]]]]]]]]]]];
    rewrite H; simpl; auto.
Qed.

Lemma Flush_size b : Bufio.size (snd (Bufio.Flush b)) = Bufio.size b.
Proof.
  destruct (Flush_cases b)
    as [[x [He H]] | [[He [Hb H]] | [He [Hb [wr' [n [e [Hw
         [[x [_ H]] | [_ [_ H]]]]]]]]]]];
    rewrite H; simpl; auto.
Qed.

(** After [Flush] either an error is recorded or nothing is pending. *)
Lemma Flush_done b :
  Bufio.err (snd (Bufio.Flush b)) <> None \/
  Bufio.buf (snd (Bufio.Flush b)) = [].
Proof.
  destruct (Flush_cases b)
    as [[x [He H]] | [[He [Hb H]] | [He [Hb [wr' [n [e [Hw
         [[x [_ H]] | [_ [_ H]]]]]]]]]]];
    rewrite H; simpl; auto.
  - left; rewrite He; discriminate.
  - left; discriminate.
Qed.

(** [Flush] never makes the pending bytes longer. *)
Lemma Flush_buf_length b :
  length (Bufio.buf (snd (Bufio.Flush b))) <= length (Bufio.buf b).
Proof.
  destruct (Flush_cases b)
    as [[x [He H]] | [[He [Hb H]] | [He [Hb [wr' [n [e [Hw
         [[x [_ H]] | [_ [_ H]]]]]]]]]]];
    rewrite H; simpl; auto.
  - rewrite length_skipn; lia.
  - lia.
Qed.

Lemma Flush_twice b :
  Bufio.Flush (snd (Bufio.Flush b)) = Bufio.Flush b.
Proof.
  destruct (Bufio.Flush b) as [e b'] eqn:E; simpl.
  pose proof (Flush_error b) as He; rewrite E in He; simpl in He.
  pose proof (Flush_done b) as Hd; rewrite E in Hd; simpl in Hd.
  destruct (Bufio.err b') as [x|] eqn:Hx.
  - rewrite (Flush_frozen b' Hx); subst e; reflexivity.
  - destruct Hd as [Hd | Hd]; [congruence|].
    unfold Bufio.Flush; rewrite Hx, Hd; subst e; reflexivity.
Qed.

Lemma WriteString_frozen b x s :
  Bufio.err b = Some x -> Bufio.WriteString s b = ((0, Some x), b).
Proof.
  intros H; unfold Bufio.WriteString; simpl.
  rewrite H; simpl; rewrite andb_false_r; rewrite H; reflexivity.
Qed.

Lemma WriteString_error s b :
  snd (fst (Bufio.WriteString s b)) =
  Bufio.err (snd (Bufio.WriteString s b)).
Proof.
  unfold Bufio.WriteString.
  destruct (Bufio.WriteString_loop (S (length s)) s 0 b) as [[s' nn] b'].
  destruct (Bufio.err b') eqn:He; simpl; auto.
Qed.

Lemma WriteByte_frozen b x c :
  Bufio.err b = Some x -> Bufio.WriteByte c b = (Some x, b).
Proof. intros H; unfold Bufio.WriteByte; rewrite H; reflexivity. Qed.

Lemma WriteByte_error c b :
  fst (Bufio.WriteByte c b) = Bufio.err (snd (Bufio.WriteByte c b)).
Proof.
  unfold Bufio.WriteByte.
  destruct (Bufio.err b) eqn:He; simpl; [auto|].
  destruct (Bufio.Available b <=? 0); simpl; [|auto].
  pose proof (Flush_error b) as Hf.
  destruct (Bufio.Flush b) as [fe b1]; simpl in Hf.
  destruct fe; simpl; auto.
Qed.

Lemma WriteRune_frozen b x r :
  Bufio.err b = Some x -> Bufio.WriteRune r b = ((0, Some x), b).
Proof.
  intros H; unfold Bufio.WriteRune.
  rewrite (WriteByte_frozen _ _ H), H.
  destruct (r <? Utf8.RuneSelf)%Z; reflexivity.
Qed.

Lemma WriteRune_error r b :
  snd (fst (Bufio.WriteRune r b)) = Bufio.err (snd (Bufio.WriteRune r b)).
Proof.
  unfold Bufio.WriteRune.
  destruct (r <? Utf8.RuneSelf)%Z.
  - pose proof (WriteByte_error (Utf8.to_byte r) b) as Hb.
    destruct (Bufio.WriteByte (Utf8.to_byte r) b) as [e b'].
    simpl in Hb; destruct e; simpl; auto.
  - destruct (Bufio.err b) eqn:He; simpl; [auto|].
    destruct (Bufio.Available b <? Utf8.UTFMax); simpl; [|auto].
    destruct (Bufio.Flush b) as [fe b1].
    destruct (Bufio.err b1) eqn:H1; simpl; [auto|].
    destruct (Bufio.Available b1 <? Utf8.UTFMax); simpl; [|auto].
    apply WriteString_error.
Qed.

End BufioFacts.

Section WriteStringRounds.

Context {W : Type} {IOW : IoWriter W}.
Implicit Types b : Bufio.Writer W.

Lemma WriteString_loop_stops rounds s nn b :
  Bufio.err b <> None ->
  Bufio.WriteString_loop rounds s nn b = ((s, nn), b).
Proof.
  intros H; destruct rounds as [|k]; simpl; [reflexivity|].
  destruct (Bufio.err b); [|contradiction].
  simpl; rewrite andb_false_r; reflexivity.
Qed.

(** The rounds [WriteString] allows are enough: the loop is left because
    its condition fails, never because the rounds ran out. *)
Lemma WriteString_loop_exit rounds : forall s nn b,
  0 < Bufio.size b ->
  length s + (if Bufio.Available b =? 0 then 1 else 0) <= rounds ->
  let '((s', _), b') := Bufio.WriteString_loop rounds s nn b in
  length s' <= Bufio.Available b' \/ Bufio.err b' <> None.
Proof.
  induction rounds as [|k IH]; intros s nn b Hsz Hr.
  - simpl; left; lia.
  - cbn [Bufio.WriteString_loop].
    destruct (Bufio.Available b <? length s) eqn:Hlt; cbn [andb].
    2:{ apply Nat.ltb_ge in Hlt; left; exact Hlt. }
    apply Nat.ltb_lt in Hlt.
    destruct (Bufio.err b) as [x|] eqn:He; cbn [is_nil].
    { right; rewrite He; discriminate. }
    unfold Bufio.copy_in.
    rewrite (Nat.min_l _ _ (Nat.lt_le_incl _ _ Hlt)).
    set (b1 := Bufio.mkWriter _ _ _ _).
    pose proof (Flush_done b1) as Hd.
    pose proof (Flush_size b1) as Hs.
    destruct (Bufio.Flush b1) as [fe b2]; simpl in Hd, Hs.
    destruct Hd as [Hd | Hd].
    + rewrite WriteString_loop_stops by exact Hd; right; exact Hd.
    + assert (Ha : Bufio.Available b2 = Bufio.size b).
      { unfold Bufio.Available; rewrite Hd, Hs; simpl; lia. }
      apply IH.
      * rewrite Hs; exact Hsz.
      * rewrite Ha, length_skipn.
        destruct (Nat.eqb_spec (Bufio.size b) 0); [lia|].
        destruct (Nat.eqb_spec (Bufio.Available b) 0); lia.
Qed.

End WriteStringRounds.

(** ** bufio.Writer over a bytes.Buffer *)

Section OverBytesBuffer.

Implicit Types b : Bufio.Writer BytesBuffer.

Lemma Flush_sound b :
  sound b ->
  exists b', Bufio.Flush b = (None, b') /\ sound b' /\
             Bufio.buf b' = [] /\ Bufio.size b' = Bufio.size b /\
             Bufio.wr b' = written b.
Proof.
  intros (He & Hsz & Hlen).
  destruct (Flush_cases b)
    as [[x [He' H]] | [[_ [Hb H]] | [_ [Hb [wr' [n [e [Hw
         [[x [Hx H]] | [_ [_ H]]]]]]]]]]].
  - congruence.
  - exists b; unfold sound, written; rewrite Hb, app_nil_r.
    repeat split; simpl; auto; lia.
  - simpl in Hw; inversion Hw; subst.
    destruct Hx as [Hx | (_ & Hx & _)]; [discriminate | lia].
  - simpl in Hw; inversion Hw; subst.
    eexists; split; [exact H|].
    unfold sound, written; simpl; repeat split; auto; lia.
Qed.

Lemma WriteString_loop_sound rounds : forall s nn b,
  sound b ->
  length s + (if Bufio.Available b =? 0 then 1 else 0) <= rounds ->
  exists s' nn' b',
    Bufio.WriteString_loop rounds s nn b = ((s', nn'), b') /\
    sound b' /\ length s' <= Bufio.Available b' /\
    written b' ++ s' = written b ++ s /\
    Bufio.size b' = Bufio.size b /\
    nn' + length s' = nn + length s.
Proof.
  induction rounds as [|k IH]; intros s nn b Hb Hr.
  - destruct s; [|simpl in Hr; lia].
    exists [], nn, b; simpl; repeat split; try apply Hb; auto; lia.
  - cbn [Bufio.WriteString_loop].
    destruct (Bufio.Available b <? length s) eqn:Hlt; cbn [andb].
    2:{ apply Nat.ltb_ge in Hlt.
        exists s, nn, b; repeat split; try apply Hb; auto. }
    apply Nat.ltb_lt in Hlt.
    destruct Hb as (He & Hsz & Hlen).
    rewrite He; cbn [is_nil].
    unfold Bufio.copy_in.
    rewrite (Nat.min_l _ _ (Nat.lt_le_incl _ _ Hlt)).
    set (b1 := Bufio.mkWriter _ _ _ _).
    assert (Hb1 : sound b1).
    { unfold sound, b1; simpl; repeat split; auto.
      rewrite length_app, length_firstn.
      unfold Bufio.Available in *; lia. }
    destruct (Flush_sound Hb1) as (b2 & Hf & Hb2 & Hbuf & Hs & Hwr).
    rewrite Hf.
    assert (Ha : Bufio.Available b2 = Bufio.size b).
    { unfold Bufio.Available; rewrite Hbuf, Hs; simpl; lia. }
    destruct (IH (skipn (Bufio.Available b) s) (nn + Bufio.Available b) b2 Hb2)
      as (s' & nn' & b' & Hl & Hb' & Hfit & Hw & Hs' & Hn).
    { rewrite Ha, length_skipn.
      destruct (Nat.eqb_spec (Bufio.size b) 0); [lia|].
      destruct (Nat.eqb_spec (Bufio.Available b) 0); lia. }
    exists s', nn', b'.
    split; [exact Hl|]; split; [exact Hb'|]; split; [exact Hfit|].
    split; [|split].
    + rewrite Hw. unfold written at 1. rewrite Hbuf, app_nil_r, Hwr.
      unfold written, b1; simpl.
      rewrite <- !app_assoc, firstn_skipn; reflexivity.
    + rewrite Hs', Hs; reflexivity.
    + rewrite Hn, length_skipn; lia.
Qed.

Lemma WriteString_emits s :
  emits (Bufio.WriteString s) (length s, None) s.
Proof.
  intros b Hb; unfold Bufio.WriteString.
  destruct (@WriteString_loop_sound (S (length s)) s 0 b Hb)
    as (s' & nn' & b' & Hl & Hb' & Hfit & Hw & Hs & Hn).
  { destruct (Bufio.Available b =? 0); lia. }
  rewrite Hl.
  destruct Hb' as (He & Hsz & Hlen); rewrite He.
  unfold Bufio.copy_in; rewrite (Nat.min_r _ _ Hfit), firstn_all.
  eexists; split; [f_equal; f_equal; lia|].
  unfold sound, written; simpl; repeat split; auto.
  - rewrite length_app; unfold Bufio.Available in Hfit; lia.
  - rewrite app_assoc; exact Hw.
Qed.

Lemma WriteByte_emits c : emits (Bufio.WriteByte c) None [c].
Proof.
  intros b Hb; unfold Bufio.WriteByte.
  pose proof Hb as (He & Hsz & Hlen); rewrite He.
  destruct (Bufio.Available b <=? 0) eqn:Ha.
  - destruct (Flush_sound Hb) as (b1 & Hf & Hb1 & Hbuf & Hs & Hwr).
    rewrite Hf.
    destruct Hb1 as (He1 & Hsz1 & Hlen1).
    eexists; split; [reflexivity|].
    unfold sound, written; simpl; rewrite Hbuf, Hwr; simpl.
    repeat split; auto; lia.
  - apply Nat.leb_gt in Ha; unfold Bufio.Available in Ha.
    eexists; split; [reflexivity|].
    unfold sound, written; simpl; rewrite length_app, app_assoc; simpl.
    repeat split; auto; lia.
Qed.

(** [WriteRune] of a rune below [utf8.RuneSelf] writes it as one byte. *)
Lemma WriteRune_emits r :
  (0 <= r < 128)%Z -> emits (Bufio.WriteRune r) (1, None) [r].
Proof.
  intros Hr b Hb; unfold Bufio.WriteRune, Utf8.RuneSelf.
  destruct (Z.ltb_spec r 128) as [_|Hge]; [|lia].
  destruct (WriteByte_emits (Utf8.to_byte r) Hb) as (b' & Hw & Hrest).
  rewrite Hw; exists b'; split; [reflexivity|].
  unfold Utf8.to_byte in Hrest; rewrite Z.mod_small in Hrest by lia.
  exact Hrest.
Qed.

Lemma emits_ret (A : Type) (a : A) : emits (ret a) a [].
Proof.
  intros b Hb; exists b; unfold ret; rewrite app_nil_r; auto.
Qed.

Lemma emits_bind (A B : Type) (c : St _ A) (k : A -> St _ B) a r o1 o2 :
  emits c a o1 -> emits (k a) r o2 -> emits (bind c k) r (o1 ++ o2).
Proof.
  intros Hc Hk b Hb; unfold bind.
  destruct (Hc b Hb) as (b1 & E1 & Hb1 & Hw1 & Hs1); rewrite E1.
  destruct (Hk b1 Hb1) as (b2 & E2 & Hb2 & Hw2 & Hs2).
  exists b2; rewrite E2, Hw2, Hw1, Hs2, Hs1, app_assoc; auto.
Qed.

End OverBytesBuffer.

(** ** The pieces of Csv.Write, for any way of accounting for the bytes

    [holds c a out] stands for: [c] returns [a] and writes [out].  Whatever
    reading of it satisfies the five rules below for the library calls
    satisfies them for the pieces of [Write], with the bytes of [Emitted]. *)

Section WriteRules.

Context {W : Type} {IOW : IoWriter W}.
Variable holds :
  forall A : Type, St (Bufio.Writer W) A -> A -> list byte -> Prop.
Arguments holds {A} _ _ _.

Hypothesis holds_ret : forall (A : Type) (a : A), holds (ret a) a [].
Hypothesis holds_bind :
  forall (A B : Type) (c : St _ A) (k : A -> St _ B) a r o1 o2,
    holds c a o1 -> holds (k a) r o2 -> holds (bind c k) r (o1 ++ o2).
Hypothesis holds_WriteString :
  forall s, holds (Bufio.WriteString s) (length s, None) s.
Hypothesis holds_WriteByte :
  forall c, holds (Bufio.WriteByte c) None [c].
Hypothesis holds_WriteRune :
  forall r, (0 <= r < 128)%Z -> holds (Bufio.WriteRune r) (1, None) [r].

Variable cw : Csv.Writer W.

Lemma holds_bind_last (A B : Type) (c : St _ A) (k : A -> St _ B) a r o :
  holds c a o -> holds (k a) r [] -> holds (bind c k) r o.
Proof.
  intros Hc Hk; rewrite <- (app_nil_r o); eapply holds_bind; eauto.
Qed.

Lemma writeString_holds s : holds (Csv.writeString s) None s.
Proof.
  unfold Csv.writeString.
  eapply holds_bind_last; [apply holds_WriteString | apply holds_ret].
Qed.

Lemma writeRune_holds r :
  (0 <= r < 128)%Z -> holds (Csv.writeRune r) None [r].
Proof.
  intros Hr; unfold Csv.writeRune.
  eapply holds_bind_last; [apply holds_WriteRune; exact Hr | apply holds_ret].
Qed.

Lemma writeString_then_holds s t (c : St _ error) :
  holds c None t ->
  holds (bind (Csv.writeString s) (fun _ => c)) None (s ++ t).
Proof.
  intros Hc; eapply holds_bind; [apply writeString_holds | exact Hc].
Qed.

Lemma writeFieldByte_holds f :
  holds (Csv.writeFieldByte cw f) None (Emitted.ofByte cw f).
Proof.
  unfold Csv.writeFieldByte, Emitted.ofByte.
  destruct (bytes_eqb (string_of_byte f) (Csv.Delimiter cw)).
  { destruct (bytes_eqb (Csv.Quote cw) []).
    - apply writeString_then_holds, writeString_holds.
    - apply writeString_holds. }
  destruct (bytes_eqb (string_of_byte f) (Csv.Quote cw)).
  { apply writeString_then_holds, writeString_holds. }
  destruct (bytes_eqb (string_of_byte f) (Csv.Escape cw)).
  { apply writeString_then_holds, writeString_holds. }
  destruct (bytes_eqb (string_of_byte f) [0%Z]).
  { apply writeString_then_holds, writeRune_holds.
    unfold digit_0; lia. }
  destruct (bytes_eqb (string_of_byte f) [LF]).
  { apply writeString_then_holds, holds_WriteByte. }
  apply holds_WriteByte.
Qed.

Lemma writeFieldBytes_holds field :
  holds (Csv.writeFieldBytes cw field) Next (Emitted.ofBytes cw field).
Proof.
  induction field as [|f rest IH]; simpl.
  - apply holds_ret.
  - eapply holds_bind; [apply writeFieldByte_holds | exact IH].
Qed.

Lemma writeQuote_holds : holds (Csv.writeQuote cw) None (Csv.Quote cw).
Proof.
  unfold Csv.writeQuote.
  destruct (bytes_eqb (Csv.Quote cw) []) eqn:E.
  - apply bytes_eqb_eq in E; rewrite E; apply holds_ret.
  - apply writeString_holds.
Qed.

Lemma writeField_holds n field :
  holds (Csv.writeField cw n field) Next
        (Emitted.separator cw n ++ Emitted.ofField cw field).
Proof.
  unfold Csv.writeField, Emitted.separator.
  eapply holds_bind.
  { destruct (0 <? n); [apply writeString_holds | apply holds_ret]. }
  destruct field as [bytes|]; simpl.
  - eapply holds_bind; [apply writeQuote_holds|]; simpl.
    eapply holds_bind; [apply writeFieldBytes_holds|]; simpl.
    eapply holds_bind_last; [apply writeQuote_holds|]; simpl.
    apply holds_ret.
  - eapply holds_bind; [apply writeString_holds|].
    eapply holds_bind_last; [apply writeString_holds | apply holds_ret].
Qed.

Lemma writeFields_holds record : forall n,
  holds (Csv.writeFields cw n record) Next (Emitted.ofFields cw n record).
Proof.
  induction record as [|field rest IH]; intros n; simpl.
  - apply holds_ret.
  - rewrite app_assoc.
    eapply holds_bind; [apply writeField_holds | apply IH].
Qed.

(** [Write] up to and with the terminator. *)
Lemma writeLine_holds record :
  holds (bind (Csv.writeFields cw 0 record)
              (fun _ => Csv.writeString (Csv.Terminator cw)))
        None (Emitted.ofRecord cw record).
Proof.
  eapply holds_bind; [apply writeFields_holds | apply writeString_holds].
Qed.

End WriteRules.

(** ** Csv.Write over a bytes.Buffer *)

Lemma writeFields_emits (cw : Csv.Writer BytesBuffer) record n :
  emits (Csv.writeFields cw n record) Next (Emitted.ofFields cw n record).
Proof.
  apply (writeFields_holds (@emits) emits_ret emits_bind
           WriteString_emits WriteByte_emits WriteRune_emits).
Qed.

Lemma writeString_emits s : emits (Csv.writeString s) None s.
Proof.
  apply (writeString_holds (@emits) emits_ret emits_bind WriteString_emits).
Qed.

(** On a sound writer over a [bytes.Buffer], [Write] returns the number
    of pending bytes and no error, and adds exactly the bytes of
    [Emitted.ofRecord] to what was written. *)
Lemma Write_on_emits (cw : Csv.Writer BytesBuffer) record b :
  sound b ->
  exists b',
    Csv.Write_on cw record b = ((Bufio.Buffered b', None), b') /\
    sound b' /\
    written b' = written b ++ Emitted.ofRecord cw record /\
    Bufio.size b' = Bufio.size b.
Proof.
  intros Hb; unfold Csv.Write_on, Emitted.ofRecord, bind at 1.
  destruct (writeFields_emits cw record 0 Hb) as (b1 & E1 & Hb1 & Hw1 & Hs1).
  rewrite E1; unfold bind.
  destruct (writeString_emits (Csv.Terminator cw) Hb1)
    as (b2 & E2 & Hb2 & Hw2 & Hs2).
  rewrite E2; unfold ret.
  exists b2; rewrite Hw2, Hw1, Hs2, Hs1, app_assoc; auto.
Qed.

Lemma Write_emits (cw : Csv.Writer BytesBuffer) record :
  sound (Csv.w cw) ->
  exists b',
    Csv.Write cw record = ((Bufio.Buffered b', None), Csv.with_w cw b') /\
    sound b' /\
    written b' = written (Csv.w cw) ++ Emitted.ofRecord cw record /\
    Bufio.size b' = Bufio.size (Csv.w cw).
Proof.
  intros Hb; unfold Csv.Write.
  destruct (Write_on_emits cw record Hb) as (b' & E & H).
  rewrite E; exists b'; auto.
Qed.

(** ** The shape of an encoded line *)

Section Lines.

Context {W : Type}.
Variable cw : Csv.Writer W.

Lemma ofBytes_app xs ys :
  Emitted.ofBytes cw (xs ++ ys) =
  Emitted.ofBytes cw xs ++ Emitted.ofBytes cw ys.
Proof. unfold Emitted.ofBytes; apply flat_map_app. Qed.

Lemma ofFields_app xs : forall n ys,
  Emitted.ofFields cw n (xs ++ ys) =
  Emitted.ofFields cw n xs ++ Emitted.ofFields cw (n + length xs) ys.
Proof.
  induction xs as [|x xs IH]; intros n ys; simpl.
  - rewrite Nat.add_0_r; reflexivity.
  - rewrite IH, <- !app_assoc.
    replace (S n + length xs) with (n + S (length xs)) by lia.
    reflexivity.
Qed.

(** The line for a record with the field [field] after [before]. *)
Lemma ofRecord_at before field after :
  Emitted.ofRecord cw (before ++ field :: after) =
  Emitted.ofFields cw 0 before
  ++ Emitted.separator cw (length before)
  ++ Emitted.ofField cw field
  ++ Emitted.ofFields cw (S (length before)) after
  ++ Csv.Terminator cw.
Proof.
  unfold Emitted.ofRecord; rewrite ofFields_app; simpl.
  rewrite <- !app_assoc; reflexivity.
Qed.

End Lines.

(** After [Write] on a fresh writer and [Flush], the buffer holds the
    bytes of [Emitted.ofRecord]. *)
Lemma write_flush_fresh d q e t record :
  write_flush (fresh d q e t) record =
  (None, Emitted.ofRecord (fresh d q e t) record).
Proof.
  assert (Hs : sound (Csv.w (fresh d q e t))).
  { unfold sound; simpl; unfold Bufio.defaultBufSize; repeat split; lia. }
  destruct (Write_emits (fresh d q e t) record Hs) as (b' & E & Hb' & Hw & _).
  unfold write_flush; rewrite E.
  unfold Csv.Flush; simpl.
  destruct (Flush_sound Hb') as (b2 & Hf & _ & _ & _ & Hwr).
  rewrite Hf; simpl; rewrite Hwr, Hw; reflexivity.
Qed.

Lemma Write_adds_ofRecord (cw : Csv.Writer BytesBuffer) record :
  sound (Csv.w cw) -> Write_adds cw record (Emitted.ofRecord cw record).
Proof.
  intros Hs; destruct (Write_emits cw record Hs) as (b' & E & Hb' & Hw & _).
  exists b'; auto.
Qed.

(** * The encoder *)



Lemma spec_join_cons sep p parts :
  spec_join sep (p :: parts) = p ++ flat_map (fun x => sep ++ x) parts.
Proof.
  revert p; induction parts as [|p' parts IH]; intros p.
  - simpl; rewrite app_nil_r; reflexivity.
  - change (spec_join sep (p :: p' :: parts))
      with (p ++ sep ++ spec_join sep (p' :: parts)).
    rewrite IH; simpl; rewrite <- app_assoc; reflexivity.
Qed.

(** What the byte loop writes for a byte that matches no case. *)
Lemma ofByte_plain_in (W : Type) (cw : Csv.Writer W) (f : byte) :
  plain_in cw f -> Emitted.ofByte cw f = [f].
Proof.
  intros (Hfd & Hfq & Hfe & Hf0 & Hfl).
  unfold Emitted.ofByte.
  rewrite !bytes_eqb_neq by assumption; reflexivity.
Qed.

Lemma ofBytes_plain_in (W : Type) (cw : Csv.Writer W) field :
  Forall (plain_in cw) field -> Emitted.ofBytes cw field = field.
Proof.
  induction 1 as [|f rest Hf _ IH]; simpl.
  - reflexivity.
  - rewrite (ofByte_plain_in Hf), IH; reflexivity.
Qed.

Lemma ofFields_plain_in (W : Type) (cw : Csv.Writer W) fields :
  Forall (Forall (plain_in cw)) fields ->
  forall n,
    Emitted.ofFields cw (S n) (map Some fields) =
    flat_map (fun x => Csv.Delimiter cw ++ x)
             (map (fun f => Csv.Quote cw ++ f ++ Csv.Quote cw) fields).
Proof.
  induction 1 as [|f rest Hf _ IH]; intros n; simpl.
  - reflexivity.
  - rewrite (ofBytes_plain_in Hf), IH.
    unfold Emitted.separator; simpl.
    rewrite <- !app_assoc; reflexivity.
Qed.



(** With one-byte symbols below 0x80 the condition is that of the
    specification with line feed added: no byte of a field is the
    delimiter, the quote, the escape, NUL or line feed. *)
Lemma plain_byte_plain_in (W : Type) (cw : Csv.Writer W) (d q e f : byte) :
  Csv.Delimiter cw = [d] -> Csv.Quote cw = [q] -> Csv.Escape cw = [e] ->
  plain_byte d q e f -> plain_in cw f.
Proof.
  intros Hd Hq He (Hfd & Hfq & Hfe & Hf0 & Hfl).
  unfold plain_in; rewrite Hd, Hq, He.
  repeat split; intros H; apply string_of_byte_single in H;
    destruct H; auto.
Qed.

(** The byte E9 is not plain when the delimiter is C3 A9: [string(f)] is
    the delimiter, and the two bytes of the delimiter are written in its
    place. *)
Lemma byte_E9_matches_delimiter_C3_A9 :
  ~ plain_in (fresh [195; 169]%Z [dquote] [backslash] [LF]) 233%Z /\
  write_flush (fresh [195; 169]%Z [dquote] [backslash] [LF])
              [Some [233%Z]]
  = (None, [34; 195; 169; 34; 10]%Z).
Proof.
  split; [|vm_compute; reflexivity].
  intros (H & _); apply H; vm_compute; reflexivity.
Qed.


(** C10, as the code has it.  In every configuration -- symbols of any
    length -- an empty non-null field is written as the quote symbol twice
    over, the opening quote directly followed by the closing one, and a
    null field in its place as the escape symbol and N.  The two lines
    are the same exactly when the quote symbol twice over is the same
    byte string as the escape symbol followed by N; in every other
    configuration they differ. *)
Theorem empty_field_differs_from_null (cw : Csv.Writer BytesBuffer)
        (before after : list Csv.RawBytes) :
  sound (Csv.w cw) ->
  exists head tail,
    Write_adds cw (before ++ Some [] :: after)
               (head ++ (Csv.Quote cw ++ Csv.Quote cw) ++ tail) /\
    Write_adds cw (before ++ None :: after)
               (head ++ (Csv.Escape cw ++ [letter_N]) ++ tail) /\
    (head ++ (Csv.Quote cw ++ Csv.Quote cw) ++ tail =
     head ++ (Csv.Escape cw ++ [letter_N]) ++ tail
     <-> Csv.Quote cw ++ Csv.Quote cw = Csv.Escape cw ++ [letter_N]).
Proof.
  intros Hs.
  exists (Emitted.ofFields cw 0 before ++ Emitted.separator cw (length before)).
  exists (Emitted.ofFields cw (S (length before)) after ++ Csv.Terminator cw).
  split; [|split].
  - pose proof (Write_adds_ofRecord cw (before ++ Some [] :: after) Hs) as H.
    rewrite ofRecord_at in H; simpl in H.
    rewrite <- !app_assoc; rewrite <- ?app_assoc in H; exact H.
  - pose proof (Write_adds_ofRecord cw (before ++ None :: after) Hs) as H.
    rewrite ofRecord_at in H; simpl in H.
    rewrite <- !app_assoc; rewrite <- ?app_assoc in H; exact H.
  - split.
    + intros H; apply app_inv_head in H; apply app_inv_tail in H; exact H.
    + intros H; rewrite H; reflexivity.
Qed.

(** The default symbols, after a field: two double quotes against
    backslash N. *)
Lemma empty_field_differs_from_null_witness :
  sound (Csv.w (fresh [comma] [dquote] [backslash] [LF])) /\
  exists head tail,
    Write_adds (fresh [comma] [dquote] [backslash] [LF])
               ([Some [97%Z]] ++ Some [] :: []) (head ++ [34; 34]%Z ++ tail) /\
    Write_adds (fresh [comma] [dquote] [backslash] [LF])
               ([Some [97%Z]] ++ None :: []) (head ++ [92; 78]%Z ++ tail) /\
    head ++ [34; 34]%Z ++ tail <> head ++ [92; 78]%Z ++ tail.
Proof.
  assert (Hs : sound (Csv.w (fresh [comma] [dquote] [backslash] [LF]))).
  { unfold sound; simpl; unfold Bufio.defaultBufSize; repeat split; lia. }
  split; [exact Hs|].
  destruct (@empty_field_differs_from_null
              (fresh [comma] [dquote] [backslash] [LF])
              [Some [97%Z]] [] Hs) as (head & tail & H1 & H2 & H3).
  exists head, tail; split; [exact H1|]; split; [exact H2|].
  intros H; apply H3 in H; discriminate H.
Defined.

(** With one-byte symbols the two are written alike only when the quote
    and the escape symbol are both the letter N. *)
Lemma one_byte_quote_twice_is_escape_N (q e : byte) :
  [q] ++ [q] = [e] ++ [letter_N] <-> q = letter_N /\ e = letter_N.
Proof.
  simpl; split.
  - intros H; inversion H; subst; auto.
  - intros [-> ->]; reflexivity.
Qed.

(** C10 as stated fails: with the quote and the escape symbol both set to
    the letter N, the empty string and NULL give the same line. *)
Lemma empty_field_differs_from_null_counterexample :
  Csv.Quote (fresh [comma] [letter_N] [letter_N] [LF]) <> [] /\
  write_flush (fresh [comma] [letter_N] [letter_N] [LF]) [Some []] =
  (None, [78; 78; 10]%Z) /\
  write_flush (fresh [comma] [letter_N] [letter_N] [LF]) [None] =
  (None, [78; 78; 10]%Z).
Proof.
  split; [|split].
  - simpl; discriminate.
  - vm_compute; reflexivity.
  - vm_compute; reflexivity.
Qed.

(** Longer symbols can collide although neither is the letter N: with the
    quote a-N and the escape a-N-a, the empty string and NULL are both
    written as a-N-a-N. *)
Lemma empty_field_like_null_with_long_symbols :
  write_flush (fresh [comma] [97; 78]%Z [97; 78; 97]%Z [LF]) [Some []] =
  (None, [97; 78; 97; 78; 10]%Z) /\
  write_flush (fresh [comma] [97; 78]%Z [97; 78; 97]%Z [LF]) [None] =
  (None, [97; 78; 97; 78; 10]%Z).
Proof. split; vm_compute; reflexivity. Qed.

(** What the byte loop writes for the quote byte, the escape byte and NUL
    when the symbols are single bytes below 0x80 and the delimiter is none
    of the three. *)
Lemma ofByte_special (W : Type) (cw : Csv.Writer W) (q e b : byte) :
  Csv.Quote cw = [q] -> Csv.Escape cw = [e] ->
  (q < 128)%Z -> (e < 128)%Z ->
  Csv.Delimiter cw <> [q] -> Csv.Delimiter cw <> [e] ->
  Csv.Delimiter cw <> [0%Z] ->
  b = q \/ b = e \/ b = 0%Z ->
  Emitted.ofByte cw b = [e] ++ spec_replacement q e b.
Proof.
  intros Hq He Hql Hel Hdq Hde Hd0 Hb.
  assert (Hsb : string_of_byte b = [b]).
  { apply string_of_byte_single; split; [reflexivity|].
    destruct Hb as [-> | [-> | ->]]; lia. }
  assert (Hdb : string_of_byte b <> Csv.Delimiter cw).
  { rewrite Hsb; intros H.
    destruct Hb as [Hb | [Hb | Hb]]; subst b;
      [apply Hdq | apply Hde | apply Hd0]; symmetry; exact H. }
  unfold Emitted.ofByte, spec_replacement.
  rewrite (bytes_eqb_neq Hdb), Hsb, Hq, He; simpl.
  destruct (Z.eqb_spec b q) as [->|Hbq]; simpl; [reflexivity|].
  destruct (Z.eqb_spec b e) as [->|Hbe]; simpl; [reflexivity|].
  destruct Hb as [-> | [-> | ->]]; try contradiction.
  reflexivity.
Qed.

(** C1, as the code has it.  Let the quote and the escape symbol be single
    bytes below 0x80 and the delimiter differ from the quote symbol, the
    escape symbol and NUL.  Then every occurrence of the quote byte, the
    escape byte or NUL in a non-null field is written as exactly one escape
    symbol followed by its replacement: the byte itself for the quote and
    the escape byte, ASCII 0 for NUL.  What stands before and after the
    occurrence is written as if the occurrence were not there. *)
Theorem special_byte_is_escaped (cw : Csv.Writer BytesBuffer) (q e b : byte)
        (before after : list Csv.RawBytes) (pre post : list byte) :
  sound (Csv.w cw) ->
  Csv.Quote cw = [q] -> Csv.Escape cw = [e] ->
  (q < 128)%Z -> (e < 128)%Z ->
  Csv.Delimiter cw <> [q] -> Csv.Delimiter cw <> [e] ->
  Csv.Delimiter cw <> [0%Z] ->
  b = q \/ b = e \/ b = 0%Z ->
  Write_adds cw (before ++ Some (pre ++ b :: post) :: after)
    ((Emitted.ofFields cw 0 before ++ Emitted.separator cw (length before)
      ++ [q] ++ Emitted.ofBytes cw pre)
     ++ ([e] ++ spec_replacement q e b)
     ++ (Emitted.ofBytes cw post ++ [q]
         ++ Emitted.ofFields cw (S (length before)) after
         ++ Csv.Terminator cw)).
Proof.
  intros Hs Hq He Hql Hel Hdq Hde Hd0 Hb.
  pose proof (Write_adds_ofRecord cw
                (before ++ Some (pre ++ b :: post) :: after) Hs) as H.
  rewrite ofRecord_at in H; cbn [Emitted.ofField] in H.
  rewrite ofBytes_app in H.
  change (Emitted.ofBytes cw (b :: post))
    with (Emitted.ofByte cw b ++ Emitted.ofBytes cw post) in H.
  rewrite (ofByte_special cw Hq He Hql Hel Hdq Hde Hd0 Hb), Hq in H.
  rewrite <- !app_assoc in *; exact H.
Qed.

(** The row (abc, NULL, a-quote-b) of the specification. *)
Lemma special_byte_is_escaped_witness :
  sound (Csv.w (fresh [comma] [dquote] [backslash] [LF])) /\
  Write_adds (fresh [comma] [dquote] [backslash] [LF])
             [Some [97; 98; 99]; None; Some [97; 34; 98]]%Z
             ([34; 97; 98; 99; 34; 44; 92; 78; 44; 34; 97]
              ++ [92; 34] ++ [98; 34; 10])%Z.
Proof.
  assert (Hs : sound (Csv.w (fresh [comma] [dquote] [backslash] [LF]))).
  { unfold sound; simpl; unfold Bufio.defaultBufSize; repeat split; lia. }
  split; [exact Hs|].
  refine (@special_byte_is_escaped
            (fresh [comma] [dquote] [backslash] [LF])
            dquote backslash dquote
            [Some [97; 98; 99]%Z; None] [] [97%Z] [98%Z]
            Hs eq_refl eq_refl _ _ _ _ _ (or_introl eq_refl));
    unfold dquote, backslash, comma; simpl; try lia; discriminate.
Defined.

(** C1 as stated fails: with the semicolon as delimiter and as quote
    symbol, the quote byte inside the field a;b is written as it is; no
    escape symbol appears in the line. *)
Lemma special_byte_is_escaped_counterexample :
  Csv.Quote (fresh [59%Z] [59%Z] [backslash] [LF]) = [59%Z] /\
  write_flush (fresh [59%Z] [59%Z] [backslash] [LF]) [Some [97; 59; 98]%Z] =
  (None, [59; 97; 59; 98; 59; 10]%Z) /\
  ~ In backslash
       (snd (write_flush (fresh [59%Z] [59%Z] [backslash] [LF])
                         [Some [97; 59; 98]%Z])).
Proof.
  split; [reflexivity|]; split.
  - vm_compute; reflexivity.
  - vm_compute; intros H; repeat (destruct H as [H|H]; [discriminate H|]).
    exact H.
Qed.

(** * The buffered sink *)

(** ** Writes that fit into the buffer *)

Section Appends.

Context {W : Type} {IOW : IoWriter W}.

Lemma appends_ret (A : Type) (a : A) :
  appends (W:=W) (ret a) a [].
Proof.
  intros [e p n w] He _; simpl in *; subst e.
  unfold ret; rewrite app_nil_r; reflexivity.
Qed.

Lemma appends_bind (A B : Type) (c : St (Bufio.Writer W) A)
      (k : A -> St (Bufio.Writer W) B) a r o1 o2 :
  appends c a o1 -> appends (k a) r o2 -> appends (bind c k) r (o1 ++ o2).
Proof.
  intros Hc Hk b He Hfit; unfold bind.
  rewrite length_app in Hfit.
  rewrite (Hc b He) by lia.
  rewrite Hk; simpl; [|reflexivity|rewrite length_app; lia].
  rewrite <- app_assoc; reflexivity.
Qed.

Lemma WriteString_appends s :
  appends (W:=W) (Bufio.WriteString s) (length s, None) s.
Proof.
  intros b He Hfit; unfold Bufio.WriteString.
  cbn [Bufio.WriteString_loop].
  assert (Ha : length s <= Bufio.Available b)
    by (unfold Bufio.Available; lia).
  destruct (Nat.ltb_spec (Bufio.Available b) (length s)) as [Hlt|_];
    [lia|]; cbn [andb].
  rewrite He; unfold Bufio.copy_in.
  rewrite (Nat.min_r _ _ Ha), firstn_all, He; reflexivity.
Qed.

Lemma WriteByte_appends c :
  appends (W:=W) (Bufio.WriteByte c) None [c].
Proof.
  intros b He Hfit; unfold Bufio.WriteByte; rewrite He.
  simpl in Hfit.
  destruct (Nat.leb_spec (Bufio.Available b) 0) as [Hle|_];
    [unfold Bufio.Available in Hle; lia | reflexivity].
Qed.

Lemma WriteRune_appends r :
  (0 <= r < 128)%Z -> appends (W:=W) (Bufio.WriteRune r) (1, None) [r].
Proof.
  intros Hr b He Hfit; unfold Bufio.WriteRune, Utf8.RuneSelf.
  destruct (Z.ltb_spec r 128) as [_|Hge]; [|lia].
  unfold Utf8.to_byte; rewrite Z.mod_small by lia.
  rewrite (WriteByte_appends r b He Hfit); reflexivity.
Qed.

(** With no error recorded and room for the whole line, [Write] appends
    the line to the pending bytes and returns their number; the sink is
    not written to. *)
Lemma Write_on_appends (cw : Csv.Writer W) record b :
  Bufio.err b = None ->
  length (Bufio.buf b) + length (Emitted.ofRecord cw record)
  <= Bufio.size b ->
  Csv.Write_on cw record b =
  ((length (Bufio.buf b) + length (Emitted.ofRecord cw record), None),
   Bufio.mkWriter None (Bufio.buf b ++ Emitted.ofRecord cw record)
                  (Bufio.size b) (Bufio.wr b)).
Proof.
  intros He Hfit; unfold Csv.Write_on, Emitted.ofRecord in *.
  rewrite length_app in Hfit.
  pose proof (writeFields_holds (fun A => @appends W A) appends_ret
                appends_bind WriteString_appends WriteByte_appends
                WriteRune_appends cw record 0) as Hf.
  pose proof (writeString_holds (fun A => @appends W A) appends_ret
                appends_bind WriteString_appends (Csv.Terminator cw))
    as Ht.
  unfold bind at 1; rewrite (Hf b He) by lia.
  unfold bind at 1; rewrite Ht; simpl; [|reflexivity|rewrite length_app; lia].
  unfold bind, ret, Bufio.Buffered; simpl.
  rewrite <- app_assoc, !length_app; do 2 f_equal; lia.
Qed.

End Appends.

(** ** Recorded errors *)

Section Errors.

Context {W : Type} {IOW : IoWriter W}.
Variable cw : Csv.Writer W.

Lemma frozen_ret (A : Type) (a : A) : frozen (W:=W) (ret a).
Proof. intros b x _; reflexivity. Qed.

Lemma frozen_bind (A B : Type) (c : St (Bufio.Writer W) A)
      (k : A -> St (Bufio.Writer W) B) :
  frozen c -> (forall a, frozen (k a)) -> frozen (bind c k).
Proof.
  intros Hc Hk b x He; unfold bind.
  pose proof (Hc b x He) as H1.
  destruct (c b) as [a b1]; simpl in H1; subst b1.
  apply (Hk a b x He).
Qed.

Lemma writeString_frozen s : frozen (W:=W) (Csv.writeString s).
Proof.
  intros b x He; unfold Csv.writeString, bind.
  rewrite (WriteString_frozen b s He); reflexivity.
Qed.

Lemma writeRune_frozen r : frozen (W:=W) (Csv.writeRune r).
Proof.
  intros b x He; unfold Csv.writeRune, bind.
  rewrite (WriteRune_frozen b r He); reflexivity.
Qed.

Lemma WriteByte_is_frozen c : frozen (W:=W) (Bufio.WriteByte c).
Proof. intros b x He; rewrite (WriteByte_frozen b c He); reflexivity. Qed.

Lemma writeString_reports s : reports (W:=W) (Csv.writeString s).
Proof.
  intros b; unfold Csv.writeString, bind.
  pose proof (WriteString_error s b) as H.
  destruct (Bufio.WriteString s b) as [r b']; exact H.
Qed.

Lemma writeRune_reports r : reports (W:=W) (Csv.writeRune r).
Proof.
  intros b; unfold Csv.writeRune, bind.
  pose proof (WriteRune_error r b) as H.
  destruct (Bufio.WriteRune r b) as [r' b']; exact H.
Qed.

Lemma WriteByte_reports c : reports (W:=W) (Bufio.WriteByte c).
Proof. intros b; apply WriteByte_error. Qed.

Lemma reports_signals (c : St (Bufio.Writer W) error) :
  reports c -> signals c.
Proof. intros H b x E; rewrite <- H; exact E. Qed.

Lemma reports_after (A : Type) (c1 : St (Bufio.Writer W) A)
      (c2 : St (Bufio.Writer W) error) :
  reports c2 -> reports (bind c1 (fun _ => c2)).
Proof.
  intros H b; unfold bind; destruct (c1 b) as [a b1]; apply H.
Qed.

Lemma writeFieldByte_frozen f : frozen (Csv.writeFieldByte cw f).
Proof.
  unfold Csv.writeFieldByte.
  repeat match goal with
         | |- frozen (if ?c then _ else _) => destruct c
         | |- frozen (bind _ _) => apply frozen_bind; [|intros _]
         end;
    first [apply writeString_frozen | apply writeRune_frozen
          | apply WriteByte_is_frozen].
Qed.

Lemma writeFieldByte_reports f : reports (Csv.writeFieldByte cw f).
Proof.
  unfold Csv.writeFieldByte.
  repeat match goal with
         | |- reports (if ?c then _ else _) => destruct c
         | |- reports (bind _ _) => apply reports_after
         end;
    first [apply writeString_reports | apply writeRune_reports
          | apply WriteByte_reports].
Qed.

(** [e <- c ;; if e is an error, return with it, else go on with rest]. *)
Lemma returns_recorded_check (c : St (Bufio.Writer W) error)
      (rest : St (Bufio.Writer W) flow) :
  signals c -> returns_recorded rest ->
  returns_recorded
    (bind c (fun e => match e with
                      | Some x => ret (Return x)
                      | None => rest
                      end)).
Proof.
  intros Hc Hr b x; unfold bind.
  pose proof (Hc b) as Hs.
  destruct (c b) as [[y|] b1]; simpl in *.
  - intros E; inversion E; subst; apply Hs; reflexivity.
  - apply Hr.
Qed.

Lemma returns_recorded_flow (c rest : St (Bufio.Writer W) flow) :
  returns_recorded c -> returns_recorded rest ->
  returns_recorded
    (bind c (fun fl => match fl with
                       | Return x => ret (Return x)
                       | Next => rest
                       end)).
Proof.
  intros Hc Hr b x; unfold bind.
  pose proof (Hc b) as Hs.
  destruct (c b) as [[|y] b1]; simpl in *.
  - apply Hr.
  - intros E; inversion E; subst; apply Hs; reflexivity.
Qed.

Lemma returns_recorded_Next : returns_recorded (W:=W) (ret Next).
Proof. intros b x E; discriminate E. Qed.

Lemma signals_ret_None : signals (W:=W) (ret None).
Proof. intros b x E; discriminate E. Qed.

Lemma writeQuote_signals : signals (Csv.writeQuote cw).
Proof.
  unfold Csv.writeQuote; destruct (bytes_eqb (Csv.Quote cw) []).
  - apply signals_ret_None.
  - apply reports_signals, writeString_reports.
Qed.

Lemma writeQuote_frozen : frozen (Csv.writeQuote cw).
Proof.
  unfold Csv.writeQuote; destruct (bytes_eqb (Csv.Quote cw) []).
  - apply frozen_ret.
  - apply writeString_frozen.
Qed.

Lemma writeFieldBytes_frozen field : frozen (Csv.writeFieldBytes cw field).
Proof.
  induction field as [|f rest IH]; simpl.
  - apply frozen_ret.
  - apply frozen_bind; [apply writeFieldByte_frozen|].
    intros [x|]; [apply frozen_ret | exact IH].
Qed.

Lemma writeFieldBytes_returns field :
  returns_recorded (Csv.writeFieldBytes cw field).
Proof.
  induction field as [|f rest IH]; simpl.
  - apply returns_recorded_Next.
  - apply returns_recorded_check;
      [apply reports_signals, writeFieldByte_reports | exact IH].
Qed.

Lemma writeField_frozen n field : frozen (Csv.writeField cw n field).
Proof.
  unfold Csv.writeField.
  apply frozen_bind.
  { destruct (0 <? n); [apply writeString_frozen | apply frozen_ret]. }
  intros [x|]; [apply frozen_ret|].
  destruct field as [bytes|].
  - apply frozen_bind; [apply writeQuote_frozen|].
    intros [x|]; [apply frozen_ret|].
    apply frozen_bind; [apply writeFieldBytes_frozen|].
    intros [|x]; [|apply frozen_ret].
    apply frozen_bind; [apply writeQuote_frozen|].
    intros [x|]; apply frozen_ret.
  - apply frozen_bind; [apply writeString_frozen|]; intros _.
    apply frozen_bind; [apply writeString_frozen|]; intros _.
    apply frozen_ret.
Qed.

Lemma writeField_returns n field :
  returns_recorded (Csv.writeField cw n field).
Proof.
  unfold Csv.writeField.
  apply returns_recorded_check.
  { destruct (0 <? n);
      [apply reports_signals, writeString_reports | apply signals_ret_None]. }
  destruct field as [bytes|].
  - apply returns_recorded_check; [apply writeQuote_signals|].
    apply returns_recorded_flow; [apply writeFieldBytes_returns|].
    apply returns_recorded_check;
      [apply writeQuote_signals | apply returns_recorded_Next].
  - intros b x; unfold bind.
    destruct (Csv.writeString (Csv.Escape cw) b) as [e1 b1].
    destruct (Csv.writeString [letter_N] b1) as [e2 b2].
    intros E; discriminate E.
Qed.

Lemma writeFields_frozen record : forall n,
  frozen (Csv.writeFields cw n record).
Proof.
  induction record as [|field rest IH]; intros n; simpl.
  - apply frozen_ret.
  - apply frozen_bind; [apply writeField_frozen|].
    intros [|x]; [apply IH | apply frozen_ret].
Qed.

Lemma writeFields_returns record : forall n,
  returns_recorded (Csv.writeFields cw n record).
Proof.
  induction record as [|field rest IH]; intros n; simpl.
  - apply returns_recorded_Next.
  - apply returns_recorded_flow; [apply writeField_returns | apply IH].
Qed.

(** The error [Write] returns is the one recorded in the writer when it
    returns. *)
Lemma Write_on_error record b :
  snd (fst (Csv.Write_on cw record b)) =
  Bufio.err (snd (Csv.Write_on cw record b)).
Proof.
  unfold Csv.Write_on, bind.
  pose proof (writeFields_returns record 0 b) as Hr.
  destruct (Csv.writeFields cw 0 record b) as [[|x] b1]; simpl in *.
  - pose proof (writeString_reports (Csv.Terminator cw) b1) as Ht.
    destruct (Csv.writeString (Csv.Terminator cw) b1) as [e b2].
    exact Ht.
  - symmetry; apply Hr; reflexivity.
Qed.

(** The integer [Write] returns is the number of pending bytes unless it
    returns early, with an error and 0. *)
Lemma Write_on_count record b :
  fst (fst (Csv.Write_on cw record b)) =
  Bufio.Buffered (snd (Csv.Write_on cw record b)) \/
  (fst (fst (Csv.Write_on cw record b)) = 0 /\
   snd (fst (Csv.Write_on cw record b)) <> None).
Proof.
  unfold Csv.Write_on, bind.
  destruct (Csv.writeFields cw 0 record b) as [[|x] b1]; simpl.
  - destruct (Csv.writeString (Csv.Terminator cw) b1) as [e b2].
    left; reflexivity.
  - right; split; [reflexivity | discriminate].
Qed.

(** With an error recorded, [Write] changes nothing and returns it. *)
Lemma Write_on_frozen record b x :
  Bufio.err b = Some x ->
  snd (Csv.Write_on cw record b) = b /\
  snd (fst (Csv.Write_on cw record b)) = Some x.
Proof.
  intros He.
  assert (Hb : snd (Csv.Write_on cw record b) = b).
  { unfold Csv.Write_on.
    apply frozen_bind with (x := x); [apply writeFields_frozen | | exact He].
    intros [|y]; [|apply frozen_ret].
    apply frozen_bind; [apply writeString_frozen|]; intros e.
    apply frozen_bind; [|intros n; apply frozen_ret].
    intros b' y _; reflexivity. }
  split; [exact Hb|].
  rewrite Write_on_error, Hb; exact He.
Qed.

End Errors.

Lemma with_w_same (W : Type) (cw : Csv.Writer W) :
  Csv.with_w cw (Csv.w cw) = cw.
Proof. destruct cw; reflexivity. Qed.





(** C7.  A second [Flush] right after a [Flush] changes nothing: the
    writer, and with it the state of its sink, is what the first [Flush]
    left.  The sink is arbitrary; for a sink that logs the slices it is
    called with, the log does not grow. *)
Theorem Flush_is_idempotent (W : Type) (IOW : IoWriter W)
        (cw : Csv.Writer W) (logged : Csv.Writer (CallLog W)) :
  Csv.Flush (Csv.Flush cw) = Csv.Flush cw /\
  Bufio.wr (Csv.w (Csv.Flush (Csv.Flush cw))) = Bufio.wr (Csv.w (Csv.Flush cw)) /\
  snd (Bufio.wr (Csv.w (Csv.Flush (Csv.Flush logged)))) =
  snd (Bufio.wr (Csv.w (Csv.Flush logged))).
Proof.
  assert (H : forall V (I : IoWriter V) (c : Csv.Writer V),
             Csv.Flush (Csv.Flush c) = Csv.Flush c).
  { intros V I c; unfold Csv.Flush; simpl; rewrite Flush_twice; reflexivity. }
  rewrite !H; auto.
Qed.

(** * The delimiter inside a field *)

(** What the byte loop writes for the delimiter byte when the delimiter is
    a single byte below 0x80. *)
Lemma ofByte_delimiter (W : Type) (cw : Csv.Writer W) (d : byte) :
  Csv.Delimiter cw = [d] -> (d < 128)%Z ->
  Emitted.ofByte cw d =
  if bytes_eqb (Csv.Quote cw) [] then Csv.Escape cw ++ [d] else [d].
Proof.
  intros Hd Hlt; unfold Emitted.ofByte.
  replace (string_of_byte d) with [d]
    by (symmetry; apply string_of_byte_single; auto).
  rewrite Hd, bytes_eqb_refl; reflexivity.
Qed.

(** For a delimiter below 0x80 the claim C4 holds: the delimiter byte in a
    field is written as it is when a quote symbol is set, and after the
    escape symbol when quoting is off. *)
Lemma delimiter_in_field (cw : Csv.Writer BytesBuffer) (d : byte)
      (before after : list Csv.RawBytes) (pre post : list byte) :
  sound (Csv.w cw) -> Csv.Delimiter cw = [d] -> (d < 128)%Z ->
  Write_adds cw (before ++ Some (pre ++ d :: post) :: after)
    ((Emitted.ofFields cw 0 before ++ Emitted.separator cw (length before)
      ++ Csv.Quote cw ++ Emitted.ofBytes cw pre)
     ++ (if bytes_eqb (Csv.Quote cw) [] then Csv.Escape cw ++ [d] else [d])
     ++ (Emitted.ofBytes cw post ++ Csv.Quote cw
         ++ Emitted.ofFields cw (S (length before)) after
         ++ Csv.Terminator cw)).
Proof.
  intros Hs Hd Hlt.
  pose proof (Write_adds_ofRecord cw
                (before ++ Some (pre ++ d :: post) :: after) Hs) as H.
  rewrite ofRecord_at in H; cbn [Emitted.ofField] in H.
  rewrite ofBytes_app in H.
  change (Emitted.ofBytes cw (d :: post))
    with (Emitted.ofByte cw d ++ Emitted.ofBytes cw post) in H.
  rewrite (ofByte_delimiter cw Hd Hlt) in H.
  rewrite <- !app_assoc in *; exact H.
Qed.

(** The scenario of the specification: quoting off, delimiter comma, the
    field a,b gives a-backslash-comma-b and the terminator. *)
Lemma delimiter_escaped_without_quotes :
  write_flush (fresh [comma] [] [backslash] [LF]) [Some [97; 44; 98]%Z] =
  (None, [97; 92; 44; 98; 10]%Z).
Proof. vm_compute; reflexivity. Qed.

(** C4 at a delimiter from 0x80 on.  [string(f)] of the byte 0xA6 is the
    two-byte string C2 A6, which is not the one-byte delimiter A6; so with
    quoting off the delimiter byte inside the field is written without the
    escape symbol, and the line reads as two fields. *)
Theorem delimiter_above_7f_is_not_escaped :
  string_of_byte 166%Z = [194; 166]%Z /\
  write_flush (fresh [166%Z] [] [backslash] [LF]) [Some [97; 166; 98]%Z] =
  (None, [97; 166; 98; 10]%Z) /\
  write_flush (fresh [166%Z] [] [backslash] [LF]) [Some [97%Z]; Some [98%Z]] =
  (None, [97; 166; 98; 10]%Z).
Proof. repeat split; vm_compute; reflexivity. Qed.

(** * Configuration *)

Lemma scanBack_le rounds s lim : forall start,
  (Utf8.scanBack rounds s start lim <= start)%Z.
Proof.
  induction rounds as [|k IH]; intros start; simpl; [lia|].
  destruct (start <? lim)%Z; [lia|].
  destruct (Utf8.RuneStart _); [lia|].
  specialize (IH (start - 1)%Z); lia.
Qed.

(** [DecodeLastRuneInString] reports width 0 for the empty string only. *)
Lemma DecodeLastRuneInString_width (s : gostring) :
  snd (Utf8.DecodeLastRuneInString s) = 0%Z <-> s = [].
Proof.
  unfold Utf8.DecodeLastRuneInString.
  destruct s as [|c s]; [simpl; tauto|].
  set (t := c :: s).
  assert (Hlen : (1 <= Z.of_nat (length t))%Z) by (unfold t; simpl; lia).
  destruct (Z.eqb_spec (Z.of_nat (length t)) 0) as [H0|_]; [lia|].
  split; [|discriminate].
  destruct (nth _ t 0%Z <? Utf8.RuneSelf)%Z; [simpl; discriminate|].
  pose proof (scanBack_le Utf8.UTFMax t
                (Z.max 0 (Z.of_nat (length t) - Z.of_nat Utf8.UTFMax))
                (Z.of_nat (length t) - 1 - 1)) as Hsb.
  destruct (Utf8.DecodeRuneInString _) as [r size].
  match goal with
  | |- context [negb (?a =? ?b)%Z] => destruct (Z.eqb_spec a b) as [E|E]
  end; simpl; [|discriminate].
  intros ->; lia.
Qed.



(** * The older revision of the writer *)

(** The older revision writes the fixed text backslash-N for a null field,
    whatever the escape symbol is (here the exclamation mark). *)
Lemma rune_revision_null_marker :
  write_flush_rune
    (CsvRune.mkWriter comma dquote 33%Z [LF] (Bufio.NewWriter []))
    [CsvRune.mkNullRawBytes [0%Z] false]
  = (None, [92; 78; 10]%Z).
Proof. vm_compute; reflexivity. Qed.

(** The older revision tests [w.Quote < 0] before it escapes a delimiter,
    so with quoting off (quote 0) the delimiter in a field is not escaped. *)
Lemma rune_revision_delimiter_without_quotes :
  write_flush_rune
    (CsvRune.mkWriter comma 0%Z backslash [LF] (Bufio.NewWriter []))
    [CsvRune.mkNullRawBytes [97; 44; 98]%Z true]
  = (None, [97; 44; 98; 10]%Z).
Proof. vm_compute; reflexivity. Qed.

(** * The producer and the consumer *)

Section PipelineFacts.

Context {W : Type} {IOW : IoWriter W}.
Variables (cols : list gostring) (rows : list (list Csv.RawBytes))
          (csvHeader : bool).

Lemma fetches_snoc tr e :
  Pipeline.fetches (tr ++ [e]) =
  Pipeline.fetches tr + (if Pipeline.is_fetch e then 1 else 0).
Proof.
  unfold Pipeline.fetches; rewrite filter_app, length_app; simpl.
  destruct (Pipeline.is_fetch e); reflexivity.
Qed.

Lemma sends_snoc tr e :
  Pipeline.sends (tr ++ [e]) =
  Pipeline.sends tr + (if Pipeline.is_send e then 1 else 0).
Proof.
  unfold Pipeline.sends; rewrite filter_app, length_app; simpl.
  destruct (Pipeline.is_send e); reflexivity.
Qed.

Lemma advances_snoc tr e :
  Pipeline.advances (tr ++ [e]) =
  Pipeline.advances tr + (if Pipeline.is_advance e then 1 else 0).
Proof.
  unfold Pipeline.advances; rewrite filter_app, length_app; simpl.
  destruct (Pipeline.is_advance e); reflexivity.
Qed.

Lemma writes_snoc tr e :
  Pipeline.writes (tr ++ [e]) =
  Pipeline.writes tr ++
  match e with Pipeline.EvWrite d => [d] | _ => [] end.
Proof.
  unfold Pipeline.writes; rewrite flat_map_app; simpl.
  rewrite app_nil_r; reflexivity.
Qed.

Lemma firstn_snoc_nth_error (A : Type) (l : list A) n x :
  nth_error l n = Some x -> firstn (S n) l = firstn n l ++ [x].
Proof.
  revert l; induction n as [|n IH]; intros [|y l] H; simpl in *;
    try discriminate.
  - inversion H; reflexivity.
  - rewrite (IH l H); reflexivity.
Qed.

Lemma skipn_cons_nth_error (A : Type) (l : list A) n x rest :
  skipn n l = x :: rest ->
  nth_error l n = Some x /\ skipn (S n) l = rest /\ n < length l.
Proof.
  revert l; induction n as [|n IH]; intros [|y l] H; simpl in *;
    try discriminate.
  - inversion H; repeat split; lia.
  - destruct (IH l H) as (H1 & H2 & H3); repeat split; auto; lia.
Qed.

Lemma skipn_nil_length (A : Type) (l : list A) n :
  skipn n l = [] -> n <= length l -> n = length l.
Proof.
  intros H Hle.
  pose proof (length_skipn n l) as E; rewrite H in E; simpl in E; lia.
Qed.

Lemma stream_rows_nth n :
  nth_error (Pipeline.stream_rows cols rows csvHeader)
            (header_count csvHeader + n) = nth_error rows n.
Proof.
  unfold Pipeline.stream_rows, header_count.
  destruct csvHeader; reflexivity.
Qed.

Lemma stream_rows_length :
  length (Pipeline.stream_rows cols rows csvHeader) =
  header_count csvHeader + length rows.
Proof.
  unfold Pipeline.stream_rows, header_count; rewrite length_app.
  destruct csvHeader; reflexivity.
Qed.

Lemma inv_init (w0 : Csv.Writer W) :
  inv cols rows csvHeader [] (Pipeline.init cols rows csvHeader w0).
Proof.
  unfold inv, pc_inv, Pipeline.init, header_count, Pipeline.stream_rows.
  destruct csvHeader; simpl; repeat split; auto;
    unfold Pipeline.fetches; simpl; lia.
Qed.

Lemma step_inv a tr s e s' :
  inv cols rows csvHeader tr s ->
  Pipeline.step a s = Some (e, s') ->
  inv cols rows csvHeader (tr ++ [e]) s'.
Proof.
  intros (Hh & Ht & Hf & Hw & Hpc) Hstep.
  unfold Pipeline.step in Hstep.
  unfold inv, pc_inv in *.
  destruct a; destruct (Pipeline.ppc s) eqn:Ep;
    destruct (Pipeline.cpc s) eqn:Ec;
    try discriminate Hstep; try contradiction;
    repeat match type of Hstep with
           | match ?x with _ => _ end = _ => destruct x eqn:?
           end;
    try discriminate Hstep;
    inversion Hstep; subst e s'; clear Hstep;
    rewrite ?fetches_snoc, ?sends_snoc, ?advances_snoc, ?writes_snoc,
      ?length_app;
    cbn [Pipeline.is_fetch Pipeline.is_send Pipeline.is_advance
         Pipeline.ppc Pipeline.cpc Pipeline.headers Pipeline.todo
         Pipeline.vals Pipeline.closed Pipeline.set_pcs Pipeline.deref
         length];
    rewrite ?Nat.add_0_r, ?app_nil_r;
    repeat match goal with
           | H : _ /\ _ |- _ => destruct H
           end;
    try solve [repeat split; auto; try congruence; lia].
  - (* rows.Next() returned false *)
    symmetry in Ht.
    pose proof (@skipn_nil_length _ _ _ Ht Hf).
    repeat split; auto; congruence.
  - (* a row is fetched into vals *)
    symmetry in Ht.
    destruct (@skipn_cons_nth_error _ _ _ _ _ Ht) as (Hn & Hs & Hl).
    repeat split; auto; try lia.
    + rewrite Nat.add_1_r; symmetry; exact Hs.
    + match goal with
      | H : header_count csvHeader + _ = Pipeline.sends tr |- _ =>
        rewrite <- H
      end.
      rewrite stream_rows_nth; exact Hn.
  - (* close(dataChan) *)
    repeat split; auto.
    rewrite stream_rows_length; lia.
  - (* w.Write(data) *)
    repeat split; auto; try lia.
    rewrite Nat.add_1_r.
    match goal with
    | Hn : nth_error _ (Pipeline.advances tr) = Some _,
      Hl : length (Pipeline.writes tr) = Pipeline.advances tr |- _ =>
      rewrite Hl, (@firstn_snoc_nth_error _ _ _ _ Hn), <- Hl, <- Hw
    end.
    reflexivity.
  - (* rendezvous on dataChan *)
    repeat split; auto; try lia.
    destruct r; simpl;
      match goal with
      | H : Pipeline.advances tr = Pipeline.sends tr |- _ => rewrite H
      end; assumption.
Qed.

Lemma exec_inv sched : forall tr s tr' s',
  inv cols rows csvHeader tr s ->
  Pipeline.exec sched tr s = Some (tr', s') ->
  inv cols rows csvHeader tr' s'.
Proof.
  induction sched as [|a sched IH]; intros tr s tr' s' Hi He; simpl in He.
  - inversion He; subst; exact Hi.
  - destruct (Pipeline.step a s) as [[e s1]|] eqn:Es; [|discriminate He].
    apply (IH _ _ _ _ (step_inv a Hi Es) He).
Qed.
End PipelineFacts.

(** ** A complete run *)

Lemma ofRecord_with_w (W : Type) (cw : Csv.Writer W) b record :
  Emitted.ofRecord (Csv.with_w cw b) record = Emitted.ofRecord cw record.
Proof. reflexivity. Qed.

Lemma writeCSV_body_sound (cw : Csv.Writer BytesBuffer) data :
  sound (Csv.w cw) ->
  exists b',
    Main.writeCSV_body cw data = inr (Csv.with_w cw b') /\
    sound b' /\
    written b' = written (Csv.w cw) ++ Emitted.ofRecord cw data.
Proof.
  intros Hs; unfold Main.writeCSV_body.
  destruct (Write_emits cw data Hs) as (b' & E & Hb' & Hw & _).
  rewrite E.
  destruct (Main.flushBufferSize <? Z.of_nat (Bufio.Buffered b'))%Z.
  - destruct (Flush_sound Hb') as (b2 & Hf & Hb2 & Hbuf & _ & Hwr).
    unfold Csv.Flush, Csv.Error; simpl; rewrite Hf; simpl.
    destruct Hb2 as (He2 & Hb2); rewrite He2.
    exists b2; split; [reflexivity|]; split; [split; assumption|].
    unfold written at 1; rewrite Hbuf, app_nil_r, Hwr; exact Hw.
  - exists b'; auto.
Qed.

Lemma writeCSV_final_sound (cw : Csv.Writer BytesBuffer) :
  sound (Csv.w cw) ->
  exists b',
    Main.writeCSV_final cw = inr (Csv.with_w cw b') /\
    sound b' /\ Bufio.buf b' = [] /\ Bufio.wr b' = written (Csv.w cw).
Proof.
  intros Hs; unfold Main.writeCSV_final.
  destruct (Flush_sound Hs) as (b2 & Hf & Hb2 & Hbuf & _ & Hwr).
  unfold Csv.Flush, Csv.Error; simpl; rewrite Hf; simpl.
  pose proof Hb2 as (He2 & _); rewrite He2.
  exists b2; auto.
Qed.

Lemma exec_app (W : Type) (IOW : IoWriter W) (s1 s2 : list Pipeline.action) :
  forall tr (s : Pipeline.state (W:=W)),
  Pipeline.exec (s1 ++ s2) tr s =
  match Pipeline.exec s1 tr s with
  | Some (tr', s') => Pipeline.exec s2 tr' s'
  | None => None
  end.
Proof.
  induction s1 as [|a s1 IH]; intros tr s; simpl; [reflexivity|].
  destruct (Pipeline.step a s) as [[e s']|]; [apply IH | reflexivity].
Qed.

Lemma row_round_runs tr r hs vs td (cw : Csv.Writer BytesBuffer) n :
  sound (Csv.w cw) ->
  exists b',
    sound b' /\
    written b' = written (Csv.w cw)
                 ++ Emitted.ofRecord cw
                      (match r with
                       | Pipeline.RefHeaders => hs
                       | Pipeline.RefVals => vs
                       end) /\
    Pipeline.exec row_round tr
      (Pipeline.mkState (Pipeline.PSend r) Pipeline.CRecv hs vs td false cw n)
    = Some (tr ++ [Pipeline.EvSend;
                   Pipeline.EvWrite (match r with
                                     | Pipeline.RefHeaders => hs
                                     | Pipeline.RefVals => vs
                                     end);
                   Pipeline.EvAdvance],
            Pipeline.mkState Pipeline.PNext Pipeline.CRecv hs vs td false
                             (Csv.with_w cw b') (S n)).
Proof.
  intros Hs.
  destruct (writeCSV_body_sound cw
              (match r with
               | Pipeline.RefHeaders => hs
               | Pipeline.RefVals => vs
               end) Hs) as (b' & E & Hb' & Hw).
  exists b'; split; [exact Hb'|]; split; [exact Hw|].
  unfold row_round; cbn [Pipeline.exec].
  unfold Pipeline.step, Pipeline.deref, Pipeline.set_pcs;
    cbn [Pipeline.ppc Pipeline.cpc Pipeline.closed Pipeline.set_pcs
         Pipeline.deref Pipeline.headers Pipeline.vals Pipeline.todo
         Pipeline.cw Pipeline.rowsWritten].
  rewrite E.
  cbn [Pipeline.ppc Pipeline.cpc Pipeline.closed Pipeline.set_pcs
       Pipeline.deref Pipeline.headers Pipeline.vals Pipeline.todo
       Pipeline.cw Pipeline.rowsWritten].
  rewrite <- !app_assoc; reflexivity.
Qed.

Lemma last_cons (A : Type) (x : A) l d : last (x :: l) d = last l x.
Proof.
  revert x d; induction l as [|y l IH]; intros x d; [reflexivity|].
  change (last (x :: y :: l) d) with (last (y :: l) d).
  rewrite (IH y d), (IH y x); reflexivity.
Qed.

Lemma data_rounds_run : forall td tr hs vs (cw : Csv.Writer BytesBuffer) n,
  sound (Csv.w cw) ->
  exists b',
    sound b' /\
    written b' = written (Csv.w cw) ++ flat_map (Emitted.ofRecord cw) td /\
    Pipeline.exec (data_rounds (length td)) tr
      (Pipeline.mkState Pipeline.PNext Pipeline.CRecv hs vs td false cw n)
    = Some (tr ++ data_events td,
            Pipeline.mkState Pipeline.PNext Pipeline.CRecv hs
                             (last td vs) [] false
                             (Csv.with_w cw b') (length td + n)).
Proof.
  induction td as [|row td IH]; intros tr hs vs cw n Hs.
  - exists (Csv.w cw); split; [exact Hs|]; split.
    + simpl; rewrite app_nil_r; reflexivity.
    + simpl; rewrite app_nil_r, with_w_same; reflexivity.
  - cbn [length data_rounds Pipeline.exec].
    unfold Pipeline.step at 1;
      cbn [Pipeline.ppc Pipeline.cpc Pipeline.closed Pipeline.set_pcs
           Pipeline.deref Pipeline.headers Pipeline.vals Pipeline.todo
           Pipeline.cw Pipeline.rowsWritten].
    rewrite exec_app.
    destruct (row_round_runs (tr ++ [Pipeline.EvFetch]) Pipeline.RefVals
                hs row td cw n Hs) as (b1 & Hb1 & Hw1 & E1).
    rewrite E1.
    destruct (IH (((tr ++ [Pipeline.EvFetch]) ++
                  [Pipeline.EvSend; Pipeline.EvWrite row; Pipeline.EvAdvance]))
                 hs row (Csv.with_w cw b1) (S n) Hb1)
      as (b2 & Hb2 & Hw2 & E2).
    exists b2; split; [exact Hb2|]; split.
    + rewrite Hw2; cbn [Csv.w Csv.with_w flat_map].
      rewrite Hw1, <- app_assoc; reflexivity.
    + rewrite E2.
      rewrite Nat.add_succ_comm.
      rewrite (last_cons row td vs).
      replace (tr ++ data_events (row :: td))
        with (((tr ++ [Pipeline.EvFetch]) ++
               [Pipeline.EvSend; Pipeline.EvWrite row; Pipeline.EvAdvance])
              ++ data_events td)
        by (cbn [data_events flat_map]; rewrite <- !app_assoc; reflexivity).
      reflexivity.
Qed.

Lemma closing_round_runs tr hs vs (cw : Csv.Writer BytesBuffer) n :
  sound (Csv.w cw) ->
  exists b',
    Bufio.buf b' = [] /\ Bufio.wr b' = written (Csv.w cw) /\
    Pipeline.exec closing_round tr
      (Pipeline.mkState Pipeline.PNext Pipeline.CRecv hs vs [] false cw n)
    = Some (tr ++ [Pipeline.EvEOF; Pipeline.EvClose; Pipeline.EvRangeEnd;
                   Pipeline.EvFinal; Pipeline.EvQuit],
            Pipeline.mkState Pipeline.PDone Pipeline.CDone hs vs [] true
                             (Csv.with_w cw b') n).
Proof.
  intros Hs.
  destruct (writeCSV_final_sound cw Hs) as (b' & E & _ & Hbuf & Hwr).
  exists b'; split; [exact Hbuf|]; split; [exact Hwr|].
  unfold closing_round; cbn [Pipeline.exec].
  unfold Pipeline.step, Pipeline.deref, Pipeline.set_pcs;
    cbn [Pipeline.ppc Pipeline.cpc Pipeline.closed
         Pipeline.headers Pipeline.vals Pipeline.todo
         Pipeline.cw Pipeline.rowsWritten].
  rewrite E.
  cbn [Pipeline.ppc Pipeline.cpc Pipeline.closed
       Pipeline.headers Pipeline.vals Pipeline.todo
       Pipeline.cw Pipeline.rowsWritten].
  rewrite <- !app_assoc; reflexivity.
Qed.

Lemma writes_data_events rows : Pipeline.writes (data_events rows) = rows.
Proof.
  induction rows as [|row rows IH]; [reflexivity|].
  unfold data_events, Pipeline.writes in *; simpl; rewrite IH; reflexivity.
Qed.

Lemma writes_app tr1 tr2 :
  Pipeline.writes (tr1 ++ tr2) = Pipeline.writes tr1 ++ Pipeline.writes tr2.
Proof. unfold Pipeline.writes; apply flat_map_app. Qed.

(** Under the schedule that lets a row through at a time, an export to a
    [bytes.Buffer] runs to its end: every row of the stream is written in
    order, each as the line [Write] makes of it, and all of it has reached
    the buffer. *)
Lemma export_completes (cols : list gostring)
      (rows : list (list Csv.RawBytes)) (csvHeader : bool)
      (w0 : Csv.Writer BytesBuffer) :
  sound (Csv.w w0) ->
  exists tr s,
    Pipeline.exec (full_schedule csvHeader (length rows)) []
                  (Pipeline.init cols rows csvHeader w0) = Some (tr, s) /\
    Pipeline.ppc s = Pipeline.PDone /\
    Pipeline.cpc s = Pipeline.CDone /\
    Pipeline.writes tr = Pipeline.stream_rows cols rows csvHeader /\
    Pipeline.rowsWritten s =
    length (Pipeline.stream_rows cols rows csvHeader) /\
    Bufio.buf (Csv.w (Pipeline.cw s)) = [] /\
    Bufio.wr (Csv.w (Pipeline.cw s)) =
    written (Csv.w w0)
    ++ flat_map (Emitted.ofRecord w0)
                (Pipeline.stream_rows cols rows csvHeader).
Proof.
  intros Hs.
  assert (Hhead :
    exists b1 tr1,
      sound b1 /\
      written b1 =
      written (Csv.w w0)
      ++ flat_map (Emitted.ofRecord w0)
                  (if csvHeader then [map Some cols] else []) /\
      Pipeline.writes tr1 = (if csvHeader then [map Some cols] else []) /\
      Pipeline.exec (if csvHeader then row_round else []) []
                    (Pipeline.init cols rows csvHeader w0)
      = Some (tr1,
              Pipeline.mkState Pipeline.PNext Pipeline.CRecv
                               (map Some cols) (repeat None (length cols))
                               rows false (Csv.with_w w0 b1)
                               (header_count csvHeader))).
  { unfold Pipeline.init, header_count; destruct csvHeader.
    - destruct (row_round_runs [] Pipeline.RefHeaders (map Some cols)
                  (repeat None (length cols)) rows w0 0 Hs)
        as (b1 & Hb1 & Hw1 & E1).
      exists b1; eexists; split; [exact Hb1|]; split; [|split; [|exact E1]].
      + simpl; rewrite app_nil_r; exact Hw1.
      + reflexivity.
    - exists (Csv.w w0), []; split; [exact Hs|]; split; [|split].
      + simpl; rewrite app_nil_r; reflexivity.
      + reflexivity.
      + simpl; rewrite with_w_same; reflexivity. }
  destruct Hhead as (b1 & tr1 & Hb1 & Hw1 & Hwr1 & E1).
  destruct (data_rounds_run rows tr1 (map Some cols)
              (repeat None (length cols)) (Csv.with_w w0 b1)
              (header_count csvHeader) Hb1)
    as (b2 & Hb2 & Hw2 & E2).
  destruct (closing_round_runs (tr1 ++ data_events rows) (map Some cols)
              (last rows (repeat None (length cols)))
              (Csv.with_w (Csv.with_w w0 b1) b2)
              (length rows + header_count csvHeader) Hb2)
    as (b3 & Hbuf3 & Hwr3 & E3).
  do 2 eexists; split.
  { unfold full_schedule; rewrite exec_app, E1, exec_app, E2; exact E3. }
  cbn [Pipeline.ppc Pipeline.cpc Pipeline.rowsWritten Pipeline.cw
       Csv.w Csv.with_w].
  repeat split.
  - rewrite !writes_app, writes_data_events, Hwr1; simpl.
    rewrite app_nil_r; reflexivity.
  - unfold Pipeline.stream_rows, header_count; rewrite length_app.
    destruct csvHeader; simpl;
      rewrite ?Nat.add_1_r, ?Nat.add_0_r; reflexivity.
  - exact Hbuf3.
  - etransitivity; [exact Hwr3|].
    etransitivity; [exact Hw2|].
    cbn [Csv.w Csv.with_w].
    etransitivity; [apply (f_equal (fun x => x ++ _) Hw1)|].
    unfold Pipeline.stream_rows; rewrite flat_map_app, <- app_assoc.
    reflexivity.
Qed.

(** C9.  In every run of [readRows] and [writeCSV], under every schedule:
    a row is fetched from the source only when every row handed over so
    far has been acknowledged on [goChan]; a row is handed over only when
    all earlier rows have been acknowledged; at most one row is ever
    unacknowledged; and what [w.Write] reads from the shared slice for its
    i-th record is row i of the stream (header line first, if asked for),
    although every fetch overwrites [vals]. *)
Theorem lock_step (W : Type) (IOW : IoWriter W)
        (cols : list gostring) (rows : list (list Csv.RawBytes))
        (csvHeader : bool) (w0 : Csv.Writer W)
        (sched : list Pipeline.action) (tr : list Pipeline.event)
        (s : Pipeline.state) :
  Pipeline.exec sched [] (Pipeline.init cols rows csvHeader w0)
  = Some (tr, s) ->
  Pipeline.writes tr =
  firstn (length (Pipeline.writes tr))
         (Pipeline.stream_rows cols rows csvHeader)
  /\ (Pipeline.sends tr = Pipeline.advances tr \/
      Pipeline.sends tr = S (Pipeline.advances tr))
  /\ forall a e s',
      Pipeline.step a s = Some (e, s') ->
      match e with
      | Pipeline.EvFetch =>
        Pipeline.advances tr = Pipeline.sends tr /\
        Pipeline.sends tr = header_count csvHeader + Pipeline.fetches tr
      | Pipeline.EvSend =>
        Pipeline.advances tr = Pipeline.sends tr
      | Pipeline.EvWrite data =>
        Pipeline.sends tr = S (Pipeline.advances tr) /\
        nth_error (Pipeline.stream_rows cols rows csvHeader)
                  (length (Pipeline.writes tr)) = Some data
      | Pipeline.EvAdvance =>
        length (Pipeline.writes tr) = Pipeline.sends tr
      | _ => True
      end.
Proof.
  intros Hrun.
  assert (Hinv : inv cols rows csvHeader tr s)
    by (eapply exec_inv; [apply inv_init | exact Hrun]).
  destruct Hinv as (Hh & Ht & Hf & Hw & Hpc).
  split; [exact Hw|]; split.
  - unfold pc_inv in Hpc.
    destruct (Pipeline.ppc s); destruct (Pipeline.cpc s);
      try contradiction; intuition lia.
  - intros a e s' Hstep; unfold Pipeline.step in Hstep.
    unfold pc_inv in Hpc.
    destruct a; destruct (Pipeline.ppc s) eqn:Ep;
      destruct (Pipeline.cpc s) eqn:Ec;
      try discriminate Hstep; try contradiction;
      repeat match type of Hstep with
             | match ?x with _ => _ end = _ => destruct x eqn:?
             end;
      try discriminate Hstep;
      inversion Hstep; subst e s'; clear Hstep;
      repeat match goal with
             | H : _ /\ _ |- _ => destruct H
             end;
      try exact I; try solve [repeat split; auto; lia].
    split; [assumption|].
    match goal with
    | Hn : nth_error _ (Pipeline.advances tr) = Some _,
      Hl : length (Pipeline.writes tr) = Pipeline.advances tr |- _ =>
      rewrite Hl; exact Hn
    end.
Qed.

(** A header line and two rows, up to the moment the first data row has
    been written and not yet acknowledged. *)
Lemma lock_step_witness :
  exists tr s,
    Pipeline.exec
      [Pipeline.ActData; Pipeline.ActConsumer; Pipeline.ActGo;
       Pipeline.ActProducer; Pipeline.ActData; Pipeline.ActConsumer] []
      (Pipeline.init [[99%Z]] [[Some [49%Z]]; [Some [50%Z]]] true
                     (Csv.NewWriter (W:=BytesBuffer) []))
    = Some (tr, s) /\
    Pipeline.writes tr =
    firstn (length (Pipeline.writes tr))
           (Pipeline.stream_rows [[99%Z]] [[Some [49%Z]]; [Some [50%Z]]]
                                 true) /\
    (Pipeline.sends tr = Pipeline.advances tr \/
     Pipeline.sends tr = S (Pipeline.advances tr)).
Proof.
  assert (Hrun : exists tr s,
             Pipeline.exec
               [Pipeline.ActData; Pipeline.ActConsumer; Pipeline.ActGo;
                Pipeline.ActProducer; Pipeline.ActData; Pipeline.ActConsumer]
               []
               (Pipeline.init [[99%Z]] [[Some [49%Z]]; [Some [50%Z]]] true
                              (Csv.NewWriter (W:=BytesBuffer) []))
             = Some (tr, s))
    by (do 2 eexists; cbv; reflexivity).
  destruct Hrun as (tr & s & Hrun).
  exists tr, s; split; [exact Hrun|].
  exact (conj (proj1 (@lock_step _ _ _ _ _ _ _ _ _ Hrun))
              (proj1 (proj2 (@lock_step _ _ _ _ _ _ _ _ _ Hrun)))).
Defined.

(** * The repository's tests *)

(** Every case of [writeTests] passes [TestWrite]. *)
Lemma TestWrite_passes : forallb TestWrite_case writeTests = true.
Proof. vm_compute; reflexivity. Qed.

(** [TestError]: no error over a [bytes.Buffer], an error over the
    [errorWriter]. *)
Lemma TestError_passes :
  TestError_run ([] : BytesBuffer) = None /\
  TestError_run (tt : errorWriter) = Some "Test"%string.
Proof. split; vm_compute; reflexivity. Qed.

(** On bytes, [string_of_byte] is the UTF-8 encoding of the code point. *)
Lemma string_of_byte_EncodeRune (f : byte) :
  is_byte f -> string_of_byte f = Utf8.EncodeRune f.
Proof.
  unfold is_byte; intros Hf.
  unfold string_of_byte, Utf8.EncodeRune, Utf8.RuneSelf, Utf8.rune1Max,
    Utf8.rune2Max, Utf8.to_byte.
  rewrite (Z.mod_small f (2 ^ 32)) by lia.
  rewrite (Z.mod_small f 256) by lia.
  destruct (Z.ltb_spec f 128) as [Hlt|Hge].
  - destruct (Z.leb_spec f 127) as [_|Hgt]; [reflexivity | lia].
  - destruct (Z.leb_spec f 127) as [Hle|_]; [lia|].
    destruct (Z.leb_spec f 2047) as [_|Hgt]; [|lia].
    rewrite Z.mod_small; [reflexivity|].
    rewrite Z.shiftr_div_pow2 by lia.
    change (2 ^ 6)%Z with 64%Z.
    split; [apply Z.div_pos; lia|].
    apply Z.div_lt_upper_bound; lia.
Qed.

(** * The bound on the pending bytes *)

Section Bound.

Context {W : Type} {IOW : IoWriter W}.

Lemma keeps_bound_ret (A : Type) (a : A) : keeps_bound (W:=W) (ret a).
Proof. intros b Hb; split; [exact Hb | reflexivity]. Qed.

Lemma keeps_bound_bind (A B : Type) (c : St (Bufio.Writer W) A)
      (k : A -> St (Bufio.Writer W) B) :
  keeps_bound c -> (forall a, keeps_bound (k a)) -> keeps_bound (bind c k).
Proof.
  intros Hc Hk b Hb; unfold bind.
  destruct (Hc b Hb) as [H1 S1].
  destruct (c b) as [a b1]; simpl in *.
  destruct (Hk a b1 H1) as [H2 S2].
  split; [exact H2 | congruence].
Qed.

Lemma Flush_keeps_bound : keeps_bound (W:=W) Bufio.Flush.
Proof.
  intros b [Hsz Hlen].
  pose proof (Flush_size b) as Hs.
  pose proof (Flush_buf_length b) as Hl.
  unfold bounded; rewrite Hs; repeat split; lia.
Qed.

Lemma copy_in_keeps_bound (s : list byte) :
  keeps_bound (W:=W) (Bufio.copy_in s).
Proof.
  intros b [Hsz Hlen]; unfold Bufio.copy_in, bounded, Bufio.Available; simpl.
  rewrite length_app, length_firstn; repeat split; lia.
Qed.

Lemma WriteString_loop_keeps_bound rounds : forall s nn,
  keeps_bound (W:=W) (Bufio.WriteString_loop rounds s nn).
Proof.
  induction rounds as [|k IH]; intros s nn b Hb;
    cbn [Bufio.WriteString_loop].
  - split; [exact Hb | reflexivity].
  - destruct ((Bufio.Available b <? length s) && is_nil (Bufio.err b));
      [|split; [exact Hb | reflexivity]].
    destruct (copy_in_keeps_bound s Hb) as [H1 S1].
    destruct (Bufio.copy_in s b) as [n b1]; simpl in *.
    destruct (Flush_keeps_bound H1) as [H2 S2].
    destruct (Bufio.Flush b1) as [fe b2]; simpl in *.
    destruct (IH (skipn n s) (nn + n) b2 H2) as [H3 S3].
    split; [exact H3 | congruence].
Qed.

Lemma WriteString_keeps_bound s : keeps_bound (W:=W) (Bufio.WriteString s).
Proof.
  intros b Hb; unfold Bufio.WriteString.
  destruct (WriteString_loop_keeps_bound (S (length s)) s 0 Hb) as [H1 S1].
  destruct (Bufio.WriteString_loop (S (length s)) s 0 b) as [[s' nn] b1].
  simpl in H1, S1.
  destruct (Bufio.err b1); [split; [exact H1 | exact S1]|].
  destruct (copy_in_keeps_bound s' H1) as [H2 S2].
  destruct (Bufio.copy_in s' b1) as [n b2]; simpl in *.
  split; [exact H2 | congruence].
Qed.

Lemma WriteByte_keeps_bound c : keeps_bound (W:=W) (Bufio.WriteByte c).
Proof.
  intros b Hb; unfold Bufio.WriteByte.
  destruct (Bufio.err b); [split; [exact Hb | reflexivity]|].
  destruct (Nat.leb_spec (Bufio.Available b) 0) as [Ha|Ha].
  - destruct (Flush_keeps_bound Hb) as [H1 S1].
    pose proof (Flush_done b) as Hd.
    pose proof (Flush_error b) as He.
    destruct (Bufio.Flush b) as [fe b1]; simpl in *.
    destruct fe as [x|]; [split; [exact H1 | exact S1]|].
    destruct Hd as [Hd | Hd]; [congruence|].
    unfold bounded in *; simpl; rewrite Hd; simpl; repeat split; lia.
  - destruct Hb as [Hsz Hlen]; unfold bounded, Bufio.Available in *; simpl.
    rewrite length_app; simpl; repeat split; lia.
Qed.

Lemma EncodeRune_length r : length (Utf8.EncodeRune r) <= Utf8.UTFMax.
Proof.
  unfold Utf8.EncodeRune, Utf8.encode3, Utf8.UTFMax.
  repeat match goal with
         | |- context [if ?c then _ else _] => destruct c
         end; simpl; lia.
Qed.

Lemma WriteRune_keeps_bound r : keeps_bound (W:=W) (Bufio.WriteRune r).
Proof.
  intros b Hb; unfold Bufio.WriteRune.
  destruct (r <? Utf8.RuneSelf)%Z.
  - destruct (WriteByte_keeps_bound (Utf8.to_byte r) Hb) as [H1 S1].
    destruct (Bufio.WriteByte (Utf8.to_byte r) b) as [e b1].
    destruct e; exact (conj H1 S1).
  - destruct (Bufio.err b); [split; [exact Hb | reflexivity]|].
    pose proof (EncodeRune_length r) as Hl.
    destruct (Nat.ltb_spec (Bufio.Available b) Utf8.UTFMax) as [Ha|Ha].
    + destruct (Flush_keeps_bound Hb) as [H1 S1].
      destruct (Bufio.Flush b) as [fe b1]; simpl in *.
      destruct (Bufio.err b1); [split; [exact H1 | exact S1]|].
      destruct (Nat.ltb_spec (Bufio.Available b1) Utf8.UTFMax) as [Ha1|Ha1].
      * destruct (WriteString_keeps_bound (Utf8.EncodeRune r) H1) as [H2 S2].
        split; [exact H2 | congruence].
      * destruct H1 as [Hsz Hlen]; unfold bounded, Bufio.Available in *; simpl.
        rewrite length_app; repeat split; lia.
    + destruct Hb as [Hsz Hlen]; unfold bounded, Bufio.Available in *; simpl.
      rewrite length_app; repeat split; lia.
Qed.

Lemma writeString_keeps_bound s : keeps_bound (W:=W) (Csv.writeString s).
Proof.
  apply keeps_bound_bind; [apply WriteString_keeps_bound|].
  intros a; apply keeps_bound_ret.
Qed.

Lemma writeRune_keeps_bound r : keeps_bound (W:=W) (Csv.writeRune r).
Proof.
  apply keeps_bound_bind; [apply WriteRune_keeps_bound|].
  intros a; apply keeps_bound_ret.
Qed.

Variable cw : Csv.Writer W.

Lemma writeFieldByte_keeps_bound f : keeps_bound (Csv.writeFieldByte cw f).
Proof.
  unfold Csv.writeFieldByte.
  repeat match goal with
         | |- keeps_bound (if ?c then _ else _) => destruct c
         | |- keeps_bound (bind _ _) => apply keeps_bound_bind; [|intros _]
         end;
    first [apply writeString_keeps_bound | apply writeRune_keeps_bound
          | apply WriteByte_keeps_bound].
Qed.

Lemma writeFieldBytes_keeps_bound field :
  keeps_bound (Csv.writeFieldBytes cw field).
Proof.
  induction field as [|f rest IH]; simpl.
  - apply keeps_bound_ret.
  - apply keeps_bound_bind; [apply writeFieldByte_keeps_bound|].
    intros [x|]; [apply keeps_bound_ret | exact IH].
Qed.

Lemma writeQuote_keeps_bound : keeps_bound (Csv.writeQuote cw).
Proof.
  unfold Csv.writeQuote; destruct (bytes_eqb (Csv.Quote cw) []).
  - apply keeps_bound_ret.
  - apply writeString_keeps_bound.
Qed.

Lemma writeField_keeps_bound n field :
  keeps_bound (Csv.writeField cw n field).
Proof.
  unfold Csv.writeField.
  apply keeps_bound_bind.
  { destruct (0 <? n); [apply writeString_keeps_bound | apply keeps_bound_ret]. }
  intros [x|]; [apply keeps_bound_ret|].
  destruct field as [bytes|].
  - apply keeps_bound_bind; [apply writeQuote_keeps_bound|].
    intros [x|]; [apply keeps_bound_ret|].
    apply keeps_bound_bind; [apply writeFieldBytes_keeps_bound|].
    intros [|x]; [|apply keeps_bound_ret].
    apply keeps_bound_bind; [apply writeQuote_keeps_bound|].
    intros [x|]; apply keeps_bound_ret.
  - apply keeps_bound_bind; [apply writeString_keeps_bound|]; intros _.
    apply keeps_bound_bind; [apply writeString_keeps_bound|]; intros _.
    apply keeps_bound_ret.
Qed.

Lemma writeFields_keeps_bound record : forall n,
  keeps_bound (Csv.writeFields cw n record).
Proof.
  induction record as [|field rest IH]; intros n; simpl.
  - apply keeps_bound_ret.
  - apply keeps_bound_bind; [apply writeField_keeps_bound|].
    intros [|x]; [apply IH | apply keeps_bound_ret].
Qed.

Lemma Write_on_keeps_bound record : keeps_bound (Csv.Write_on cw record).
Proof.
  unfold Csv.Write_on.
  apply keeps_bound_bind; [apply writeFields_keeps_bound|].
  intros [|y]; [|apply keeps_bound_ret].
  apply keeps_bound_bind; [apply writeString_keeps_bound|]; intros e.
  apply keeps_bound_bind; [|intros n; apply keeps_bound_ret].
  intros b Hb; split; [exact Hb | reflexivity].
Qed.

End Bound.

(** The integer [Write] returns never exceeds the size of the buffer. *)
Lemma Write_count_le_size (W : Type) (IOW : IoWriter W)
      (cw : Csv.Writer W) (record : list Csv.RawBytes) :
  bounded (Csv.w cw) ->
  fst (fst (Csv.Write cw record)) <= Bufio.size (Csv.w cw).
Proof.
  intros Hb.
  destruct (Write_on_keeps_bound cw record Hb) as [[_ Hl] S1].
  pose proof (Write_on_count cw record (Csv.w cw)) as Hc.
  unfold Csv.Write.
  destruct (Csv.Write_on cw record (Csv.w cw)) as [[n e] b]; simpl in *.
  unfold Bufio.Buffered in Hc.
  destruct Hc as [Hc | [Hc _]]; lia.
Qed.

(** X1.  Over any sink, [Write] keeps the pending bytes within the buffer
    and never resizes it, so the integer it returns never exceeds the size
    of the buffer (4096 for a writer made by [NewWriter]). *)
Theorem Write_keeps_buffer_bound (W : Type) (IOW : IoWriter W)
        (cw : Csv.Writer W) (record : list Csv.RawBytes) :
  bounded (Csv.w cw) ->
  bounded (Csv.w (snd (Csv.Write cw record))) /\
  Bufio.size (Csv.w (snd (Csv.Write cw record))) = Bufio.size (Csv.w cw) /\
  fst (fst (Csv.Write cw record)) <= Bufio.size (Csv.w cw).
Proof.
  intros Hb.
  destruct (Write_on_keeps_bound cw record Hb) as [H1 S1].
  pose proof (Write_on_count cw record (Csv.w cw)) as Hc.
  unfold Csv.Write.
  destruct (Csv.Write_on cw record (Csv.w cw)) as [[n e] b]; simpl in *.
  split; [exact H1|]; split; [exact S1|].
  destruct H1 as [_ Hl]; unfold Bufio.Buffered in Hc.
  destruct Hc as [Hc | [Hc _]]; lia.
Qed.

Lemma Write_keeps_buffer_bound_witness :
  bounded (Csv.w (Csv.NewWriter (W:=errorWriter) tt)) /\
  fst (fst (Csv.Write (Csv.NewWriter (W:=errorWriter) tt)
                      [Some (repeat 97%Z 4200)])) <= 4096.
Proof.
  assert (Hb : bounded (Csv.w (Csv.NewWriter (W:=errorWriter) tt))).
  { unfold bounded; simpl; unfold Bufio.defaultBufSize; lia. }
  split; [exact Hb|].
  exact (proj2 (proj2 (@Write_keeps_buffer_bound errorWriter _
                         (Csv.NewWriter tt) [Some (repeat 97%Z 4200)] Hb))).
Defined.

(** X2.  The buffered writer never holds more than its buffer, so when the
    buffer is no larger than [flushBufferSize] -- it is 4096 bytes, against
    25MB -- the test [size > flushBufferSize] of [writeCSV] is never true:
    the loop body is [w.Write(data)] and [checkErr(err)], and nothing is
    flushed before the end of the export unless the buffer fills up. *)
Theorem writeCSV_threshold_is_never_reached (W : Type) (IOW : IoWriter W)
        (cw : Csv.Writer W) (data : list Csv.RawBytes) :
  bounded (Csv.w cw) ->
  (Z.of_nat (Bufio.size (Csv.w cw)) <= Main.flushBufferSize)%Z ->
  Main.writeCSV_body cw data =
  match snd (fst (Csv.Write cw data)) with
  | Some x => inl x
  | None => inr (snd (Csv.Write cw data))
  end.
Proof.
  intros Hb Hsz.
  pose proof (@Write_count_le_size _ _ cw data Hb) as Hn.
  unfold Main.writeCSV_body.
  destruct (Csv.Write cw data) as [[n e] cw1]; simpl in *.
  destruct e as [x|]; [reflexivity|].
  destruct (Z.ltb_spec Main.flushBufferSize (Z.of_nat n)) as [Hlt|_];
    [lia | reflexivity].
Qed.

Lemma writeCSV_threshold_is_never_reached_witness :
  bounded (Csv.w (Csv.NewWriter ([] : BytesBuffer))) /\
  (Z.of_nat (Bufio.size (Csv.w (Csv.NewWriter ([] : BytesBuffer))))
   <= Main.flushBufferSize)%Z /\
  Main.writeCSV_body (Csv.NewWriter ([] : BytesBuffer))
                     [Some (repeat 97%Z 4200)] =
  inr (snd (Csv.Write (Csv.NewWriter ([] : BytesBuffer))
                      [Some (repeat 97%Z 4200)])).
Proof.
  assert (Hb : bounded (Csv.w (Csv.NewWriter ([] : BytesBuffer)))).
  { unfold bounded; simpl; unfold Bufio.defaultBufSize; lia. }
  assert (Hs : (Z.of_nat (Bufio.size (Csv.w (Csv.NewWriter ([] : BytesBuffer))))
                <= Main.flushBufferSize)%Z).
  { vm_compute; discriminate. }
  split; [exact Hb|]; split; [exact Hs|].
  exact (@writeCSV_threshold_is_never_reached BytesBuffer _
           (Csv.NewWriter []) [Some (repeat 97%Z 4200)] Hb Hs).
Defined.

(** * WriteAll *)

(** X3.  On a sound writer over a [bytes.Buffer], [WriteAll] returns nil
    and leaves nothing pending: the buffer then holds what had been written
    before followed by the lines of the records, in order. *)
Theorem WriteAll_writes_every_line (records : list (list Csv.RawBytes)) :
  forall cw : Csv.Writer BytesBuffer,
  sound (Csv.w cw) ->
  exists b',
    Csv.WriteAll cw records = (None, Csv.with_w cw b') /\
    sound b' /\ Bufio.buf b' = [] /\
    Bufio.wr b' =
    written (Csv.w cw) ++ flat_map (Emitted.ofRecord cw) records.
Proof.
  induction records as [|record rest IH]; intros cw Hs.
  - destruct (Flush_sound Hs) as (b' & Hf & Hb' & Hbuf & _ & Hwr).
    exists b'; simpl; rewrite Hf, app_nil_r; auto.
  - destruct (Write_emits cw record Hs) as (b1 & E1 & Hb1 & Hw1 & _).
    destruct (IH (Csv.with_w cw b1) Hb1) as (b' & E & Hb' & Hbuf & Hwr).
    exists b'; cbn [Csv.WriteAll]; rewrite E1, E.
    split; [reflexivity|]; split; [exact Hb'|]; split; [exact Hbuf|].
    etransitivity; [exact Hwr|].
    cbn [Csv.w Csv.with_w flat_map]; rewrite Hw1, <- app_assoc; reflexivity.
Qed.

Lemma WriteAll_writes_every_line_witness :
  sound (Csv.w (Csv.NewWriter ([] : BytesBuffer))) /\
  exists b',
    Csv.WriteAll (Csv.NewWriter ([] : BytesBuffer))
                 [[Some [97%Z]; None]; []; [Some [98%Z]]]
    = (None, Csv.with_w (Csv.NewWriter ([] : BytesBuffer)) b') /\
    sound b' /\ Bufio.buf b' = [] /\
    Bufio.wr b' = [34; 97; 34; 44; 92; 78; 10; 10; 34; 98; 34; 10]%Z.
Proof.
  assert (Hs : sound (Csv.w (Csv.NewWriter ([] : BytesBuffer)))).
  { unfold sound; simpl; unfold Bufio.defaultBufSize; repeat split; lia. }
  split; [exact Hs|].
  exact (@WriteAll_writes_every_line
           [[Some [97%Z]; None]; []; [Some [98%Z]]]
           (Csv.NewWriter ([] : BytesBuffer)) Hs).
Defined.

(** X4.  Over any sink, the error [WriteAll] returns is the error recorded
    in the buffered writer when it returns: nil means that every write and
    the final flush went through.  With an error already recorded,
    [WriteAll] writes nothing and returns that error. *)
Theorem WriteAll_reports_recorded_error (W : Type) (IOW : IoWriter W)
        (records : list (list Csv.RawBytes)) :
  forall cw : Csv.Writer W,
    fst (Csv.WriteAll cw records) =
    Bufio.err (Csv.w (snd (Csv.WriteAll cw records)))
    /\ (forall x, Bufio.err (Csv.w cw) = Some x ->
                  Csv.WriteAll cw records = (Some x, cw)).
Proof.
  induction records as [|record rest IH]; intros cw.
  - cbn [Csv.WriteAll]; split.
    + pose proof (Flush_error (Csv.w cw)) as H.
      destruct (Bufio.Flush (Csv.w cw)) as [e b]; exact H.
    + intros x Hx; rewrite (Flush_frozen (Csv.w cw) Hx), with_w_same.
      reflexivity.
  - cbn [Csv.WriteAll]; split.
    + pose proof (Write_on_error cw record (Csv.w cw)) as H.
      unfold Csv.Write.
      destruct (Csv.Write_on cw record (Csv.w cw)) as [[n e] b].
      simpl in H; destruct e as [x|]; [exact H|].
      apply (IH (Csv.with_w cw b)).
    + intros x Hx.
      destruct (Write_on_frozen cw record (Csv.w cw) Hx) as [Hb He].
      unfold Csv.Write.
      destruct (Csv.Write_on cw record (Csv.w cw)) as [[n e] b].
      simpl in Hb, He; subst b e; rewrite with_w_same; reflexivity.
Qed.

(** * Escaping loses nothing *)

Section Injective.

Context {W : Type}.
Variables (cw : Csv.Writer W) (d q e : byte).
Hypothesis Hd : Csv.Delimiter cw = [d].
Hypothesis Hq : Csv.Quote cw = [q].
Hypothesis He : Csv.Escape cw = [e].
Hypothesis Hq7 : (q < 128)%Z.
Hypothesis He7 : (e < 128)%Z.
Hypothesis Hde : d <> e.
Hypothesis Hq0 : q <> digit_0.
Hypothesis He0 : e <> digit_0.

Lemma bytes_eqb_single_false (f c : byte) :
  bytes_eqb (string_of_byte f) [c] = false -> ~ (f = c /\ (f < 128)%Z).
Proof.
  intros E H; apply string_of_byte_single in H.
  rewrite H, bytes_eqb_refl in E; discriminate E.
Qed.

(** A byte is written as itself, and then it is not the escape byte, or
    as the escape byte followed by one more byte that tells which of the
    quote, the escape, NUL and line feed it was. *)
Lemma ofByte_code (f : byte) :
  (Emitted.ofByte cw f = [f] /\ f <> e) \/
  (exists x, Emitted.ofByte cw f = [e; x] /\
             ((f = q /\ x = q) \/ (f = e /\ x = e) \/
              (f = 0%Z /\ x = digit_0 /\ f <> q /\ f <> e) \/
              (f = LF /\ x = LF /\ f <> q /\ f <> e))).
Proof.
  unfold Emitted.ofByte; rewrite Hd, Hq, He.
  destruct (bytes_eqb (string_of_byte f) [d]) eqn:Ed.
  { apply bytes_eqb_eq, string_of_byte_single in Ed; destruct Ed as [-> _].
    left; simpl; auto. }
  destruct (bytes_eqb (string_of_byte f) [q]) eqn:Eq.
  { apply bytes_eqb_eq, string_of_byte_single in Eq; destruct Eq as [-> _].
    right; exists q; simpl; auto. }
  destruct (bytes_eqb (string_of_byte f) [e]) eqn:Ee.
  { apply bytes_eqb_eq, string_of_byte_single in Ee; destruct Ee as [-> _].
    right; exists e; simpl; auto. }
  apply bytes_eqb_single_false in Eq, Ee.
  assert (Hfq : f <> q) by (intros ->; apply Eq; auto).
  assert (Hfe : f <> e) by (intros ->; apply Ee; auto).
  destruct (bytes_eqb (string_of_byte f) [0%Z]) eqn:E0.
  { apply bytes_eqb_eq, string_of_byte_single in E0; destruct E0 as [-> _].
    right; exists digit_0; simpl; split; [reflexivity|]; right; right; left; auto. }
  destruct (bytes_eqb (string_of_byte f) [LF]) eqn:El.
  { apply bytes_eqb_eq, string_of_byte_single in El; destruct El as [-> _].
    right; exists LF; simpl; split; [reflexivity|]; right; right; right; auto. }
  left; auto.
Qed.

(** The code of a byte can be told from what follows it. *)
Lemma ofByte_app_inj (f g : byte) (r s : list byte) :
  Emitted.ofByte cw f ++ r = Emitted.ofByte cw g ++ s -> f = g /\ r = s.
Proof.
  destruct (ofByte_code f) as [[Ef Hf] | (x & Ef & Hx)];
    destruct (ofByte_code g) as [[Eg Hg] | (y & Eg & Hy)];
    rewrite Ef, Eg; simpl; intros H; inversion H; subst.
  - auto.
  - contradiction.
  - contradiction.
  - split; [|reflexivity].
    unfold digit_0, LF in *.
    destruct Hx as [[-> ->] | [[-> ->] | [(-> & -> & Hx1 & Hx2)
                                         | (-> & -> & Hx1 & Hx2)]]];
      destruct Hy as [[-> Hy] | [[-> Hy] | [(-> & Hy & Hy1 & Hy2)
                                           | (-> & Hy & Hy1 & Hy2)]]];
      try reflexivity; try congruence; try lia.
Qed.

Lemma ofBytes_inj (a : list byte) : forall b,
  Emitted.ofBytes cw a = Emitted.ofBytes cw b -> a = b.
Proof.
  induction a as [|f a IH]; intros [|g b] H.
  - reflexivity.
  - exfalso; simpl in H.
    destruct (ofByte_code g) as [[Eg _] | (y & Eg & _)];
      rewrite Eg in H; discriminate H.
  - exfalso; simpl in H.
    destruct (ofByte_code f) as [[Ef _] | (y & Ef & _)];
      rewrite Ef in H; discriminate H.
  - change (Emitted.ofByte cw f ++ Emitted.ofBytes cw a =
            Emitted.ofByte cw g ++ Emitted.ofBytes cw b) in H.
    apply ofByte_app_inj in H; destruct H as [-> H].
    rewrite (IH b H); reflexivity.
Qed.

End Injective.

(** X5.  Escaping loses nothing.  With quoting on, single-byte symbols,
    quote and escape below 0x80, the delimiter not the escape symbol, and
    neither the quote nor the escape symbol the digit 0: two fields that
    [Write] turns into the same line are the same field. *)
Theorem escaping_is_injective (cw : Csv.Writer BytesBuffer) (d q e : byte)
        (a b : list byte) :
  sound (Csv.w cw) ->
  Csv.Delimiter cw = [d] -> Csv.Quote cw = [q] -> Csv.Escape cw = [e] ->
  (q < 128)%Z -> (e < 128)%Z ->
  d <> e -> q <> digit_0 -> e <> digit_0 ->
  written (Csv.w (snd (Csv.Write cw [Some a]))) =
  written (Csv.w (snd (Csv.Write cw [Some b]))) ->
  a = b.
Proof.
  intros Hs Hd Hq He Hq7 He7 Hde Hq0 He0 H.
  destruct (Write_emits cw [Some a] Hs) as (ba & Ea & _ & Hwa & _).
  destruct (Write_emits cw [Some b] Hs) as (bb & Eb & _ & Hwb & _).
  rewrite Ea, Eb in H; simpl in H; rewrite Hwa, Hwb in H.
  apply app_inv_head in H.
  unfold Emitted.ofRecord in H; simpl in H.
  rewrite !app_nil_r, <- !app_assoc in H.
  apply app_inv_head in H.
  rewrite !app_assoc in H; apply app_inv_tail in H; apply app_inv_tail in H.
  exact (ofBytes_inj cw Hd Hq He Hq7 He7 Hde Hq0 He0 a b H).
Qed.

Lemma escaping_is_injective_witness :
  sound (Csv.w (fresh [comma] [dquote] [backslash] [LF])) /\
  ([0; 34]%Z = [0; 34]%Z).
Proof.
  assert (Hs : sound (Csv.w (fresh [comma] [dquote] [backslash] [LF]))).
  { unfold sound; simpl; unfold Bufio.defaultBufSize; repeat split; lia. }
  split; [exact Hs|].
  refine (@escaping_is_injective (fresh [comma] [dquote] [backslash] [LF])
            comma dquote backslash [0; 34]%Z [0; 34]%Z
            Hs eq_refl eq_refl eq_refl _ _ _ _ _ eq_refl);
    unfold comma, dquote, backslash, digit_0; lia.
Defined.

(** With the digit 0 as quote symbol the condition fails and so does the
    conclusion: a NUL byte and the digit 0 are written alike. *)
Lemma escaping_collides_on_quote_0 :
  write_flush (fresh [comma] [digit_0] [backslash] [LF]) [Some [0%Z]] =
  write_flush (fresh [comma] [digit_0] [backslash] [LF]) [Some [digit_0]].
Proof. vm_compute; reflexivity. Qed.

(** * Every schedule of the pipeline *)

(** ** No deadlock *)

(** X6.  [readRows] and [writeCSV] never block each other for good: in
    every state a run can reach, under any schedule, with any sink and
    whether or not the cursor fails, either both have finished, or
    [writeCSV] has panicked in [checkErr] on a write error, or [readRows]
    has panicked in [checkErr] on an error of the cursor (either panic
    ends the program), or the program can take a step of its own, one
    that is no failure of the cursor. *)
Theorem export_never_deadlocks (W : Type) (IOW : IoWriter W)
        (cols : list gostring) (rows : list (list Csv.RawBytes))
        (csvHeader : bool) (w0 : Csv.Writer W)
        (sched : list Pipeline.action) (tr : list Pipeline.event)
        (s : Pipeline.state) :
  Pipeline.exec sched [] (Pipeline.init cols rows csvHeader w0)
  = Some (tr, s) ->
  (Pipeline.ppc s = Pipeline.PDone /\ Pipeline.cpc s = Pipeline.CDone) \/
  (exists msg, Pipeline.cpc s = Pipeline.CPanic msg) \/
  (exists msg, Pipeline.ppc s = Pipeline.PPanic msg) \/
  (exists a e s',
      Pipeline.step a s = Some (e, s') /\
      forall msg, a <> Pipeline.ActFetchError msg).
Proof.
  intros Hrun.
  assert (Hinv : inv cols rows csvHeader tr s)
    by (eapply exec_inv; [apply inv_init | exact Hrun]).
  destruct Hinv as (_ & _ & _ & _ & Hpc).
  unfold pc_inv in Hpc.
  destruct (Pipeline.ppc s) eqn:Ep; destruct (Pipeline.cpc s) eqn:Ec;
    try contradiction;
    try (left; split; reflexivity);
    try (right; left; eexists; reflexivity);
    try (right; right; left; eexists; reflexivity);
    right; right; right.
  - (* dataChan <- v meets the receive *)
    destruct Hpc as (_ & _ & _ & _ & Hc).
    exists Pipeline.ActData; unfold Pipeline.step; rewrite Ep, Ec, Hc.
    do 2 eexists; split; [reflexivity | discriminate].
  - (* w.Write(data) *)
    exists Pipeline.ActConsumer; unfold Pipeline.step; rewrite Ep, Ec.
    destruct (Main.writeCSV_body (Pipeline.cw s) (Pipeline.deref data s));
      do 2 eexists; (split; [reflexivity | discriminate]).
  - (* goChan <- true meets the receive *)
    exists Pipeline.ActGo; unfold Pipeline.step; rewrite Ep, Ec.
    do 2 eexists; split; [reflexivity | discriminate].
  - (* rows.Next() *)
    exists Pipeline.ActProducer; unfold Pipeline.step; rewrite Ep, Ec.
    destruct (Pipeline.todo s);
      do 2 eexists; (split; [reflexivity | discriminate]).
  - (* close(dataChan) *)
    exists Pipeline.ActProducer; unfold Pipeline.step; rewrite Ep, Ec.
    do 2 eexists; split; [reflexivity | discriminate].
  - (* the range loop sees the closed channel *)
    destruct Hpc as (_ & _ & _ & Hc).
    exists Pipeline.ActConsumer; unfold Pipeline.step; rewrite Ep, Ec, Hc.
    do 2 eexists; split; [reflexivity | discriminate].
  - (* the final flush *)
    exists Pipeline.ActConsumer; unfold Pipeline.step; rewrite Ep, Ec.
    destruct (Main.writeCSV_final (Pipeline.cw s));
      do 2 eexists; (split; [reflexivity | discriminate]).
  - (* quitChan *)
    exists Pipeline.ActQuit; unfold Pipeline.step; rewrite Ep, Ec.
    do 2 eexists; split; [reflexivity | discriminate].
Qed.

(** A header line and two rows; the header goes through, then the cursor
    fails: [readRows] has panicked and nothing moves any more. *)
Lemma export_never_deadlocks_witness :
  exists tr s,
    Pipeline.exec
      [Pipeline.ActData; Pipeline.ActConsumer; Pipeline.ActGo;
       Pipeline.ActFetchError "connection lost"] []
      (Pipeline.init [[99%Z]] [[Some [49%Z]]; [Some [50%Z]]] true
                     (Csv.NewWriter (W:=BytesBuffer) []))
    = Some (tr, s) /\
    ((Pipeline.ppc s = Pipeline.PDone /\ Pipeline.cpc s = Pipeline.CDone) \/
     (exists msg, Pipeline.cpc s = Pipeline.CPanic msg) \/
     (exists msg, Pipeline.ppc s = Pipeline.PPanic msg) \/
     (exists a e s',
         Pipeline.step a s = Some (e, s') /\
         forall msg, a <> Pipeline.ActFetchError msg)).
Proof.
  assert (Hrun : exists tr s,
             Pipeline.exec
               [Pipeline.ActData; Pipeline.ActConsumer; Pipeline.ActGo;
                Pipeline.ActFetchError "connection lost"] []
               (Pipeline.init [[99%Z]] [[Some [49%Z]]; [Some [50%Z]]] true
                              (Csv.NewWriter (W:=BytesBuffer) []))
             = Some (tr, s))
    by (do 2 eexists; cbv; reflexivity).
  destruct Hrun as (tr & s & Hrun).
  exists tr, s; split; [exact Hrun|].
  exact (@export_never_deadlocks _ _ _ _ _ _ _ _ _ Hrun).
Defined.

(** A failing sink, a header line and one row, with the header handed
    over: the step that is possible is the write that panics. *)
Lemma export_panics_on_a_failing_sink :
  exists tr s,
    Pipeline.exec [Pipeline.ActData; Pipeline.ActConsumer] []
      (Pipeline.init [repeat 99%Z 5000] [[Some [49%Z]]] true
                     (Csv.NewWriter (W:=errorWriter) tt))
    = Some (tr, s) /\
    Pipeline.cpc s = Pipeline.CPanic "Test".
Proof. do 2 eexists; split; vm_compute; reflexivity. Qed.

(** ** No endless run *)

Section Progress.

Context {W : Type} {IOW : IoWriter W}.

Lemma step_steps_left a (s : Pipeline.state (W:=W)) e s' :
  Pipeline.step a s = Some (e, s') -> steps_left s' < steps_left s.
Proof.
  unfold Pipeline.step, steps_left; intros Hstep.
  destruct a; destruct (Pipeline.ppc s) eqn:Ep;
    destruct (Pipeline.cpc s) eqn:Ec;
    try discriminate Hstep;
    repeat match type of Hstep with
           | match ?x with _ => _ end = _ => destruct x eqn:?
           end;
    try discriminate Hstep;
    inversion Hstep; subst e s'; clear Hstep;
    cbn [Pipeline.ppc Pipeline.cpc Pipeline.todo Pipeline.set_pcs
         producer_rank consumer_rank length];
    try match goal with
        | H : Pipeline.todo s = _ |- _ => rewrite H
        end;
    cbn [producer_rank consumer_rank length]; lia.
Qed.

Lemma exec_steps_left sched : forall tr (s : Pipeline.state (W:=W)) tr' s',
  Pipeline.exec sched tr s = Some (tr', s') ->
  length sched + steps_left s' <= steps_left s.
Proof.
  induction sched as [|a sched IH]; intros tr s tr' s' He; simpl in He.
  - inversion He; subst; simpl; lia.
  - destruct (Pipeline.step a s) as [[e s1]|] eqn:Es; [|discriminate He].
    pose proof (step_steps_left _ _ Es).
    pose proof (IH _ _ _ _ He).
    simpl; lia.
Qed.

End Progress.

(** X7.  No run goes on for ever: a run of [readRows] and [writeCSV],
    under any schedule and with any sink, takes at most four steps for
    each row of the result set, three for the header line and five to
    close down. *)
Theorem export_run_is_bounded (W : Type) (IOW : IoWriter W)
        (cols : list gostring) (rows : list (list Csv.RawBytes))
        (csvHeader : bool) (w0 : Csv.Writer W)
        (sched : list Pipeline.action) (tr : list Pipeline.event)
        (s : Pipeline.state) :
  Pipeline.exec sched [] (Pipeline.init cols rows csvHeader w0)
  = Some (tr, s) ->
  length sched + steps_left s
  <= 4 * length rows + 3 * header_count csvHeader + 5.
Proof.
  intros Hrun.
  pose proof (exec_steps_left _ _ _ Hrun) as H.
  unfold steps_left at 2, Pipeline.init, header_count in H.
  unfold header_count.
  destruct csvHeader; simpl in H; simpl; lia.
Qed.

Lemma export_run_is_bounded_witness :
  exists tr s,
    Pipeline.exec (full_schedule true 1) []
      (Pipeline.init [[99%Z]] [[Some [49%Z]]] true
                     (Csv.NewWriter (W:=BytesBuffer) []))
    = Some (tr, s) /\
    length (full_schedule true 1) + steps_left s
    <= 4 * length [[Some [49%Z]]] + 3 * header_count true + 5.
Proof.
  assert (Hrun : exists tr s,
             Pipeline.exec (full_schedule true 1) []
               (Pipeline.init [[99%Z]] [[Some [49%Z]]] true
                              (Csv.NewWriter (W:=BytesBuffer) []))
             = Some (tr, s))
    by (do 2 eexists; cbv; reflexivity).
  destruct Hrun as (tr & s & Hrun).
  exists tr, s; split; [exact Hrun|].
  exact (@export_run_is_bounded _ _ _ _ _ _ _ _ _ Hrun).
Defined.

(** ** What reaches a bytes.Buffer under any schedule *)

Lemma sink_inv_init cols rows csvHeader (w0 : Csv.Writer BytesBuffer) :
  sound (Csv.w w0) ->
  sink_inv w0 [] (Pipeline.init cols rows csvHeader w0).
Proof.
  intros Hs; unfold sink_inv, Pipeline.init; simpl.
  rewrite app_nil_r, with_w_same; auto.
Qed.

Lemma step_sink_inv (w0 : Csv.Writer BytesBuffer) a tr s e s' :
  sink_inv w0 tr s ->
  Pipeline.step a s = Some (e, s') ->
  sink_inv w0 (tr ++ [e]) s'.
Proof.
  intros (Hs & Hcw & Hw & Hc) Hstep.
  unfold Pipeline.step in Hstep.
  unfold sink_inv.
  destruct a; destruct (Pipeline.ppc s) eqn:Ep;
    destruct (Pipeline.cpc s) eqn:Ec;
    try discriminate Hstep; try contradiction;
    try (destruct (writeCSV_body_sound (Pipeline.cw s)
                     (Pipeline.deref data s) Hs)
          as (b' & Eb & Hb' & Hwb); rewrite Eb in Hstep);
    try (destruct (@writeCSV_final_sound (Pipeline.cw s) Hs)
          as (b' & Eb & Hb' & Hbuf & Hwr); rewrite Eb in Hstep);
    repeat match type of Hstep with
           | match ?x with _ => _ end = _ => destruct x eqn:?
           end;
    try discriminate Hstep;
    inversion Hstep; subst e s'; clear Hstep;
    rewrite writes_snoc;
    cbn [Pipeline.ppc Pipeline.cpc Pipeline.cw Pipeline.set_pcs
         Csv.w Csv.with_w];
    rewrite ?app_nil_r;
    try solve [split; [exact Hs|]; split; [exact Hcw|];
               split; [exact Hw|]; first [exact I | exact Hc]].
  all: split; [exact Hb'|]; split;
    [rewrite Hcw; reflexivity|]; split; auto.
  all: first
    [ (* w.Write(data) *)
      etransitivity; [exact Hwb|];
      rewrite Hw, flat_map_app, <- app_assoc; simpl; rewrite app_nil_r;
      rewrite Hcw, ofRecord_with_w; reflexivity
    | (* the final flush *)
      unfold written; rewrite Hbuf, app_nil_r;
      etransitivity; [exact Hwr|exact Hw] ].
Qed.

Lemma exec_sink_inv (w0 : Csv.Writer BytesBuffer) sched :
  forall tr s tr' s',
  sink_inv w0 tr s ->
  Pipeline.exec sched tr s = Some (tr', s') ->
  sink_inv w0 tr' s'.
Proof.
  induction sched as [|a sched IH]; intros tr s tr' s' Hi He; simpl in He.
  - inversion He; subst; exact Hi.
  - destruct (Pipeline.step a s) as [[e s1]|] eqn:Es; [|discriminate He].
    apply (IH _ _ _ _ (@step_sink_inv _ _ _ _ _ _ Hi Es) He).
Qed.

(** X8.  Over a [bytes.Buffer], whatever the schedule and however far
    the run has come: [writeCSV] has not panicked, the symbols and the
    terminator of the writer are the configured ones, and what has been
    written is, after what was there before, the lines of the first rows
    of the stream (header line first, if asked for), as many as [Write]
    was called for, in order, each as [Write] makes it from the row. *)
Theorem export_writes_leading_rows
        (cols : list gostring) (rows : list (list Csv.RawBytes))
        (csvHeader : bool) (w0 : Csv.Writer BytesBuffer)
        (sched : list Pipeline.action) (tr : list Pipeline.event)
        (s : Pipeline.state) :
  sound (Csv.w w0) ->
  Pipeline.exec sched [] (Pipeline.init cols rows csvHeader w0)
  = Some (tr, s) ->
  (forall msg, Pipeline.cpc s <> Pipeline.CPanic msg) /\
  Pipeline.cw s = Csv.with_w w0 (Csv.w (Pipeline.cw s)) /\
  length (Pipeline.writes tr)
  <= length (Pipeline.stream_rows cols rows csvHeader) /\
  written (Csv.w (Pipeline.cw s)) =
  written (Csv.w w0)
  ++ flat_map (Emitted.ofRecord w0)
       (firstn (length (Pipeline.writes tr))
               (Pipeline.stream_rows cols rows csvHeader)).
Proof.
  intros Hs Hrun.
  assert (Hinv : inv cols rows csvHeader tr s)
    by (eapply exec_inv; [apply inv_init | exact Hrun]).
  assert (Hsink : sink_inv w0 tr s)
    by (eapply exec_sink_inv; [apply sink_inv_init; exact Hs | exact Hrun]).
  destruct Hinv as (_ & _ & _ & Hw & _).
  destruct Hsink as (_ & Hcw & Hwr & Hc).
  split; [|split; [exact Hcw|split]].
  - intros msg E; rewrite E in Hc; exact Hc.
  - rewrite Hw at 1; rewrite length_firstn; apply Nat.le_min_r.
  - rewrite <- Hw; exact Hwr.
Qed.

Lemma export_writes_leading_rows_witness :
  sound (Csv.w (Csv.NewWriter (W:=BytesBuffer) [])) /\
  exists tr s,
    Pipeline.exec
      [Pipeline.ActData; Pipeline.ActConsumer; Pipeline.ActGo;
       Pipeline.ActProducer; Pipeline.ActData; Pipeline.ActConsumer] []
      (Pipeline.init [[99%Z]] [[Some [49%Z]]; [Some [50%Z]]] true
                     (Csv.NewWriter (W:=BytesBuffer) []))
    = Some (tr, s) /\
    written (Csv.w (Pipeline.cw s)) =
    written (Csv.w (Csv.NewWriter (W:=BytesBuffer) []))
    ++ flat_map (Emitted.ofRecord (Csv.NewWriter (W:=BytesBuffer) []))
         (firstn (length (Pipeline.writes tr))
                 (Pipeline.stream_rows [[99%Z]]
                    [[Some [49%Z]]; [Some [50%Z]]] true)).
Proof.
  assert (Hs : sound (Csv.w (Csv.NewWriter (W:=BytesBuffer) []))).
  { unfold sound; simpl; unfold Bufio.defaultBufSize; repeat split; lia. }
  split; [exact Hs|].
  assert (Hrun : exists tr s,
             Pipeline.exec
               [Pipeline.ActData; Pipeline.ActConsumer; Pipeline.ActGo;
                Pipeline.ActProducer; Pipeline.ActData; Pipeline.ActConsumer]
               []
               (Pipeline.init [[99%Z]] [[Some [49%Z]]; [Some [50%Z]]] true
                              (Csv.NewWriter (W:=BytesBuffer) []))
             = Some (tr, s))
    by (do 2 eexists; cbv; reflexivity).
  destruct Hrun as (tr & s & Hrun).
  exists tr, s; split; [exact Hrun|].
  exact (proj2 (proj2 (proj2
    (@export_writes_leading_rows _ _ _ _ _ _ _ Hs Hrun)))).
Defined.

(** X9.  Over a [bytes.Buffer], whatever the schedule: once [writeCSV]
    has returned, [Write] has been given every row of the stream, in
    order, nothing is pending, and the buffer holds what was written
    before followed by the line of every row. *)
Theorem finished_export_is_complete
        (cols : list gostring) (rows : list (list Csv.RawBytes))
        (csvHeader : bool) (w0 : Csv.Writer BytesBuffer)
        (sched : list Pipeline.action) (tr : list Pipeline.event)
        (s : Pipeline.state) :
  sound (Csv.w w0) ->
  Pipeline.exec sched [] (Pipeline.init cols rows csvHeader w0)
  = Some (tr, s) ->
  Pipeline.cpc s = Pipeline.CWaitQuit \/ Pipeline.cpc s = Pipeline.CDone ->
  Pipeline.writes tr = Pipeline.stream_rows cols rows csvHeader /\
  Bufio.buf (Csv.w (Pipeline.cw s)) = [] /\
  Bufio.wr (Csv.w (Pipeline.cw s)) =
  written (Csv.w w0)
  ++ flat_map (Emitted.ofRecord w0)
              (Pipeline.stream_rows cols rows csvHeader).
Proof.
  intros Hs Hrun Hend.
  assert (Hinv : inv cols rows csvHeader tr s)
    by (eapply exec_inv; [apply inv_init | exact Hrun]).
  assert (Hsink : sink_inv w0 tr s)
    by (eapply exec_sink_inv; [apply sink_inv_init; exact Hs | exact Hrun]).
  destruct Hinv as (_ & Ht & Hf & Hw & Hpc).
  destruct Hsink as (_ & _ & Hwr & Hc).
  unfold pc_inv in Hpc.
  assert (Hall : length (Pipeline.writes tr) =
                 length (Pipeline.stream_rows cols rows csvHeader) /\
                 Bufio.buf (Csv.w (Pipeline.cw s)) = []).
  { destruct Hend as [E | E]; rewrite E in Hpc, Hc;
      destruct (Pipeline.ppc s); try contradiction;
      destruct Hpc as (_ & H1 & H2 & _); split; auto; congruence. }
  destruct Hall as (Hlen & Hbuf).
  assert (Hwrites : Pipeline.writes tr =
                    Pipeline.stream_rows cols rows csvHeader).
  { rewrite Hw, Hlen; apply firstn_all. }
  split; [exact Hwrites|]; split; [exact Hbuf|].
  rewrite <- Hwrites, <- Hwr; unfold written; rewrite Hbuf, app_nil_r.
  reflexivity.
Qed.

Lemma finished_export_is_complete_witness :
  sound (Csv.w (Csv.NewWriter (W:=BytesBuffer) [])) /\
  exists tr s,
    Pipeline.exec
      [Pipeline.ActProducer; Pipeline.ActData; Pipeline.ActConsumer;
       Pipeline.ActGo; Pipeline.ActProducer; Pipeline.ActProducer;
       Pipeline.ActConsumer; Pipeline.ActConsumer] []
      (Pipeline.init [[99%Z]] [[Some [49%Z]]] false
                     (Csv.NewWriter (W:=BytesBuffer) []))
    = Some (tr, s) /\
    Pipeline.cpc s = Pipeline.CWaitQuit /\
    Bufio.wr (Csv.w (Pipeline.cw s)) = [34; 49; 34; 10]%Z.
Proof.
  assert (Hs : sound (Csv.w (Csv.NewWriter (W:=BytesBuffer) []))).
  { unfold sound; simpl; unfold Bufio.defaultBufSize; repeat split; lia. }
  split; [exact Hs|].
  assert (Hrun : exists tr s,
             Pipeline.exec
               [Pipeline.ActProducer; Pipeline.ActData; Pipeline.ActConsumer;
                Pipeline.ActGo; Pipeline.ActProducer; Pipeline.ActProducer;
                Pipeline.ActConsumer; Pipeline.ActConsumer] []
               (Pipeline.init [[99%Z]] [[Some [49%Z]]] false
                              (Csv.NewWriter (W:=BytesBuffer) []))
             = Some (tr, s) /\
             Pipeline.cpc s = Pipeline.CWaitQuit)
    by (do 2 eexists; cbv; split; reflexivity).
  destruct Hrun as (tr & s & Hrun & Hend).
  exists tr, s; split; [exact Hrun|]; split; [exact Hend|].
  exact (proj2 (proj2
    (@finished_export_is_complete _ _ _ _ _ _ _ Hs Hrun (or_introl Hend)))).
Defined.

(** ** Closing the channel *)

(** X10.  Under any schedule and with any sink, [readRows] never sends
    on the closed channel, and [close(dataChan)] happens only when the
    cursor is exhausted and every row of the stream has been handed over,
    written and acknowledged. *)
Theorem channel_is_closed_after_the_last_row (W : Type) (IOW : IoWriter W)
        (cols : list gostring) (rows : list (list Csv.RawBytes))
        (csvHeader : bool) (w0 : Csv.Writer W)
        (sched : list Pipeline.action) (tr : list Pipeline.event)
        (s : Pipeline.state) :
  Pipeline.exec sched [] (Pipeline.init cols rows csvHeader w0)
  = Some (tr, s) ->
  (forall r, Pipeline.ppc s = Pipeline.PSend r ->
             Pipeline.closed s = false) /\
  (forall a s',
      Pipeline.step a s = Some (Pipeline.EvClose, s') ->
      Pipeline.todo s = [] /\
      Pipeline.fetches tr = length rows /\
      Pipeline.sends tr =
      length (Pipeline.stream_rows cols rows csvHeader) /\
      length (Pipeline.writes tr) =
      length (Pipeline.stream_rows cols rows csvHeader) /\
      Pipeline.advances tr =
      length (Pipeline.stream_rows cols rows csvHeader)).
Proof.
  intros Hrun.
  assert (Hinv : inv cols rows csvHeader tr s)
    by (eapply exec_inv; [apply inv_init | exact Hrun]).
  destruct Hinv as (_ & Ht & _ & _ & Hpc).
  unfold pc_inv in Hpc.
  split.
  - intros r Ep; rewrite Ep in Hpc.
    destruct (Pipeline.cpc s); try contradiction.
    destruct Hpc as (_ & _ & _ & _ & Hc); exact Hc.
  - intros a s' Hstep; unfold Pipeline.step in Hstep.
    destruct a; destruct (Pipeline.ppc s) eqn:Ep;
      destruct (Pipeline.cpc s) eqn:Ec;
      try discriminate Hstep; try contradiction;
      repeat match type of Hstep with
             | match ?x with _ => _ end = _ => destruct x eqn:?
             end;
      try discriminate Hstep.
    destruct Hpc as (HA & HW & HF & HR & _).
    rewrite (stream_rows_length cols rows csvHeader).
    rewrite Ht, HR, skipn_all.
    repeat split; lia.
Qed.

(** A header line and one row.  While the row waits to be handed over
    the channel is open; once the header and the row have been handed
    over, written and acknowledged and [rows.Next()] has returned false,
    the next step closes the channel: one fetch, two sends, two writes and
    two acknowledgements have happened, and the cursor is empty. *)
Lemma channel_is_closed_after_the_last_row_witness :
  (exists tr s,
      Pipeline.exec
        [Pipeline.ActData; Pipeline.ActConsumer; Pipeline.ActGo;
         Pipeline.ActProducer] []
        (Pipeline.init [[99%Z]] [[Some [49%Z]]] true
                       (Csv.NewWriter (W:=BytesBuffer) []))
      = Some (tr, s) /\
      Pipeline.ppc s = Pipeline.PSend Pipeline.RefVals /\
      Pipeline.closed s = false) /\
  (exists tr s s',
      Pipeline.exec
        [Pipeline.ActData; Pipeline.ActConsumer; Pipeline.ActGo;
         Pipeline.ActProducer; Pipeline.ActData; Pipeline.ActConsumer;
         Pipeline.ActGo; Pipeline.ActProducer] []
        (Pipeline.init [[99%Z]] [[Some [49%Z]]] true
                       (Csv.NewWriter (W:=BytesBuffer) []))
      = Some (tr, s) /\
      Pipeline.step Pipeline.ActProducer s = Some (Pipeline.EvClose, s') /\
      Pipeline.todo s = [] /\
      Pipeline.fetches tr = 1 /\
      Pipeline.sends tr = 2 /\
      length (Pipeline.writes tr) = 2 /\
      Pipeline.advances tr = 2).
Proof.
  split.
  - assert (Hrun : exists tr s,
               Pipeline.exec
                 [Pipeline.ActData; Pipeline.ActConsumer; Pipeline.ActGo;
                  Pipeline.ActProducer] []
                 (Pipeline.init [[99%Z]] [[Some [49%Z]]] true
                                (Csv.NewWriter (W:=BytesBuffer) []))
               = Some (tr, s) /\
               Pipeline.ppc s = Pipeline.PSend Pipeline.RefVals)
      by (do 2 eexists; cbv; split; reflexivity).
    destruct Hrun as (tr & s & Hrun & Hsend).
    exists tr, s; split; [exact Hrun|]; split; [exact Hsend|].
    exact (proj1 (@channel_is_closed_after_the_last_row _ _ _ _ _ _ _ _ _
                    Hrun) _ Hsend).
  - assert (Hrun : exists tr s s',
               Pipeline.exec
                 [Pipeline.ActData; Pipeline.ActConsumer; Pipeline.ActGo;
                  Pipeline.ActProducer; Pipeline.ActData;
                  Pipeline.ActConsumer; Pipeline.ActGo;
                  Pipeline.ActProducer] []
                 (Pipeline.init [[99%Z]] [[Some [49%Z]]] true
                                (Csv.NewWriter (W:=BytesBuffer) []))
               = Some (tr, s) /\
               Pipeline.step Pipeline.ActProducer s
               = Some (Pipeline.EvClose, s'))
      by (do 3 eexists; cbv; split; reflexivity).
    destruct Hrun as (tr & s & s' & Hrun & Hclose).
    exists tr, s, s'; split; [exact Hrun|]; split; [exact Hclose|].
    exact (proj2 (@channel_is_closed_after_the_last_row _ _ _ _ _ _ _ _ _
                    Hrun) _ _ Hclose).
Defined.

(** * The older revision of the writer, for every record *)

(** ** bufio.Writer.WriteRune for every rune *)

Lemma WriteRune_emits_all (r : rune) :
  emits (Bufio.WriteRune r) (length (runeBytes r), None) (runeBytes r).
Proof.
  intros b Hb; unfold Bufio.WriteRune, runeBytes.
  destruct (r <? Utf8.RuneSelf)%Z.
  - destruct (WriteByte_emits (Utf8.to_byte r) Hb) as (b' & Hw & Hrest).
    rewrite Hw; exists b'; split; [reflexivity | exact Hrest].
  - pose proof Hb as (He & Hsz & Hlen); rewrite He.
    pose proof (EncodeRune_length r) as Henc.
    destruct (Nat.ltb_spec (Bufio.Available b) Utf8.UTFMax) as [Hlt | Hge].
    + destruct (Flush_sound Hb) as (b1 & Hf & Hb1 & Hbuf1 & Hsz1 & Hwr1).
      rewrite Hf.
      pose proof Hb1 as (He1 & _ & _); rewrite He1.
      assert (Hw1 : written b1 = written b)
        by (unfold written at 1; rewrite Hbuf1, app_nil_r; exact Hwr1).
      destruct (Nat.ltb_spec (Bufio.Available b1) Utf8.UTFMax) as [Hlt1 | Hge1].
      * destruct (WriteString_emits (Utf8.EncodeRune r) Hb1)
          as (b2 & E2 & Hb2 & Hw2 & Hs2).
        exists b2; split; [exact E2|]; split; [exact Hb2|]; split.
        -- rewrite Hw2, Hw1; reflexivity.
        -- rewrite Hs2; exact Hsz1.
      * eexists; split; [reflexivity|].
        unfold Bufio.Available in Hge1; rewrite Hbuf1 in Hge1; simpl in Hge1.
        unfold sound, written; simpl; rewrite Hbuf1; simpl.
        repeat split; try assumption; try lia.
        rewrite Hwr1; reflexivity.
    + eexists; split; [reflexivity|].
      unfold Bufio.Available in Hge.
      unfold sound, written; simpl; rewrite length_app, app_assoc.
      repeat split; try assumption; lia.
Qed.

(** ** The pieces of the older [Write] over a bytes.Buffer *)

Section RuneWrite.

Variable cw : CsvRune.Writer BytesBuffer.

Lemma rune_writeString_emits s : emits (CsvRune.writeString s) None s.
Proof.
  unfold CsvRune.writeString.
  rewrite <- (app_nil_r s) at 2.
  eapply emits_bind; [apply WriteString_emits | apply emits_ret].
Qed.

Lemma rune_writeRune_emits r : emits (CsvRune.writeRune r) None (runeBytes r).
Proof.
  unfold CsvRune.writeRune.
  rewrite <- (app_nil_r (runeBytes r)).
  eapply emits_bind; [apply WriteRune_emits_all | apply emits_ret].
Qed.

Lemma rune_writeRunes_emits r1 r2 :
  emits (bind (CsvRune.writeRune r1) (fun _ => CsvRune.writeRune r2)) None
        (runeBytes r1 ++ runeBytes r2).
Proof.
  eapply emits_bind; [apply rune_writeRune_emits|].
  apply rune_writeRune_emits.
Qed.

Lemma rune_writeFieldByte_emits f :
  emits (CsvRune.writeFieldByte cw f) None (EmittedRune.ofByte cw f).
Proof.
  unfold CsvRune.writeFieldByte, EmittedRune.ofByte.
  destruct (f =? CsvRune.Delimiter cw)%Z.
  { destruct (CsvRune.Quote cw <? 0)%Z;
      [apply rune_writeRunes_emits | apply rune_writeRune_emits]. }
  destruct (f =? CsvRune.Quote cw)%Z; [apply rune_writeRunes_emits|].
  destruct (f =? CsvRune.Escape cw)%Z; [apply rune_writeRunes_emits|].
  destruct (f =? 0)%Z; [apply rune_writeRunes_emits|].
  apply WriteByte_emits.
Qed.

Lemma rune_writeFieldBytes_emits field :
  emits (CsvRune.writeFieldBytes cw field) Next (EmittedRune.ofBytes cw field).
Proof.
  induction field as [|f rest IH]; simpl.
  - apply emits_ret.
  - eapply emits_bind; [apply rune_writeFieldByte_emits | exact IH].
Qed.

Lemma rune_writeQuote_emits :
  emits (CsvRune.writeQuote cw) None (EmittedRune.quote cw).
Proof.
  unfold CsvRune.writeQuote, EmittedRune.quote.
  destruct (0 <? CsvRune.Quote cw)%Z;
    [apply rune_writeRune_emits | apply emits_ret].
Qed.

Lemma rune_writeField_emits n field :
  emits (CsvRune.writeField cw n field) Next
        (EmittedRune.separator cw n ++ EmittedRune.ofField cw field).
Proof.
  unfold CsvRune.writeField, EmittedRune.separator, EmittedRune.ofField.
  eapply emits_bind.
  { instantiate (1 := None).
    destruct (0 <? n); [apply rune_writeRune_emits | apply emits_ret]. }
  cbv beta iota.
  destruct (negb (CsvRune.Valid field)).
  - rewrite <- (app_nil_r [backslash; letter_N]).
    eapply emits_bind; [apply rune_writeString_emits | apply emits_ret].
  - eapply emits_bind; [apply rune_writeQuote_emits|]; cbv beta iota.
    eapply emits_bind; [apply rune_writeFieldBytes_emits|]; cbv beta iota.
    rewrite <- (app_nil_r (EmittedRune.quote cw)) at 1.
    eapply emits_bind; [apply rune_writeQuote_emits | apply emits_ret].
Qed.

Lemma rune_writeFields_emits record : forall n,
  emits (CsvRune.writeFields cw n record) Next
        (EmittedRune.ofFields cw n record).
Proof.
  induction record as [|field rest IH]; intros n; simpl.
  - apply emits_ret.
  - rewrite app_assoc.
    eapply emits_bind; [apply rune_writeField_emits | apply IH].
Qed.

End RuneWrite.

(** On a sound writer over a [bytes.Buffer], the older [Write] returns
    the number of pending bytes and no error, and adds exactly the bytes
    of [EmittedRune.ofRecord] to what was written. *)
Lemma rune_Write_emits (cw : CsvRune.Writer BytesBuffer) record :
  sound (CsvRune.w cw) ->
  exists b',
    CsvRune.Write cw record
    = ((Bufio.Buffered b', None), CsvRune.with_w cw b') /\
    sound b' /\
    written b' = written (CsvRune.w cw) ++ EmittedRune.ofRecord cw record.
Proof.
  intros Hb; unfold CsvRune.Write, CsvRune.Write_on, EmittedRune.ofRecord.
  unfold bind at 1.
  destruct (rune_writeFields_emits cw record 0 Hb)
    as (b1 & E1 & Hb1 & Hw1 & _).
  rewrite E1; unfold bind.
  destruct (rune_writeString_emits (CsvRune.Terminator cw) Hb1)
    as (b2 & E2 & Hb2 & Hw2 & _).
  rewrite E2; unfold ret.
  exists b2; rewrite Hw2, Hw1, app_assoc; auto.
Qed.

(** ** The shape of a line of the older revision *)

Lemma rune_ofFields_app (W : Type) (cw : CsvRune.Writer W) xs : forall n ys,
  EmittedRune.ofFields cw n (xs ++ ys) =
  EmittedRune.ofFields cw n xs
  ++ EmittedRune.ofFields cw (n + length xs) ys.
Proof.
  induction xs as [|x xs IH]; intros n ys; simpl.
  - rewrite Nat.add_0_r; reflexivity.
  - rewrite IH, <- !app_assoc.
    replace (S n + length xs) with (n + S (length xs)) by lia.
    reflexivity.
Qed.

(** X11.  The older revision writes a null field as the fixed two bytes
    backslash and N, whatever the escape symbol, the other symbols, the
    bytes left in the field and its place in the record are: the line it
    writes over a [bytes.Buffer] is the fields before, the delimiter if
    there are any, backslash N, the fields after, and the terminator. *)
Theorem rune_revision_null_is_backslash_N
        (cw : CsvRune.Writer BytesBuffer)
        (before after : list CsvRune.NullRawBytes) (stale : list byte) :
  sound (CsvRune.w cw) ->
  exists b',
    CsvRune.Write cw
      (before ++ CsvRune.mkNullRawBytes stale false :: after)
    = ((Bufio.Buffered b', None), CsvRune.with_w cw b') /\
    written b' =
    written (CsvRune.w cw)
    ++ EmittedRune.ofFields cw 0 before
    ++ EmittedRune.separator cw (length before)
    ++ [backslash; letter_N]
    ++ EmittedRune.ofFields cw (S (length before)) after
    ++ CsvRune.Terminator cw.
Proof.
  intros Hs.
  destruct (rune_Write_emits cw
              (before ++ CsvRune.mkNullRawBytes stale false :: after) Hs)
    as (b' & E & _ & Hw).
  exists b'; split; [exact E|].
  rewrite Hw; unfold EmittedRune.ofRecord.
  rewrite rune_ofFields_app; simpl.
  rewrite <- !app_assoc; reflexivity.
Qed.

(** The exclamation mark as escape symbol: the null field of the second
    column is still written as backslash N. *)
Lemma rune_revision_null_is_backslash_N_witness :
  sound (CsvRune.w (CsvRune.mkWriter comma dquote 33%Z [LF]
                                     (Bufio.NewWriter ([] : BytesBuffer)))) /\
  exists b',
    CsvRune.Write
      (CsvRune.mkWriter comma dquote 33%Z [LF]
                        (Bufio.NewWriter ([] : BytesBuffer)))
      ([CsvRune.mkNullRawBytes [97%Z] true]
       ++ CsvRune.mkNullRawBytes [0%Z] false :: [])
    = ((Bufio.Buffered b', None),
       CsvRune.with_w (CsvRune.mkWriter comma dquote 33%Z [LF]
                                        (Bufio.NewWriter ([] : BytesBuffer)))
                      b') /\
    written b' = [34; 97; 34; 44; 92; 78; 10]%Z.
Proof.
  assert (Hs : sound (CsvRune.w (CsvRune.mkWriter comma dquote 33%Z [LF]
                                   (Bufio.NewWriter ([] : BytesBuffer))))).
  { unfold sound; simpl; unfold Bufio.defaultBufSize; repeat split; lia. }
  split; [exact Hs|].
  exact (@rune_revision_null_is_backslash_N
           (CsvRune.mkWriter comma dquote 33%Z [LF]
                             (Bufio.NewWriter ([] : BytesBuffer)))
           [CsvRune.mkNullRawBytes [97%Z] true] [] [0%Z] Hs).
Defined.

(** ** The two revisions side by side *)

Lemma runeBytes_ascii (r : rune) : (0 <= r < 128)%Z -> runeBytes r = [r].
Proof.
  intros Hr; unfold runeBytes, Utf8.RuneSelf, Utf8.to_byte.
  destruct (Z.ltb_spec r 128) as [_|H]; [|lia].
  rewrite Z.mod_small by lia; reflexivity.
Qed.

Lemma bytes_eqb_string_of_byte (f c : byte) :
  (c < 128)%Z -> bytes_eqb (string_of_byte f) [c] = (f =? c)%Z.
Proof.
  intros Hc; destruct (Z.eqb_spec f c) as [E | E].
  - apply bytes_eqb_eq, string_of_byte_single; split; [exact E | lia].
  - apply bytes_eqb_neq; intros H.
    apply string_of_byte_single in H; destruct H as [H _]; contradiction.
Qed.

Section Agree.

Context {W : Type}.
Variables (cw : Csv.Writer W) (d q e : byte).
Hypothesis Hd : Csv.Delimiter cw = [d].
Hypothesis Hq : Csv.Quote cw = [q].
Hypothesis He : Csv.Escape cw = [e].
Hypothesis Hd7 : (0 <= d < 128)%Z.
Hypothesis Hq7 : (0 < q < 128)%Z.
Hypothesis He7 : (0 <= e < 128)%Z.

Lemma ofByte_agree (f : byte) :
  f <> LF -> EmittedRune.ofByte (older_writer cw d q e) f = Emitted.ofByte cw f.
Proof.
  intros Hf; unfold EmittedRune.ofByte, Emitted.ofByte, older_writer; simpl.
  rewrite Hd, Hq, He.
  rewrite !bytes_eqb_string_of_byte by (unfold LF; lia).
  rewrite !runeBytes_ascii by (unfold digit_0; lia).
  destruct (Z.ltb_spec q 0) as [Hneg|_]; [lia|].
  destruct (Z.eqb_spec f LF) as [E|_]; [contradiction|].
  simpl; reflexivity.
Qed.

Lemma ofBytes_agree (field : list byte) :
  ~ In LF field ->
  EmittedRune.ofBytes (older_writer cw d q e) field = Emitted.ofBytes cw field.
Proof.
  induction field as [|f rest IH]; intros Hn; [reflexivity|].
  unfold EmittedRune.ofBytes, Emitted.ofBytes in *; simpl.
  rewrite ofByte_agree by (intros E; apply Hn; left; exact E).
  rewrite IH by (intros Hin; apply Hn; right; exact Hin).
  reflexivity.
Qed.

Lemma ofField_agree (field : Csv.RawBytes) :
  match field with
  | None => e = backslash
  | Some bytes => ~ In LF bytes
  end ->
  EmittedRune.ofField (older_writer cw d q e)
                      (NullRawBytes.scanned field) =
  Emitted.ofField cw field.
Proof.
  destruct field as [bytes|]; intros H;
    unfold EmittedRune.ofField, Emitted.ofField; simpl.
  - rewrite ofBytes_agree by exact H; rewrite Hq.
    unfold EmittedRune.quote; simpl.
    destruct (Z.ltb_spec 0 q) as [_|Hle]; [|lia].
    rewrite runeBytes_ascii by lia; reflexivity.
  - rewrite He, H; reflexivity.
Qed.

Lemma ofFields_agree (record : list Csv.RawBytes) : forall n,
  Forall (fun field => match field with
                       | None => e = backslash
                       | Some bytes => ~ In LF bytes
                       end) record ->
  EmittedRune.ofFields (older_writer cw d q e) n
                       (map NullRawBytes.scanned record) =
  Emitted.ofFields cw n record.
Proof.
  induction record as [|field rest IH]; intros n H; [reflexivity|].
  inversion H as [|? ? Hf Hrest]; subst; simpl.
  rewrite ofField_agree by exact Hf; rewrite IH by exact Hrest.
  unfold EmittedRune.separator, Emitted.separator; simpl.
  rewrite Hd, runeBytes_ascii by lia; reflexivity.
Qed.

End Agree.

(** X12.  The two revisions of the writer agree where they can: with
    delimiter, quote and escape symbols below 0x80 and a quote symbol
    other than NUL, for a record in which no field contains a line feed
    and, if it has a null field, with the backslash as escape symbol,
    the older revision (given the columns as [Scan] stores them) and the
    current one write the same bytes over a [bytes.Buffer], both without
    error. *)
Theorem revisions_agree (cw : Csv.Writer BytesBuffer) (d q e : byte)
        (record : list Csv.RawBytes) :
  sound (Csv.w cw) ->
  Csv.Delimiter cw = [d] -> Csv.Quote cw = [q] -> Csv.Escape cw = [e] ->
  (0 <= d < 128)%Z -> (0 < q < 128)%Z -> (0 <= e < 128)%Z ->
  Forall (fun field => match field with
                       | None => e = backslash
                       | Some bytes => ~ In LF bytes
                       end) record ->
  snd (fst (Csv.Write cw record)) = None /\
  snd (fst (CsvRune.Write
              (older_writer cw d q e)
              (map NullRawBytes.scanned record))) = None /\
  written (CsvRune.w
             (snd (CsvRune.Write
                     (older_writer cw d q e)
                     (map NullRawBytes.scanned record)))) =
  written (Csv.w (snd (Csv.Write cw record))).
Proof.
  intros Hs Hd Hq He Hd7 Hq7 He7 Hrec.
  destruct (Write_emits cw record Hs) as (b1 & E1 & _ & Hw1 & _).
  destruct (rune_Write_emits
              (older_writer cw d q e)
              (map NullRawBytes.scanned record) Hs) as (b2 & E2 & _ & Hw2).
  rewrite E1, E2; simpl.
  split; [reflexivity|]; split; [reflexivity|].
  etransitivity; [exact Hw2|].
  etransitivity; [|symmetry; exact Hw1].
  unfold EmittedRune.ofRecord, Emitted.ofRecord; simpl.
  rewrite (@ofFields_agree _ cw d q e) by assumption.
  reflexivity.
Qed.

Lemma revisions_agree_witness :
  sound (Csv.w (Csv.NewWriter ([] : BytesBuffer))) /\
  written (CsvRune.w
             (snd (CsvRune.Write
                     (older_writer (Csv.NewWriter ([] : BytesBuffer))
                                   comma dquote backslash)
                     (map NullRawBytes.scanned
                          [Some [97; 34; 0]%Z; None])))) =
  written (Csv.w (snd (Csv.Write (Csv.NewWriter ([] : BytesBuffer))
                                 [Some [97; 34; 0]%Z; None]))).
Proof.
  assert (Hs : sound (Csv.w (Csv.NewWriter ([] : BytesBuffer)))).
  { unfold sound; simpl; unfold Bufio.defaultBufSize; repeat split; lia. }
  split; [exact Hs|].
  refine (proj2 (proj2
    (@revisions_agree (Csv.NewWriter ([] : BytesBuffer))
       comma dquote backslash [Some [97; 34; 0]%Z; None]
       Hs eq_refl eq_refl eq_refl _ _ _ _))).
  - unfold comma; lia.
  - unfold dquote; lia.
  - unfold backslash; lia.
  - repeat constructor; simpl; unfold LF; intros H;
      repeat (destruct H as [H | H]; [discriminate H|]); exact H.
Defined.

(** A line feed in a field tells the revisions apart: only the current
    one escapes it. *)
Lemma revisions_differ_on_line_feed :
  write_flush_rune
    (CsvRune.NewWriter ([] : BytesBuffer))
    (map NullRawBytes.scanned [Some [LF]])
  = (None, [34; 10; 34; 10]%Z) /\
  write_flush (Csv.NewWriter ([] : BytesBuffer)) [Some [LF]]
  = (None, [34; 92; 10; 34; 10]%Z).
Proof. split; vm_compute; reflexivity. Qed.

(** ** Scan and Value *)

(** X13.  [Scan] never fails.  A NULL and a byte slice come back from
    [Value] as they went into [Scan], whatever the receiver held before;
    for a value of any other type [Scan] keeps the bytes the receiver
    held and marks them valid, so [Value] returns those. *)
Theorem Scan_then_Value (nb : CsvRune.NullRawBytes) (v : Driver.Value) :
  fst (NullRawBytes.Scan nb v) = None /\
  NullRawBytes.Value (snd (NullRawBytes.Scan nb v)) =
  (match v with
   | Driver.Nil => Driver.Nil
   | Driver.Bytes b => Driver.Bytes b
   | _ => Driver.Bytes (CsvRune.RawBytes nb)
   end, None).
Proof.
  destruct v; split; reflexivity.
Qed.

(** ** The symbols the older main can configure *)

Lemma RuneError_nonneg : (0 <= Utf8.RuneError)%Z.
Proof. unfold Utf8.RuneError; lia. Qed.

Lemma DecodeRuneInString_nonneg (s : gostring) :
  Forall (fun c => 0 <= c)%Z s ->
  (0 <= fst (Utf8.DecodeRuneInString s))%Z.
Proof.
  pose proof RuneError_nonneg as HE.
  assert (Hm : forall c m, (0 <= m)%Z -> (0 <= Z.land c m)%Z)
    by (intros c m Hm; apply Z.land_nonneg; right; exact Hm).
  assert (Hx : (0 <= Utf8.maskx)%Z) by (unfold Utf8.maskx; lia).
  assert (H2 : (0 <= Utf8.mask2)%Z) by (unfold Utf8.mask2; lia).
  assert (H3 : (0 <= Utf8.mask3)%Z) by (unfold Utf8.mask3; lia).
  assert (H4 : (0 <= Utf8.mask4)%Z) by (unfold Utf8.mask4; lia).
  intros Hs; unfold Utf8.DecodeRuneInString.
  destruct s as [|c0 s1]; [exact HE|].
  inversion Hs as [|? ? Hc0 _]; subst.
  repeat match goal with
         | |- (0 <= fst (if ?c then _ else _))%Z => destruct c
         | |- (0 <= fst (match ?l with [] => _ | _ :: _ => _ end))%Z =>
           destruct l
         | |- (0 <= fst (let r := _ in _))%Z => cbv zeta
         end;
    cbn [fst]; try exact HE; try exact Hc0;
    repeat (apply Z.lor_nonneg; split);
    try (apply Z.shiftl_nonneg); auto.
Qed.

Lemma nth_nonneg (s : gostring) (n : nat) :
  Forall (fun c => 0 <= c)%Z s -> (0 <= nth n s 0)%Z.
Proof.
  intros Hs; revert n; induction Hs as [|c s Hc _ IH]; intros [|n]; simpl;
    try lia; apply IH.
Qed.

Lemma Forall_skipn (A : Type) (P : A -> Prop) (l : list A) : forall n,
  Forall P l -> Forall P (skipn n l).
Proof.
  induction l as [|x l IH]; intros [|n] H; simpl; auto.
  inversion H; subst; apply IH; assumption.
Qed.

Lemma DecodeLastRuneInString_nonneg (s : gostring) :
  Forall (fun c => 0 <= c)%Z s ->
  (0 <= fst (Utf8.DecodeLastRuneInString s))%Z.
Proof.
  pose proof RuneError_nonneg as HE.
  intros Hs; unfold Utf8.DecodeLastRuneInString.
  destruct (Z.of_nat (length s) =? 0)%Z; [exact HE|].
  destruct (nth _ s 0 <? Utf8.RuneSelf)%Z; [apply nth_nonneg; exact Hs|].
  match goal with
  | |- context [Utf8.DecodeRuneInString ?t] =>
    pose proof (@DecodeRuneInString_nonneg t (Forall_skipn _ Hs)) as Hr;
    destruct (Utf8.DecodeRuneInString t) as [r size]
  end.
  destruct (negb _); [exact HE | exact Hr].
Qed.

(** X14.  In the older revision no flag value makes [Write] escape a
    delimiter inside a field: the quote symbol [main] configures from a
    flag value is never negative, so the test [w.Quote < 0] in the byte
    loop fails and a byte equal to the delimiter is written by a single
    [WriteRune(w.Delimiter)], with or without quoting. *)
Theorem older_revision_never_escapes_the_delimiter
        (W : Type) (IOW : IoWriter W)
        (d q e t : gostring) (dest : W) (cw : CsvRune.Writer W) :
  Forall (fun c => 0 <= c)%Z q ->
  Main.configureWriterRune d q e t dest = Main.Continue cw ->
  (0 <= CsvRune.Quote cw)%Z /\
  forall b,
    CsvRune.writeFieldByte cw (CsvRune.Delimiter cw) b =
    CsvRune.writeRune (CsvRune.Delimiter cw) b.
Proof.
  intros Hq Hc.
  assert (Hquote : (0 <= CsvRune.Quote cw)%Z).
  { unfold Main.configureWriterRune in Hc.
    pose proof (DecodeLastRuneInString_nonneg Hq) as Hn.
    destruct (Utf8.DecodeLastRuneInString d) as [dr di].
    destruct (Utf8.DecodeLastRuneInString q) as [qr qi].
    destruct (Utf8.DecodeLastRuneInString e) as [er ei].
    destruct (di =? 0)%Z; [discriminate Hc|].
    destruct (qi =? 0)%Z; [discriminate Hc|].
    destruct (ei =? 0)%Z; [discriminate Hc|].
    inversion Hc; subst cw; exact Hn. }
  split; [exact Hquote|].
  intros b; unfold CsvRune.writeFieldByte.
  rewrite Z.eqb_refl.
  destruct (Z.ltb_spec (CsvRune.Quote cw) 0) as [Hlt|_]; [lia | reflexivity].
Qed.

(** The flags [;], [x-quote] and backslash: the symbol is the last byte of
    each value. *)
Lemma older_revision_never_escapes_the_delimiter_witness :
  exists cw : CsvRune.Writer BytesBuffer,
    Main.configureWriterRune [59%Z] [120; 39]%Z [backslash] [LF] []
    = Main.Continue cw /\
    CsvRune.Quote cw = 39%Z /\
    forall b,
      CsvRune.writeFieldByte cw (CsvRune.Delimiter cw) b =
      CsvRune.writeRune (CsvRune.Delimiter cw) b.
Proof.
  assert (Hc : exists cw : CsvRune.Writer BytesBuffer,
             Main.configureWriterRune [59%Z] [120; 39]%Z [backslash] [LF] []
             = Main.Continue cw /\ CsvRune.Quote cw = 39%Z)
    by (eexists; split; cbv; reflexivity).
  destruct Hc as (cw & Hc & Hq).
  exists cw; split; [exact Hc|]; split; [exact Hq|].
  refine (proj2 (@older_revision_never_escapes_the_delimiter
                   _ _ [59%Z] [120; 39]%Z [backslash] [LF] [] cw _ Hc)).
  repeat constructor; lia.
Defined.

(** * A row that fits into the buffer *)

(** X15.  On any sink, when no error is recorded and the line of the
    record fits into what is left of the buffer, [Write] only appends the
    line to the pending bytes: the sink is not called, so no error can
    come back, even from a sink that fails every write.  The [Flush] that
    follows hands the pending bytes to the sink in a single write, and
    records an error exactly when that write reports one or is short. *)
Theorem row_that_fits_is_written_at_Flush (W : Type) (IOW : IoWriter W)
        (cw : Csv.Writer W) (record : list Csv.RawBytes) :
  Bufio.err (Csv.w cw) = None ->
  length (Bufio.buf (Csv.w cw)) + length (Emitted.ofRecord cw record)
  <= Bufio.size (Csv.w cw) ->
  Csv.Write cw record =
  ((length (Bufio.buf (Csv.w cw)) + length (Emitted.ofRecord cw record),
    None),
   Csv.with_w cw
     (Bufio.mkWriter None
        (Bufio.buf (Csv.w cw) ++ Emitted.ofRecord cw record)
        (Bufio.size (Csv.w cw)) (Bufio.wr (Csv.w cw))))
  /\ forall wr' n e,
      Bufio.buf (Csv.w cw) ++ Emitted.ofRecord cw record <> [] ->
      io_Write (Bufio.wr (Csv.w cw))
               (Bufio.buf (Csv.w cw) ++ Emitted.ofRecord cw record)
      = (wr', (n, e)) ->
      Bufio.wr (Csv.w (Csv.Flush (snd (Csv.Write cw record)))) = wr' /\
      (Bufio.err (Csv.w (Csv.Flush (snd (Csv.Write cw record)))) = None <->
       e = None /\
       length (Bufio.buf (Csv.w cw) ++ Emitted.ofRecord cw record) <= n).
Proof.
  intros He Hfit.
  assert (HW : Csv.Write cw record =
    ((length (Bufio.buf (Csv.w cw)) + length (Emitted.ofRecord cw record),
      None),
     Csv.with_w cw
       (Bufio.mkWriter None
          (Bufio.buf (Csv.w cw) ++ Emitted.ofRecord cw record)
          (Bufio.size (Csv.w cw)) (Bufio.wr (Csv.w cw))))).
  { unfold Csv.Write.
    rewrite (Write_on_appends cw record (Csv.w cw) He Hfit); reflexivity. }
  split; [exact HW|].
  intros wr' n e Hne Hw; rewrite HW.
  unfold Csv.Flush; cbn [snd Csv.w Csv.with_w].
  set (b1 := Bufio.mkWriter None
               (Bufio.buf (Csv.w cw) ++ Emitted.ofRecord cw record)
               (Bufio.size (Csv.w cw)) (Bufio.wr (Csv.w cw))).
  destruct (Flush_cases b1)
    as [[x [He1 _]] | [[_ [Hb _]] | [_ [_ [wr1 [n1 [e1 [Hw1
         [[x [Hx H]] | [He1 [Hn1 H]]]]]]]]]]].
  - discriminate He1.
  - contradiction.
  - cbn [Bufio.wr Bufio.buf b1] in Hw1.
    rewrite Hw in Hw1; inversion Hw1; subst wr1 n1 e1.
    rewrite H; cbn [snd Bufio.wr Bufio.err]; split; [reflexivity|].
    split; [discriminate|].
    intros [He' Hn'].
    destruct Hx as [Hx | (_ & Hx & _)]; [congruence|].
    cbn [Bufio.buf b1] in Hx; lia.
  - cbn [Bufio.wr Bufio.buf b1] in Hw1, Hn1.
    rewrite Hw in Hw1; inversion Hw1; subst wr1 n1 e1.
    rewrite H; cbn [snd Bufio.wr Bufio.err]; split; [reflexivity|].
    split; auto.
Qed.

(** The test file's sink that fails every write: [Write] reports nothing,
    the error is there after [Flush]. *)
Lemma row_that_fits_is_written_at_Flush_witness :
  Csv.Write (Csv.NewWriter (W:=errorWriter) tt) [Some [97%Z]; None]
  = ((7, None),
     Csv.with_w (Csv.NewWriter (W:=errorWriter) tt)
       (Bufio.mkWriter None [34; 97; 34; 44; 92; 78; 10]%Z 4096 tt))
  /\ Bufio.err (Csv.w (Csv.Flush
       (snd (Csv.Write (Csv.NewWriter (W:=errorWriter) tt)
                       [Some [97%Z]; None])))) <> None.
Proof.
  assert (He : Bufio.err (Csv.w (Csv.NewWriter (W:=errorWriter) tt)) = None)
    by reflexivity.
  assert (Hfit :
    length (Bufio.buf (Csv.w (Csv.NewWriter (W:=errorWriter) tt)))
    + length (Emitted.ofRecord (Csv.NewWriter (W:=errorWriter) tt)
                               [Some [97%Z]; None])
    <= Bufio.size (Csv.w (Csv.NewWriter (W:=errorWriter) tt)))
    by (vm_compute; lia).
  pose proof (@row_that_fits_is_written_at_Flush _ _
                (Csv.NewWriter (W:=errorWriter) tt) [Some [97%Z]; None]
                He Hfit) as [HW HF].
  split; [exact HW|].
  intros Herr.
  assert (Hne : Bufio.buf (Csv.w (Csv.NewWriter (W:=errorWriter) tt))
                ++ Emitted.ofRecord (Csv.NewWriter (W:=errorWriter) tt)
                                    [Some [97%Z]; None] <> [])
    by (vm_compute; discriminate).
  destruct (HF tt 0 (Some "Test"%string) Hne eq_refl) as [_ [Hnone _]].
  destruct (Hnone Herr) as [Habs _]; discriminate Habs.
Defined.

(** * readPassword *)

Lemma nth_last_app (A : Type) (l : list A) (x d : A) :
  nth (length (l ++ [x]) - 1) (l ++ [x]) d = x.
Proof.
  rewrite length_app; simpl.
  replace (length l + 1 - 1) with (length l) by lia.
  rewrite app_nth2 by lia; rewrite Nat.sub_diag; reflexivity.
Qed.

Lemma nth_In_not (l : list byte) (i : nat) (c : byte) :
  i < length l -> ~ In c l -> (nth i l 0 =? c)%Z = false.
Proof.
  intros Hi Hn; apply Z.eqb_neq; intros E.
  apply Hn; rewrite <- E; apply nth_In; exact Hi.
Qed.

Lemma firstn_length_app (A : Type) (l r : list A) :
  firstn (length l) (l ++ r) = l.
Proof.
  rewrite firstn_app, Nat.sub_diag, firstn_all; simpl.
  apply app_nil_r.
Qed.

(** A line of at most [bufLen] bytes is handed out in one read. *)
Lemma line_reads_upto_short rounds (line : list byte) :
  line <> [] -> length line <= Stdin.bufLen -> 0 < rounds ->
  Stdin.line_reads_upto rounds line = [Stdin.ReadN line].
Proof.
  intros Hne Hlen Hr.
  destruct rounds as [|k]; [lia|].
  destruct line as [|c l]; [contradiction|].
  cbn [Stdin.line_reads_upto].
  rewrite firstn_all2 by exact Hlen.
  rewrite skipn_all2 by exact Hlen.
  destruct k; reflexivity.
Qed.

(** A longer line gives a full read and leaves the rest. *)
Lemma line_reads_upto_long rounds (a rest : list byte) :
  length a = Stdin.bufLen ->
  Stdin.line_reads_upto (S rounds) (a ++ rest) =
  Stdin.ReadN a :: Stdin.line_reads_upto rounds rest.
Proof.
  intros Ha.
  destruct a as [|c a']; [discriminate Ha|].
  change ((c :: a') ++ rest) with (c :: (a' ++ rest)).
  cbn [Stdin.line_reads_upto].
  change (c :: (a' ++ rest)) with ((c :: a') ++ rest).
  rewrite <- Ha, firstn_length_app.
  rewrite skipn_app, Nat.sub_diag, skipn_all; reflexivity.
Qed.

Lemma split_at_bufLen (pw : list byte) :
  Stdin.bufLen <= length pw ->
  exists a b, pw = a ++ b /\ length a = Stdin.bufLen.
Proof.
  intros H; exists (firstn Stdin.bufLen pw), (skipn Stdin.bufLen pw).
  split; [symmetry; apply firstn_skipn|].
  rewrite length_firstn; lia.
Qed.

Lemma unix_loop_line rounds : forall (pw ret : list byte) more,
  length pw < rounds -> ~ In LF pw ->
  PasswordUnix.readPassword_loop
    (Stdin.line_reads_upto rounds (pw ++ [LF]) ++ more) ret
  = Stdin.Returned (ret ++ pw).
Proof.
  induction rounds as [|k IH]; intros pw ret more Hk Hn; [lia|].
  destruct (Nat.lt_ge_cases (length pw) Stdin.bufLen) as [Hshort | Hlong].
  - rewrite line_reads_upto_short;
      [| destruct pw; discriminate
       | rewrite length_app; simpl; lia
       | lia ].
    cbn [app PasswordUnix.readPassword_loop].
    rewrite nth_last_app, Z.eqb_refl.
    rewrite length_app; cbn [length].
    replace (length pw + 1 =? 0) with false
      by (symmetry; apply Nat.eqb_neq; lia).
    replace (length pw + 1 - 1) with (length pw) by lia.
    rewrite firstn_length_app.
    replace (length pw <? Stdin.bufLen) with true
      by (symmetry; apply Nat.ltb_lt; exact Hshort).
    reflexivity.
  - destruct (split_at_bufLen pw Hlong) as (a & b & -> & Ha).
    rewrite <- app_assoc, (@line_reads_upto_long k a (b ++ [LF]) Ha).
    cbn [app PasswordUnix.readPassword_loop].
    rewrite Ha.
    replace (Stdin.bufLen =? 0) with false by reflexivity.
    rewrite nth_In_not;
      [| rewrite Ha; unfold Stdin.bufLen; lia
       | intros Hin; apply Hn; apply in_or_app; left; exact Hin ].
    replace (firstn Stdin.bufLen a) with a
      by (rewrite <- Ha; symmetry; apply firstn_all).
    replace (Stdin.bufLen <? Stdin.bufLen) with false by reflexivity.
    rewrite IH;
      [ rewrite app_assoc; reflexivity
      | rewrite length_app in Hk; unfold Stdin.bufLen in Ha; lia
      | intros Hin; apply Hn; apply in_or_app; right; exact Hin ].
Qed.

(** X16.  The Unix [readPassword] returns what was typed: when the
    password, which holds no line feed, followed by a line feed is handed
    out in reads of 16 bytes, the loop returns exactly the password, of any
    length, and takes no read beyond that line. *)
Theorem unix_readPassword_returns_the_line (pw : list byte)
        (more : list Stdin.read_result) :
  ~ In LF pw ->
  PasswordUnix.readPassword (Stdin.line_reads (pw ++ [LF]) ++ more)
  = Stdin.Returned pw.
Proof.
  intros Hn; unfold PasswordUnix.readPassword, Stdin.line_reads.
  rewrite unix_loop_line; [reflexivity | | exact Hn].
  rewrite length_app; simpl; lia.
Qed.

(** Sixteen characters: a full read, then the line feed alone. *)
Lemma unix_readPassword_returns_the_line_witness :
  PasswordUnix.readPassword
    (Stdin.line_reads (repeat 97%Z 16 ++ [LF]) ++ [Stdin.ReadErr "x"])
  = Stdin.Returned (repeat 97%Z 16).
Proof.
  apply (@unix_readPassword_returns_the_line (repeat 97%Z 16)
           [Stdin.ReadErr "x"]).
  simpl; unfold LF; intros H.
  repeat (destruct H as [H | H]; [discriminate H|]); exact H.
Defined.

(** ** The Windows variant *)

Lemma nth_length_snoc (A : Type) (l : list A) (x d : A) :
  nth (length l) (l ++ [x]) d = x.
Proof.
  rewrite app_nth2 by lia; rewrite Nat.sub_diag; reflexivity.
Qed.

Lemma win_loop_line rounds : forall (pw ret : list byte) more,
  length pw + 1 < rounds -> ~ In LF pw -> ~ In CR pw ->
  PasswordWin.readPassword_loop
    (Stdin.line_reads_upto rounds (pw ++ [CR; LF]) ++ more) ret
  = Stdin.Returned (ret ++ pw).
Proof.
  induction rounds as [|k IH]; intros pw ret more Hk Hn Hc; [lia|].
  destruct (Nat.lt_ge_cases (length pw) Stdin.bufLen) as [Hshort | Hlong];
    [destruct (Nat.eq_dec (length pw) 15) as [H15 | H15]|].
  - (* the carriage return fills the buffer, the line feed stays behind *)
    change (pw ++ [CR; LF]) with (pw ++ [CR] ++ [LF]).
    rewrite app_assoc.
    assert (Ha : length (pw ++ [CR]) = Stdin.bufLen)
      by (rewrite length_app, H15; reflexivity).
    rewrite (@line_reads_upto_long k (pw ++ [CR]) [LF] Ha).
    cbn [app PasswordWin.readPassword_loop].
    rewrite Ha.
    replace (Stdin.bufLen =? 0) with false by reflexivity.
    replace (Stdin.bufLen - 1) with (length pw) by (rewrite H15; reflexivity).
    rewrite !nth_length_snoc.
    replace (CR =? LF)%Z with false by reflexivity.
    replace (Stdin.bufLen =? 0) with false by reflexivity.
    replace (Stdin.bufLen - 1) with (length pw) by (rewrite H15; reflexivity).
    rewrite !nth_length_snoc, Z.eqb_refl, firstn_length_app.
    replace (length pw <? Stdin.bufLen) with true
      by (symmetry; apply Nat.ltb_lt; exact Hshort).
    reflexivity.
  - (* the line fits into one read *)
    unfold Stdin.bufLen in Hshort.
    rewrite line_reads_upto_short;
      [| destruct pw; discriminate
       | rewrite length_app; unfold Stdin.bufLen; simpl; lia
       | lia ].
    cbn [app PasswordWin.readPassword_loop].
    change (pw ++ [CR; LF]) with (pw ++ [CR] ++ [LF]).
    rewrite app_assoc, nth_last_app, Z.eqb_refl.
    rewrite length_app; cbn [length].
    replace (length (pw ++ [CR]) + 1 =? 0) with false
      by (symmetry; apply Nat.eqb_neq; lia).
    replace (length (pw ++ [CR]) + 1 - 1) with (length (pw ++ [CR])) by lia.
    replace (length (pw ++ [CR]) =? 0) with false
      by (symmetry; apply Nat.eqb_neq; rewrite length_app; simpl; lia).
    rewrite app_nth1 by (rewrite length_app; simpl; lia).
    rewrite nth_last_app, Z.eqb_refl.
    rewrite length_app; cbn [length].
    replace (length pw + 1 - 1) with (length pw) by lia.
    rewrite <- app_assoc, firstn_length_app.
    replace (length pw <? Stdin.bufLen) with true
      by (symmetry; apply Nat.ltb_lt; unfold Stdin.bufLen; lia).
    reflexivity.
  - destruct (split_at_bufLen pw Hlong) as (a & b & -> & Ha).
    rewrite <- app_assoc, (@line_reads_upto_long k a (b ++ [CR; LF]) Ha).
    cbn [app PasswordWin.readPassword_loop].
    rewrite Ha.
    replace (Stdin.bufLen =? 0) with false by reflexivity.
    rewrite nth_In_not;
      [| rewrite Ha; unfold Stdin.bufLen; lia
       | intros Hin; apply Hn; apply in_or_app; left; exact Hin ].
    replace (Stdin.bufLen =? 0) with false by reflexivity.
    rewrite nth_In_not;
      [| rewrite Ha; unfold Stdin.bufLen; lia
       | intros Hin; apply Hc; apply in_or_app; left; exact Hin ].
    replace (firstn Stdin.bufLen a) with a
      by (rewrite <- Ha; symmetry; apply firstn_all).
    replace (Stdin.bufLen <? Stdin.bufLen) with false by reflexivity.
    rewrite IH;
      [ rewrite app_assoc; reflexivity
      | rewrite length_app in Hk; unfold Stdin.bufLen in Ha; lia
      | intros Hin; apply Hn; apply in_or_app; right; exact Hin
      | intros Hin; apply Hc; apply in_or_app; right; exact Hin ].
Qed.

(** X17.  The Windows [readPassword] returns what was typed when the
    line ends in carriage return and line feed: for a password of any
    length that holds neither of the two, handed out in reads of 16
    bytes, the loop returns exactly the password. *)
Theorem win_readPassword_returns_the_line (pw : list byte)
        (more : list Stdin.read_result) :
  ~ In LF pw -> ~ In CR pw ->
  PasswordWin.readPassword (Stdin.line_reads (pw ++ [CR; LF]) ++ more)
  = Stdin.Returned pw.
Proof.
  intros Hn Hc; unfold PasswordWin.readPassword, Stdin.line_reads.
  rewrite win_loop_line; [reflexivity | | exact Hn | exact Hc].
  rewrite length_app; simpl; lia.
Qed.

(** Fifteen characters: the carriage return is the last byte of the
    read. *)
Lemma win_readPassword_returns_the_line_witness :
  PasswordWin.readPassword
    (Stdin.line_reads (repeat 97%Z 15 ++ [CR; LF]) ++ [])
  = Stdin.Returned (repeat 97%Z 15).
Proof.
  apply (@win_readPassword_returns_the_line (repeat 97%Z 15) []);
    simpl; unfold LF, CR; intros H;
    repeat (destruct H as [H | H]; [discriminate H|]); exact H.
Defined.

Lemma win_loop_panics rounds : forall (m : nat) (pw ret : list byte) more,
  length pw < rounds -> length pw = Stdin.bufLen * m ->
  ~ In LF pw -> ~ In CR pw ->
  PasswordWin.readPassword_loop
    (Stdin.line_reads_upto rounds (pw ++ [LF]) ++ more) ret
  = Stdin.Panicked PasswordWin.index_out_of_range.
Proof.
  induction rounds as [|k IH]; intros m pw ret more Hk Hm Hn Hc; [lia|].
  destruct m as [|m].
  - rewrite Nat.mul_0_r in Hm.
    destruct pw; [|discriminate Hm]; reflexivity.
  - assert (Hlong : Stdin.bufLen <= length pw) by (rewrite Hm; lia).
    destruct (split_at_bufLen pw Hlong) as (a & b & -> & Ha).
    rewrite <- app_assoc, (@line_reads_upto_long k a (b ++ [LF]) Ha).
    cbn [app PasswordWin.readPassword_loop].
    rewrite Ha.
    replace (Stdin.bufLen =? 0) with false by reflexivity.
    rewrite nth_In_not;
      [| rewrite Ha; unfold Stdin.bufLen; lia
       | intros Hin; apply Hn; apply in_or_app; left; exact Hin ].
    replace (Stdin.bufLen =? 0) with false by reflexivity.
    rewrite nth_In_not;
      [| rewrite Ha; unfold Stdin.bufLen; lia
       | intros Hin; apply Hc; apply in_or_app; left; exact Hin ].
    replace (Stdin.bufLen <? Stdin.bufLen) with false by reflexivity.
    apply (IH m);
      [ rewrite length_app in Hk; unfold Stdin.bufLen in Ha; lia
      | rewrite length_app, Ha in Hm; lia
      | intros Hin; apply Hn; apply in_or_app; right; exact Hin
      | intros Hin; apply Hc; apply in_or_app; right; exact Hin ].
Qed.

(** X18.  The Windows [readPassword] panics on a line that ends in a
    line feed alone when the length of the password is a multiple of 16
    (the empty password included): the last read is the line feed by
    itself, dropping it leaves [n] at 0, and the test for a carriage
    return reads [buf[n-1]]. *)
Theorem win_readPassword_panics_on_bare_line_feed (pw : list byte)
        (m : nat) (more : list Stdin.read_result) :
  length pw = 16 * m -> ~ In LF pw -> ~ In CR pw ->
  PasswordWin.readPassword (Stdin.line_reads (pw ++ [LF]) ++ more)
  = Stdin.Panicked PasswordWin.index_out_of_range.
Proof.
  intros Hm Hn Hc; unfold PasswordWin.readPassword, Stdin.line_reads.
  apply (@win_loop_panics _ m); [ | exact Hm | exact Hn | exact Hc].
  rewrite length_app; simpl; lia.
Qed.

(** The empty password. *)
Lemma win_readPassword_panics_on_bare_line_feed_witness :
  PasswordWin.readPassword (Stdin.line_reads ([] ++ [LF]) ++ [])
  = Stdin.Panicked PasswordWin.index_out_of_range.
Proof.
  apply (@win_readPassword_panics_on_bare_line_feed [] 0 []);
    [reflexivity | intros H; exact H | intros H; exact H].
Defined.

(** ** Input that ends without a line feed *)

Lemma line_reads_upto_nil rounds : Stdin.line_reads_upto rounds [] = [].
Proof. destruct rounds; reflexivity. Qed.

Lemma unix_loop_end_of_input rounds : forall (pw ret : list byte) more,
  length pw <= rounds -> ~ In LF pw -> ret ++ pw <> [] ->
  PasswordUnix.readPassword_loop
    (Stdin.line_reads_upto rounds pw ++ Stdin.ReadN [] :: more) ret
  = Stdin.Returned (ret ++ pw).
Proof.
  induction rounds as [|k IH]; intros pw ret more Hk Hn Hne.
  - destruct pw; [|simpl in Hk; lia].
    rewrite app_nil_r in *; simpl.
    destruct ret; [contradiction | reflexivity].
  - destruct pw as [|c pw'] eqn:Epw.
    { rewrite app_nil_r in *; simpl.
      destruct ret; [contradiction | reflexivity]. }
    rewrite <- Epw in *.
    assert (Hpos : 0 < length pw) by (rewrite Epw; simpl; lia).
    clear Epw c pw'.
    destruct (Nat.lt_ge_cases (length pw) Stdin.bufLen) as [Hshort | Hlong].
    + rewrite line_reads_upto_short;
        [| intros E; rewrite E in Hpos; simpl in Hpos; lia
         | lia
         | lia ].
      cbn [app PasswordUnix.readPassword_loop].
      replace (length pw =? 0) with false
        by (symmetry; apply Nat.eqb_neq; lia).
      rewrite nth_In_not; [| lia | exact Hn].
      rewrite firstn_all.
      replace (length pw <? Stdin.bufLen) with true
        by (symmetry; apply Nat.ltb_lt; exact Hshort).
      reflexivity.
    + destruct (split_at_bufLen pw Hlong) as (a & b & -> & Ha).
      rewrite (@line_reads_upto_long k a b Ha).
      cbn [app PasswordUnix.readPassword_loop].
      rewrite Ha.
      replace (Stdin.bufLen =? 0) with false by reflexivity.
      rewrite nth_In_not;
        [| rewrite Ha; unfold Stdin.bufLen; lia
         | intros Hin; apply Hn; apply in_or_app; left; exact Hin ].
      replace (firstn Stdin.bufLen a) with a
        by (rewrite <- Ha; symmetry; apply firstn_all).
      replace (Stdin.bufLen <? Stdin.bufLen) with false by reflexivity.
      rewrite IH;
        [ rewrite app_assoc; reflexivity
        | rewrite length_app in Hk; unfold Stdin.bufLen in Ha; lia
        | intros Hin; apply Hn; apply in_or_app; right; exact Hin
        | rewrite <- app_assoc; exact Hne ].
Qed.

(** X19.  The Unix [readPassword] at the end of the input: when the
    input holds a password without a line feed and then ends (a read of 0
    bytes), the loop returns the password, whether or not its length is a
    multiple of 16; only when nothing at all was read does it return
    [io.EOF]. *)
Theorem unix_readPassword_at_end_of_input (pw : list byte)
        (more : list Stdin.read_result) :
  ~ In LF pw ->
  PasswordUnix.readPassword
    (Stdin.line_reads pw ++ Stdin.ReadN [] :: more)
  = match pw with
    | [] => Stdin.Failed Stdin.EOF
    | _ :: _ => Stdin.Returned pw
    end.
Proof.
  intros Hn; unfold PasswordUnix.readPassword, Stdin.line_reads.
  destruct pw as [|c pw'] eqn:Epw; [reflexivity|].
  rewrite <- Epw in *.
  rewrite unix_loop_end_of_input;
    [reflexivity | lia | exact Hn | rewrite Epw; discriminate].
Qed.

Lemma unix_readPassword_at_end_of_input_witness :
  PasswordUnix.readPassword
    (Stdin.line_reads (repeat 97%Z 32) ++ Stdin.ReadN [] :: [])
  = Stdin.Returned (repeat 97%Z 32).
Proof.
  apply (@unix_readPassword_at_end_of_input (repeat 97%Z 32) []).
  simpl; unfold LF; intros H.
  repeat (destruct H as [H | H]; [discriminate H|]); exact H.
Defined.

(** * A line determines its record *)

Section RecordInjective.

Context {W : Type}.
Variables (cw : Csv.Writer W) (d q e : byte).
Hypothesis Hd : Csv.Delimiter cw = [d].
Hypothesis Hq : Csv.Quote cw = [q].
Hypothesis He : Csv.Escape cw = [e].
Hypothesis Hq7 : (q < 128)%Z.
Hypothesis He7 : (e < 128)%Z.
Hypothesis Hde : d <> e.
Hypothesis Hdq : d <> q.
Hypothesis Heq : e <> q.
Hypothesis Hq0 : q <> digit_0.
Hypothesis He0 : e <> digit_0.

(** What is written for a byte of a field never starts with the quote
    symbol. *)
Lemma ofByte_starts (f : byte) :
  exists x rest, Emitted.ofByte cw f = x :: rest /\ x <> q.
Proof.
  unfold Emitted.ofByte; rewrite Hd, Hq, He.
  destruct (bytes_eqb (string_of_byte f) [d]) eqn:Ed.
  { apply bytes_eqb_eq, string_of_byte_single in Ed; destruct Ed as [-> _].
    simpl; eauto. }
  destruct (bytes_eqb (string_of_byte f) [q]) eqn:Eq;
    [simpl; eauto|].
  destruct (bytes_eqb (string_of_byte f) [e]); [simpl; eauto|].
  destruct (bytes_eqb (string_of_byte f) [0%Z]); [simpl; eauto|].
  destruct (bytes_eqb (string_of_byte f) [LF]); [simpl; eauto|].
  exists f, []; split; [reflexivity|].
  intros ->; apply (bytes_eqb_single_false Eq); auto.
Qed.

Lemma ofBytes_cons (f : byte) (a : list byte) :
  Emitted.ofBytes cw (f :: a) = Emitted.ofByte cw f ++ Emitted.ofBytes cw a.
Proof. reflexivity. Qed.

(** The bytes of a field up to its closing quote. *)
Lemma ofBytes_quote_inj (a : list byte) : forall b r s,
  Emitted.ofBytes cw a ++ q :: r = Emitted.ofBytes cw b ++ q :: s ->
  a = b /\ r = s.
Proof.
  induction a as [|f a IH]; intros [|g b] r s H.
  - simpl in H; inversion H; auto.
  - exfalso.
    rewrite ofBytes_cons, <- app_assoc in H.
    destruct (ofByte_starts g) as (x & t & Eg & Hx).
    rewrite Eg in H; inversion H; subst; contradiction.
  - exfalso.
    rewrite ofBytes_cons, <- app_assoc in H.
    destruct (ofByte_starts f) as (x & t & Ef & Hx).
    rewrite Ef in H; inversion H; subst; contradiction.
  - rewrite !ofBytes_cons, <- !app_assoc in H.
    apply (@ofByte_app_inj _ cw d q e Hd Hq He Hq7 He7 Hde Hq0 He0) in H.
    destruct H as [-> H].
    destruct (IH _ _ _ H) as [-> ->]; auto.
Qed.

Lemma ofField_app_inj (x y : Csv.RawBytes) (r s : list byte) :
  Emitted.ofField cw x ++ r = Emitted.ofField cw y ++ s ->
  x = y /\ r = s.
Proof.
  destruct x as [a|]; destruct y as [b|]; unfold Emitted.ofField;
    rewrite ?Hq, ?He; simpl; intros H; inversion H as [H1].
  - rewrite <- !app_assoc in H1; simpl in H1.
    destruct (ofBytes_quote_inj _ _ _ _ H1) as [-> ->]; auto.
  - exfalso; apply Heq; symmetry; assumption.
  - exfalso; apply Heq; assumption.
  - auto.
Qed.

Lemma ofFields_inj (r1 : list Csv.RawBytes) : forall n r2,
  Emitted.ofFields cw n r1 = Emitted.ofFields cw n r2 -> r1 = r2.
Proof.
  induction r1 as [|x r1 IH]; intros n [|y r2] H.
  - reflexivity.
  - exfalso; simpl in H.
    unfold Emitted.separator, Emitted.ofField in H; rewrite Hd, Hq, He in H.
    destruct (0 <? n); destruct y; discriminate H.
  - exfalso; simpl in H.
    unfold Emitted.separator, Emitted.ofField in H; rewrite Hd, Hq, He in H.
    destruct (0 <? n); destruct x; discriminate H.
  - simpl in H.
    apply app_inv_head in H.
    apply ofField_app_inj in H; destruct H as [-> H].
    rewrite (IH _ _ H); reflexivity.
Qed.

End RecordInjective.

(** X20.  A line determines its record.  With quoting on, single-byte
    delimiter, quote and escape symbols that are pairwise different,
    quote and escape below 0x80 and neither of them the digit 0: two
    records that [Write] encodes to the same line over a [bytes.Buffer]
    are the same record, field by field and null by null. *)
Theorem line_determines_record (cw : Csv.Writer BytesBuffer) (d q e : byte)
        (r1 r2 : list Csv.RawBytes) :
  sound (Csv.w cw) ->
  Csv.Delimiter cw = [d] -> Csv.Quote cw = [q] -> Csv.Escape cw = [e] ->
  (q < 128)%Z -> (e < 128)%Z ->
  d <> e -> d <> q -> e <> q -> q <> digit_0 -> e <> digit_0 ->
  written (Csv.w (snd (Csv.Write cw r1))) =
  written (Csv.w (snd (Csv.Write cw r2))) ->
  r1 = r2.
Proof.
  intros Hs Hd Hq He Hq7 He7 Hde Hdq Heq Hq0 He0 H.
  destruct (Write_emits cw r1 Hs) as (b1 & E1 & _ & Hw1 & _).
  destruct (Write_emits cw r2 Hs) as (b2 & E2 & _ & Hw2 & _).
  rewrite E1, E2 in H; simpl in H; rewrite Hw1, Hw2 in H.
  apply app_inv_head in H.
  unfold Emitted.ofRecord in H; apply app_inv_tail in H.
  exact (@ofFields_inj _ cw d q e Hd Hq He Hq7 He7 Hde Hdq Heq Hq0 He0
           r1 0 r2 H).
Qed.

Lemma line_determines_record_witness :
  sound (Csv.w (Csv.NewWriter ([] : BytesBuffer))) /\
  [Some [34; 44]%Z; None; Some []] = [Some [34; 44]%Z; None; Some []].
Proof.
  assert (Hs : sound (Csv.w (Csv.NewWriter ([] : BytesBuffer)))).
  { unfold sound; simpl; unfold Bufio.defaultBufSize; repeat split; lia. }
  split; [exact Hs|].
  refine (@line_determines_record (Csv.NewWriter ([] : BytesBuffer))
            comma dquote backslash
            [Some [34; 44]%Z; None; Some []] [Some [34; 44]%Z; None; Some []]
            Hs eq_refl eq_refl eq_refl _ _ _ _ _ _ _ eq_refl);
    unfold comma, dquote, backslash, digit_0; lia.
Defined.

(** With the delimiter as quote symbol the condition fails and so does
    the conclusion: one field holding the three bytes quote, quote, quote
    and two empty fields are written alike. *)
Lemma line_is_ambiguous_when_delimiter_is_quote :
  write_flush (fresh [dquote] [dquote] [backslash] [LF])
              [Some [dquote; dquote; dquote]] =
  write_flush (fresh [dquote] [dquote] [backslash] [LF])
              [Some []; Some []].
Proof. vm_compute; reflexivity. Qed.

(** * An export determines its rows *)

Section ExportInjective.

Context {W : Type}.
Variables (cw : Csv.Writer W) (d q e t0 : byte) (t : list byte).
Hypothesis Hd : Csv.Delimiter cw = [d].
Hypothesis Hq : Csv.Quote cw = [q].
Hypothesis He : Csv.Escape cw = [e].
Hypothesis Ht : Csv.Terminator cw = t0 :: t.
Hypothesis Hq7 : (q < 128)%Z.
Hypothesis He7 : (e < 128)%Z.
Hypothesis Hde : d <> e.
Hypothesis Hdq : d <> q.
Hypothesis Heq : e <> q.
Hypothesis Hq0 : q <> digit_0.
Hypothesis He0 : e <> digit_0.
Hypothesis Htd : t0 <> d.
Hypothesis Htq : t0 <> q.
Hypothesis Hte : t0 <> e.

(** A field, with its separator, never starts with the first byte of the
    terminator. *)
Lemma field_starts (n : nat) (x : Csv.RawBytes) (r : list byte) :
  exists c rest,
    Emitted.separator cw n ++ Emitted.ofField cw x ++ r = c :: rest /\
    c <> t0.
Proof.
  unfold Emitted.separator, Emitted.ofField; rewrite Hd, Hq, He.
  destruct (0 <? n); destruct x; simpl; eauto.
Qed.

(** The fields of a record up to the terminator. *)
Lemma ofFields_terminator_inj (r1 : list Csv.RawBytes) : forall n r2 x1 x2,
  Emitted.ofFields cw n r1 ++ Csv.Terminator cw ++ x1 =
  Emitted.ofFields cw n r2 ++ Csv.Terminator cw ++ x2 ->
  r1 = r2 /\ x1 = x2.
Proof.
  induction r1 as [|x r1 IH]; intros n [|y r2] x1 x2 H.
  - simpl in H; apply app_inv_head in H; auto.
  - exfalso; simpl in H; rewrite <- !app_assoc in H.
    destruct (field_starts n y
                (Emitted.ofFields cw (S n) r2 ++ Csv.Terminator cw ++ x2))
      as (c & rest & E & Hc).
    rewrite E, Ht in H; inversion H; subst; contradiction.
  - exfalso; simpl in H; rewrite <- !app_assoc in H.
    destruct (field_starts n x
                (Emitted.ofFields cw (S n) r1 ++ Csv.Terminator cw ++ x1))
      as (c & rest & E & Hc).
    rewrite E, Ht in H; inversion H; subst; contradiction.
  - simpl in H; rewrite <- !app_assoc in H.
    apply app_inv_head in H.
    apply (@ofField_app_inj _ cw d q e Hd Hq He Hq7 He7 Hde Hdq Heq Hq0 He0)
      in H.
    destruct H as [-> H].
    destruct (IH _ _ _ _ H) as [-> ->]; auto.
Qed.

Lemma ofRecords_inj (rows1 : list (list Csv.RawBytes)) : forall rows2,
  flat_map (Emitted.ofRecord cw) rows1 = flat_map (Emitted.ofRecord cw) rows2 ->
  rows1 = rows2.
Proof.
  induction rows1 as [|r1 rows1 IH]; intros [|r2 rows2] H.
  - reflexivity.
  - exfalso; simpl in H; unfold Emitted.ofRecord in H.
    apply (f_equal (@length byte)) in H.
    rewrite !length_app, Ht in H; simpl in H; lia.
  - exfalso; simpl in H; unfold Emitted.ofRecord in H.
    apply (f_equal (@length byte)) in H.
    rewrite !length_app, Ht in H; simpl in H; lia.
  - simpl in H; unfold Emitted.ofRecord at 1 3 in H.
    rewrite <- !app_assoc in H.
    apply ofFields_terminator_inj in H; destruct H as [-> H].
    rewrite (IH _ H); reflexivity.
Qed.

End ExportInjective.

(** What [WriteAll] leaves in a [bytes.Buffer]. *)
Lemma WriteAll_wr (records : list (list Csv.RawBytes)) :
  forall cw : Csv.Writer BytesBuffer,
  sound (Csv.w cw) ->
  Bufio.wr (Csv.w (snd (Csv.WriteAll cw records))) =
  written (Csv.w cw) ++ flat_map (Emitted.ofRecord cw) records.
Proof.
  induction records as [|record rest IH]; intros cw Hs.
  - destruct (Flush_sound Hs) as (b' & Hf & _ & _ & _ & Hwr).
    simpl; rewrite Hf, app_nil_r; exact Hwr.
  - destruct (Write_emits cw record Hs) as (b1 & E1 & Hb1 & Hw1 & _).
    cbn [Csv.WriteAll]; rewrite E1.
    etransitivity; [exact (IH (Csv.with_w cw b1) Hb1)|].
    cbn [Csv.w Csv.with_w flat_map]; rewrite Hw1, <- app_assoc; reflexivity.
Qed.

(** X21.  An export determines its rows.  With quoting on, single-byte
    delimiter, quote and escape symbols that are pairwise different,
    quote and escape below 0x80 and neither of them the digit 0, and a
    terminator that is not empty and does not start with one of the three
    symbols: two lists of records that [WriteAll] turns into the same
    contents of a [bytes.Buffer] are the same list -- the same number of
    rows, the same number of fields in each, the same nulls and the same
    bytes. *)
Theorem export_determines_rows (cw : Csv.Writer BytesBuffer)
        (d q e t0 : byte) (t : list byte)
        (rows1 rows2 : list (list Csv.RawBytes)) :
  sound (Csv.w cw) ->
  Csv.Delimiter cw = [d] -> Csv.Quote cw = [q] -> Csv.Escape cw = [e] ->
  Csv.Terminator cw = t0 :: t ->
  (q < 128)%Z -> (e < 128)%Z ->
  d <> e -> d <> q -> e <> q -> q <> digit_0 -> e <> digit_0 ->
  t0 <> d -> t0 <> q -> t0 <> e ->
  Bufio.wr (Csv.w (snd (Csv.WriteAll cw rows1))) =
  Bufio.wr (Csv.w (snd (Csv.WriteAll cw rows2))) ->
  rows1 = rows2.
Proof.
  intros Hs Hd Hq He Ht Hq7 He7 Hde Hdq Heq Hq0 He0 Htd Htq Hte H.
  rewrite !WriteAll_wr in H by exact Hs.
  apply app_inv_head in H.
  exact (@ofRecords_inj _ cw d q e t0 t Hd Hq He Ht Hq7 He7 Hde Hdq Heq
           Hq0 He0 Htd Htq Hte rows1 rows2 H).
Qed.

Lemma export_determines_rows_witness :
  sound (Csv.w (Csv.NewWriter ([] : BytesBuffer))) /\
  [[Some [10; 34]%Z; None]; []; [Some []]] =
  [[Some [10; 34]%Z; None]; []; [Some []]].
Proof.
  assert (Hs : sound (Csv.w (Csv.NewWriter ([] : BytesBuffer)))).
  { unfold sound; simpl; unfold Bufio.defaultBufSize; repeat split; lia. }
  split; [exact Hs|].
  refine (@export_determines_rows (Csv.NewWriter ([] : BytesBuffer))
            comma dquote backslash LF []
            [[Some [10; 34]%Z; None]; []; [Some []]]
            [[Some [10; 34]%Z; None]; []; [Some []]]
            Hs eq_refl eq_refl eq_refl eq_refl _ _ _ _ _ _ _ _ _ _ eq_refl);
    unfold comma, dquote, backslash, digit_0, LF; lia.
Defined.

(** * A symbol from 0x80 on in the older revision *)

Lemma runeBytes_two (r : rune) :
  (128 <= r < 2048)%Z ->
  runeBytes r =
  [ Z.lor Utf8.t2 (Utf8.to_byte (Z.shiftr r 6));
    Z.lor Utf8.tx (Z.land (Utf8.to_byte r) Utf8.maskx) ].
Proof.
  intros Hr; unfold runeBytes, Utf8.RuneSelf, Utf8.EncodeRune.
  destruct (Z.ltb_spec r 128) as [H|_]; [lia|].
  rewrite Z.mod_small by lia.
  unfold Utf8.rune1Max, Utf8.rune2Max.
  destruct (Z.leb_spec r 127) as [H|_]; [lia|].
  destruct (Z.leb_spec r 2047) as [_|H]; [reflexivity | lia].
Qed.

(** X22.  The older revision compares [rune(byte)] with the symbols and
    writes a match with [WriteRune], so a delimiter from 0x80 to 0xFF
    does match the field byte of that value -- and the byte is then
    written as the two bytes of the UTF-8 encoding of the symbol: the
    line holds one byte more than the field, and the field's byte is
    replaced. *)
Theorem older_revision_reencodes_high_delimiter
        (cw : CsvRune.Writer BytesBuffer) (d : byte)
        (before after : list byte) :
  sound (CsvRune.w cw) ->
  CsvRune.Delimiter cw = d -> (128 <= d < 256)%Z ->
  (0 <= CsvRune.Quote cw)%Z ->
  ~ In d before ->
  (forall f, In f before ->
             f <> CsvRune.Quote cw /\ f <> CsvRune.Escape cw /\ f <> 0%Z) ->
  exists b',
    CsvRune.Write cw [CsvRune.mkNullRawBytes (before ++ d :: after) true]
    = ((Bufio.Buffered b', None), CsvRune.with_w cw b') /\
    written b' =
    written (CsvRune.w cw)
    ++ EmittedRune.quote cw
    ++ before
    ++ [ Z.lor Utf8.t2 (Utf8.to_byte (Z.shiftr d 6));
         Z.lor Utf8.tx (Z.land (Utf8.to_byte d) Utf8.maskx) ]
    ++ EmittedRune.ofBytes cw after
    ++ EmittedRune.quote cw
    ++ CsvRune.Terminator cw.
Proof.
  intros Hs Hd Hd8 Hq Hnd Hplain.
  destruct (rune_Write_emits cw
              [CsvRune.mkNullRawBytes (before ++ d :: after) true] Hs)
    as (b' & E & _ & Hw).
  exists b'; split; [exact E|].
  rewrite Hw; f_equal.
  unfold EmittedRune.ofRecord, EmittedRune.ofFields, EmittedRune.separator,
    EmittedRune.ofField; simpl.
  rewrite app_nil_r, <- !app_assoc; f_equal.
  unfold EmittedRune.ofBytes; rewrite flat_map_app; simpl.
  rewrite <- !app_assoc; f_equal.
  - (* the bytes before are written as they are *)
    clear Hw E; induction before as [|f rest IH]; [reflexivity|].
    simpl; rewrite IH.
    + unfold EmittedRune.ofByte.
      destruct (Hplain f (or_introl eq_refl)) as (Hfq & Hfe & Hf0).
      destruct (Z.eqb_spec f (CsvRune.Delimiter cw)) as [E|_].
      { exfalso; apply Hnd; left; rewrite <- Hd; exact E. }
      destruct (Z.eqb_spec f (CsvRune.Quote cw)) as [E|_]; [contradiction|].
      destruct (Z.eqb_spec f (CsvRune.Escape cw)) as [E|_]; [contradiction|].
      destruct (Z.eqb_spec f 0) as [E|_]; [contradiction|].
      reflexivity.
    + intros Hin; apply Hnd; right; exact Hin.
    + intros g Hg; apply Hplain; right; exact Hg.
  - (* the delimiter byte *)
    unfold EmittedRune.ofByte at 1.
    rewrite Hd, Z.eqb_refl.
    destruct (Z.ltb_spec (CsvRune.Quote cw) 0) as [Hlt|_]; [lia|].
    rewrite runeBytes_two by lia.
    rewrite <- Hd; reflexivity.
Qed.

(** The delimiter U+00E9: the byte E9 of the field becomes C3 A9. *)
Lemma older_revision_reencodes_high_delimiter_witness :
  sound (CsvRune.w (CsvRune.mkWriter 233%Z dquote backslash [LF]
                                     (Bufio.NewWriter ([] : BytesBuffer)))) /\
  exists b',
    CsvRune.Write
      (CsvRune.mkWriter 233%Z dquote backslash [LF]
                        (Bufio.NewWriter ([] : BytesBuffer)))
      [CsvRune.mkNullRawBytes ([97%Z] ++ 233%Z :: [98%Z]) true]
    = ((Bufio.Buffered b', None),
       CsvRune.with_w (CsvRune.mkWriter 233%Z dquote backslash [LF]
                                        (Bufio.NewWriter ([] : BytesBuffer)))
                      b') /\
    written b' = [34; 97; 195; 169; 98; 34; 10]%Z.
Proof.
  assert (Hs : sound (CsvRune.w (CsvRune.mkWriter 233%Z dquote backslash [LF]
                                   (Bufio.NewWriter ([] : BytesBuffer))))).
  { unfold sound; simpl; unfold Bufio.defaultBufSize; repeat split; lia. }
  split; [exact Hs|].
  refine (@older_revision_reencodes_high_delimiter
            (CsvRune.mkWriter 233%Z dquote backslash [LF]
                              (Bufio.NewWriter ([] : BytesBuffer)))
            233%Z [97%Z] [98%Z] Hs eq_refl _ _ _ _).
  - lia.
  - simpl; unfold dquote; lia.
  - simpl; intros [H | H]; [discriminate H | exact H].
  - simpl; unfold dquote, backslash; intros f [<- | H];
      [repeat split; discriminate | contradiction].
Defined.
